(** * Kernel-Based-Sandbox: library-call automaton extraction and enforcement

    A shallow embedding of
    - [kernel-module/libcallsandbox.c] (the enforcement engine),
    - [llvm-pass/src/LibCallPass.cpp] and the graph and serializer code that
      accompanies it (the extractor and the policy artifact),
    - the [sandboxctl] loader (artifact scanner and install blob),
    together with the properties of the design document that concern them.

    Conventions.  Unsigned C integers ([u32], [unsigned long], [size_t]) are
    [N], signed ones ([s32], [int]) are [Z].  A C array is a list; an access
    outside the array, or through a NULL pointer, is a memory fault and is
    modelled by [None] in the [option] monad.  Allocation results are given
    by an explicit oracle, since [kcalloc]/[kzalloc] may fail. *)

From Stdlib Require Import NArith ZArith Lia DecimalString Ascii String.
From Stdlib Require DecimalPos DecimalN.
From stdpp Require Import base tactics option list numbers strings gmap.

Local Open Scope N_scope.

(** ** The enforcement engine (kernel-module/libcallsandbox.c) *)

Module Engine.

(** [struct edge] *)
Record edge : Type := Edge {
  src : N;          (* u32 *)
  dst : N;          (* u32 *)
  match_id : Z;     (* s32 *)
  is_epsilon : N    (* u8: non-zero means epsilon *)
}.

(** [struct policy_blob]: the header of an install request. *)
Record policy_blob : Type := PolicyBlob {
  b_pid : N;
  b_num_nodes : N;
  b_num_edges : N;
  b_id_mode : N
}.

(** [struct frontier]: [fr_bitmap = None] is the NULL pointer; otherwise the
    list holds the [unsigned long] words of the bitset. *)
Record frontier : Type := Frontier {
  fr_num_nodes : N;
  fr_bitmap : option (list N)
}.

(** [struct proc_policy].  [edges] is the kernel copy of the edge array; it
    is allocated with exactly [num_edges] elements. *)
Record proc_policy : Type := ProcPolicy {
  pid : N;
  num_nodes : N;
  num_edges : N;
  id_mode : N;
  edges : list edge;
  fr : frontier
}.

Definition BITS_PER_LONG : N := 64.

(** [BITS_TO_LONGS(n)] is [DIV_ROUND_UP(n, BITS_PER_LONG)], computed at the
    width of [unsigned long], so the sum cannot wrap for a [u32] argument. *)
Definition BITS_TO_LONGS (n : N) : N := (n + BITS_PER_LONG - 1) / BITS_PER_LONG.

(** [kcalloc(n, sizeof(unsigned long), ...)] when it succeeds. *)
Definition zeroed (n : N) : list N := replicate (N.to_nat n) 0.

(** [test_bit(nr, addr)] *)
Definition test_bit (nr : N) (addr : list N) : option bool :=
  w ← addr !! N.to_nat (nr / BITS_PER_LONG);
  Some (N.testbit w (nr mod BITS_PER_LONG)).

(** [__set_bit(nr, addr)]: [addr[nr / 64] |= 1UL << (nr % 64)] *)
Definition __set_bit (nr : N) (addr : list N) : option (list N) :=
  w ← addr !! N.to_nat (nr / BITS_PER_LONG);
  Some (<[N.to_nat (nr / BITS_PER_LONG) :=
            N.lor w (N.shiftl 1 (nr mod BITS_PER_LONG))]> addr).

(** [frontier_init]: the result of [kcalloc] is given by [alloc_ok]; the
    function returns [-ENOMEM] on failure, which its only caller ignores. *)
Definition frontier_init (alloc_ok : bool) (n : N) : frontier :=
  {| fr_num_nodes := n;
     fr_bitmap := if alloc_ok then Some (zeroed (BITS_TO_LONGS n)) else None |}.

Definition frontier_set (f : frontier) (idx : N) : option frontier :=
  bm ← fr_bitmap f;
  bm' ← __set_bit idx bm;
  Some {| fr_num_nodes := fr_num_nodes f; fr_bitmap := Some bm' |}.

Definition frontier_test (f : frontier) (idx : N) : option bool :=
  bm ← fr_bitmap f; test_bit idx bm.

(** The body of the [for] loop of [epsilon_closure], over the edge array
    from the current index on.  [changed] is the loop's flag.  The second
    test of the [&&] is evaluated only when the first one holds. *)
Fixpoint closure_pass (es : list edge) (f : frontier) (changed : bool)
  : option (frontier * bool) :=
  match es with
  | [] => Some (f, changed)
  | e :: es' =>
    if is_epsilon e =? 0 then closure_pass es' f changed
    else
      s ← frontier_test f (src e);
      if s : bool then
        d ← frontier_test f (dst e);
        if d : bool then closure_pass es' f changed
        else f' ← frontier_set f (dst e); closure_pass es' f' true
      else closure_pass es' f changed
  end.

(** The [do ... while (changed)] loop.  The outer [None] means that [fuel]
    iterations were not enough; the inner option is the memory fault. *)
Fixpoint closure_loop (fuel : nat) (es : list edge) (f : frontier)
  : option (option frontier) :=
  match fuel with
  | O => None
  | S k =>
    match closure_pass es f false with
    | None => Some None
    | Some (f', true) => closure_loop k es f'
    | Some (f', false) => Some (Some f')
    end
  end.

(** Number of bit positions of the frontier's storage. *)
Definition capacity (f : frontier) : nat :=
  match fr_bitmap f with
  | Some bm => 64 * length bm
  | None => 0
  end.

(** [epsilon_closure]: every pass that reports a change sets a bit that was
    clear, so [capacity + 1] passes always suffice ([closure_loop_total]). *)
Definition epsilon_closure_fr (es : list edge) (f : frontier) : option frontier :=
  default None (closure_loop (S (capacity f)) es f).

Definition set_fr (pp : proc_policy) (f : frontier) : proc_policy :=
  {| pid := pid pp; num_nodes := num_nodes pp; num_edges := num_edges pp;
     id_mode := id_mode pp; edges := edges pp; fr := f |}.

Definition epsilon_closure (pp : proc_policy) : option proc_policy :=
  f ← epsilon_closure_fr (edges pp) (fr pp); Some (set_fr pp f).

(** The [for] loop of [advance_frontier] that fills [next]. *)
Fixpoint move_pass (es : list edge) (f : frontier) (observed : Z)
    (next : list N) : option (list N) :=
  match es with
  | [] => Some next
  | e :: es' =>
    if negb (is_epsilon e =? 0) then move_pass es' f observed next
    else if negb (match_id e =? observed)%Z then move_pass es' f observed next
    else
      s ← frontier_test f (src e);
      if s : bool then next' ← __set_bit (dst e) next; move_pass es' f observed next'
      else move_pass es' f observed next
  end.

(** [memcpy(dst, src, n * sizeof(unsigned long))] where [src] has exactly
    [n] words: the first [n] words of [dst] are overwritten. *)
Definition memcpy_words (dst_ src_ : list N) : option (list N) :=
  if decide (length src_ ≤ length dst_)%nat
  then Some (src_ ++ drop (length src_) dst_) else None.

(** [advance_frontier].  [alloc_ok] is the outcome of the
    [kcalloc(..., GFP_ATOMIC)] of the scratch bitset [next]. *)
Definition advance_frontier (alloc_ok : bool) (pp : proc_policy) (observed : Z)
  : option proc_policy :=
  if negb alloc_ok then Some pp
  else
    next ← move_pass (edges pp) (fr pp) observed
             (zeroed (BITS_TO_LONGS (fr_num_nodes (fr pp))));
    bm ← fr_bitmap (fr pp);
    bm' ← memcpy_words bm next;
    epsilon_closure
      (set_fr pp {| fr_num_nodes := fr_num_nodes (fr pp); fr_bitmap := Some bm' |}).

(** [frontier_empty]: the loop reads [bitmap[i]] for
    [i < BITS_TO_LONGS(num_nodes)]. *)
Fixpoint words_zero (bm : list N) (i : nat) (n : nat) : option bool :=
  match n with
  | O => Some true
  | S n' =>
    w ← bm !! i;
    if negb (w =? 0) then Some false else words_zero bm (S i) n'
  end.

Definition frontier_empty (f : frontier) : option bool :=
  bm ← fr_bitmap f;
  words_zero bm 0 (N.to_nat (BITS_TO_LONGS (fr_num_nodes f))).

(** *** The policy table

    [proc_tbl] is a hash table of chained buckets; [hash_add] links a new
    entry at the head of its bucket and [lookup_ppid] returns the first
    entry of the bucket with the pid sought.  Entries of other buckets are
    never compared equal, so one list with insertion at the head and
    first-match lookup has the same behaviour. *)

Definition table : Type := list proc_policy.

Definition lookup_ppid (tbl : table) (p : N) : option proc_policy :=
  List.find (fun pp => pid pp =? p) tbl.

(** [hash_del] of the entry that [lookup_ppid] returned. *)
Fixpoint hash_del (tbl : table) (p : N) : table :=
  match tbl with
  | [] => []
  | pp :: tbl' => if pid pp =? p then tbl' else pp :: hash_del tbl' p
  end.

Definition hash_add (tbl : table) (pp : proc_policy) : table := pp :: tbl.

(** In-place update of the entry that [lookup_ppid] returned. *)
Fixpoint tbl_store (tbl : table) (pp' : proc_policy) : table :=
  match tbl with
  | [] => []
  | pp :: tbl' =>
    if pid pp =? pid pp' then pp' :: tbl' else pp :: tbl_store tbl' pp'
  end.

(** *** The IOCTL interface *)

Inductive errno : Type := EFAULT | EINVAL | ENOMEM | ENOTTY.

(** Return value of [sandbox_ioctl]: [0] or [-errno]. *)
Inductive retval : Type := Success | Failure (e : errno).

(** [_IOW('L', 0x01, struct policy_blob * )] on x86-64. *)
Definition IOCTL_LOAD_POLICY : N := 0x40084C01.

(** What user space placed at [arg]: the header, followed by the edge
    records that can be read after it. *)
Record user_blob : Type := UserBlob {
  u_hdr : policy_blob;
  u_edges : list edge
}.

(** Outcomes of the four allocations of a load request, in program order:
    the kernel copy of the edges, the [proc_policy], the frontier bitmap
    and the in-degree table. *)
Record install_allocs : Type := InstallAllocs {
  edges_ok : bool;
  pp_ok : bool;
  bitmap_ok : bool;
  indeg_ok : bool
}.

(** [for (i = 0; i < num_edges; ++i) if (!edges[i].is_epsilon)
    indeg[edges[i].dst]++;] with the [u32] increment written out. *)
Fixpoint count_indeg (es : list edge) (indeg : list N) : option (list N) :=
  match es with
  | [] => Some indeg
  | e :: es' =>
    if negb (is_epsilon e =? 0) then count_indeg es' indeg
    else
      c ← indeg !! N.to_nat (dst e);
      count_indeg es' (<[N.to_nat (dst e) := (c + 1) mod 2 ^ 32]> indeg)
  end.

(** [for (n = 0; n < num_nodes; ++n) if (indeg[n] == 0) frontier_set(fr, n);]
    from node [n] on, with [todo] nodes left. *)
Fixpoint start_loop (indeg : list N) (n : N) (todo : nat) (f : frontier)
  : option frontier :=
  match todo with
  | O => Some f
  | S todo' =>
    c ← indeg !! N.to_nat n;
    if c =? 0 then f' ← frontier_set f n; start_loop indeg (n + 1) todo' f'
    else start_loop indeg (n + 1) todo' f
  end.

(** The block that initialises the start set. *)
Definition init_start_set (indeg_alloc_ok : bool) (hdr : policy_blob)
    (es : list edge) (f : frontier) : option frontier :=
  if indeg_alloc_ok then
    indeg ← count_indeg es (zeroed (b_num_nodes hdr));
    start_loop indeg 0 (N.to_nat (b_num_nodes hdr)) f
  else frontier_set f 0.

(** [sandbox_ioctl].  The result is the policy table afterwards and the
    return value; [None] is a memory fault in the kernel. *)
Definition sandbox_ioctl (a : install_allocs) (cmd : N) (arg : option user_blob)
    (tbl : table) : option (table * retval) :=
  if cmd =? IOCTL_LOAD_POLICY then
    match arg with
    | None => Some (tbl, Failure EFAULT)
    | Some ub =>
      let hdr := u_hdr ub in
      if (b_num_nodes hdr =? 0) || (2 ^ 20 <? b_num_edges hdr)
      then Some (tbl, Failure EINVAL)
      else if negb (edges_ok a) then Some (tbl, Failure ENOMEM)
      else if decide (length (u_edges ub) < N.to_nat (b_num_edges hdr))%nat
      then Some (tbl, Failure EFAULT)
      else
        let es := take (N.to_nat (b_num_edges hdr)) (u_edges ub) in
        let tbl1 :=
          match lookup_ppid tbl (b_pid hdr) with
          | Some _ => hash_del tbl (b_pid hdr)
          | None => tbl
          end in
        if negb (pp_ok a) then Some (tbl1, Failure ENOMEM)
        else
          let pp :=
            {| pid := b_pid hdr; num_nodes := b_num_nodes hdr;
               num_edges := b_num_edges hdr; id_mode := b_id_mode hdr;
               edges := es;
               fr := frontier_init (bitmap_ok a) (b_num_nodes hdr) |} in
          f ← init_start_set (indeg_ok a) hdr es (fr pp);
          pp' ← epsilon_closure (set_fr pp f);
          Some (hash_add tbl1 pp', Success)
    end
  else Some (tbl, Failure ENOTTY).

(** *** The probe on the marker system call

    [handler_pre] with the marker value [id] and the pid of the process
    that issued it.  The boolean of the result tells whether SIGKILL was
    sent. *)
Definition handler_pre (alloc_ok : bool) (id : Z) (p : N) (tbl : table)
  : option (table * bool) :=
  match lookup_ppid tbl p with
  | Some pp =>
    pp' ← advance_frontier alloc_ok pp id;
    e ← frontier_empty (fr pp');
    Some (tbl_store tbl pp', e)
  | None => Some (tbl, false)
  end.

End Engine.

(** ** The graph and the policy artifact (Policy/LibCallGraph.h and its
    implementation) *)

Module Policy.

Definition SIZE_MAX : N := 2 ^ 64 - 1.

(** [operator<<] for [size_t] and [int]. *)
Definition show_N (n : N) : string := NilEmpty.string_of_uint (N.to_uint n).
Definition show_Z (z : Z) : string := NilEmpty.string_of_int (Z.to_int z).

(** The double quote and the line feed. *)
Definition dquote : ascii := Eval cbv in ascii_of_nat 34.
Definition Q : string := String dquote EmptyString.
Definition linefeed : ascii := Eval cbv in ascii_of_nat 10.
Definition NL : string := String linefeed EmptyString.

(** The label of an epsilon edge: U+03F5 in UTF-8. *)
Definition epsilon_label : string :=
  Eval cbv in String (ascii_of_nat 207) (String (ascii_of_nat 181) EmptyString).

Record NeighborEdge : Type := mkNeighborEdge {
  target : N;
  label : string
}.

Record Node : Type := mkNode {
  nextNode : N;
  viewedCalls : list N;
  dummyID : Z;
  uniqueID : Z;
  pretty : string
}.

Record BucketNode : Type := mkBucketNode {
  nodeIndex : N;
  next : N
}.

Record Graph : Type := mkGraph {
  functionName : string;
  nodes : list Node;
  edges : list NeighborEdge;
  adj : list (list N);
  buckets : list N;
  bucketPool : list BucketNode;
  mod_ : N
}.

(** A default-constructed [Graph]. *)
Definition empty_graph : Graph :=
  {| functionName := ""; nodes := []; edges := []; adj := [];
     buckets := []; bucketPool := []; mod_ := 200 |}.

(** A default-constructed [Node] with its [pretty] name. *)
Definition new_node (p : string) : Node :=
  {| nextNode := SIZE_MAX; viewedCalls := []; dummyID := -1; uniqueID := -1;
     pretty := p |}.

Definition set_nodes (G : Graph) (ns : list Node) : Graph :=
  {| functionName := functionName G; nodes := ns; edges := edges G;
     adj := adj G; buckets := buckets G; bucketPool := bucketPool G;
     mod_ := mod_ G |}.

(** [Graph::addNodeRetIndex] *)
Definition addNodeRetIndex (G : Graph) (p : string) : Graph * N :=
  ({| functionName := functionName G; nodes := nodes G ++ [new_node p];
      edges := edges G; adj := adj G ++ [[]];
      buckets := buckets G; bucketPool := bucketPool G; mod_ := mod_ G |},
   N.of_nat (length (nodes G))).

(** [Graph::addEdge]; [adj[src]] and [nodes[src]] must exist. *)
Definition addEdge (G : Graph) (src dst : N) (l : string) : option (Graph * N) :=
  a ← adj G !! N.to_nat src;
  n ← nodes G !! N.to_nat src;
  let id := N.of_nat (length (edges G)) in
  Some ({| functionName := functionName G;
           nodes := <[N.to_nat src :=
                        {| nextNode := nextNode n;
                           viewedCalls := viewedCalls n ++ [dst];
                           dummyID := dummyID n; uniqueID := uniqueID n;
                           pretty := pretty n |}]> (nodes G);
           edges := edges G ++ [ {| target := dst; label := l |} ];
           adj := <[N.to_nat src := a ++ [id]]> (adj G);
           buckets := buckets G; bucketPool := bucketPool G;
           mod_ := mod_ G |}, id).

(** [Graph::initBuckets] *)
Definition initBuckets (G : Graph) (m : N) : Graph :=
  {| functionName := functionName G; nodes := nodes G; edges := edges G;
     adj := adj G; buckets := replicate (N.to_nat m) SIZE_MAX;
     bucketPool := []; mod_ := m |}.

(** [unsigned] arithmetic, and the conversions [static_cast<int>] and
    [static_cast<size_t>]. *)
Definition u32 (n : N) : N := n mod 2 ^ 32.
Definition to_int (n : N) : Z :=
  if u32 n <? 2 ^ 31 then Z.of_N (u32 n) else (Z.of_N (u32 n) - 2 ^ 32)%Z.
Definition to_size_t (z : Z) : N := Z.to_N (z mod 2 ^ 64).

(** [Graph::insertIntoBuckets]:
    [key = static_cast<size_t>(dummyID % static_cast<int>(mod))], the
    remainder being that of [int]; a zero divisor and a key outside
    [buckets] are faults. *)
Definition insertIntoBuckets (G : Graph) (idx : N) (dummy : Z) : option Graph :=
  if mod_ G =? 0 then Some G
  else if (to_int (mod_ G) =? 0)%Z then None
  else
    let key := to_size_t (Z.rem dummy (to_int (mod_ G))) in
    head_ ← buckets G !! N.to_nat key;
    Some {| functionName := functionName G; nodes := nodes G;
            edges := edges G; adj := adj G;
            buckets := <[N.to_nat key := N.of_nat (length (bucketPool G))]>
                         (buckets G);
            bucketPool := bucketPool G
                          ++ [ {| nodeIndex := idx; next := head_ |} ];
            mod_ := mod_ G |}.

Module PolicyJSON.

Record LibCallSite : Type := mkLibCallSite {
  name : string;
  uniqueID : Z;
  dummyID : Z;
  resetCount : Z;
  irLocation : string
}.

Record Edge : Type := mkEdge {
  src : N;
  dst : N;
  label : string;
  matchDummy : Z;
  matchUnique : Z
}.

Record FuncPolicy : Type := mkFuncPolicy {
  functionName : string;
  callsInOrder : list LibCallSite;
  mod_ : N;
  idMode : string;
  nodeLabels : list string;
  nodeDummyIDs : list Z;
  nodeUniqueIDs : list Z;
  edges : list Edge
}.

(** The loops of [serialize] that separate the items with a comma. *)
Fixpoint sep_by (sep : string) (items : list string) : string :=
  match items with
  | [] => ""
  | [x] => x
  | x :: rest => x ++ sep ++ sep_by sep rest
  end.

(** The items of [callsInOrder] and of [edges]: one per line, the comma
    before the line feed on all but the last. *)
Fixpoint lines_of (items : list string) : string :=
  match items with
  | [] => ""
  | [x] => x ++ NL
  | x :: rest => x ++ "," ++ NL ++ lines_of rest
  end.

Definition show_site (c : LibCallSite) : string :=
  "        {" ++ Q ++ "name" ++ Q ++ ":" ++ Q ++ name c ++ Q
  ++ "," ++ Q ++ "uniqueID" ++ Q ++ ":" ++ show_Z (uniqueID c)
  ++ "," ++ Q ++ "dummyID" ++ Q ++ ":" ++ show_Z (dummyID c)
  ++ "," ++ Q ++ "resetCount" ++ Q ++ ":" ++ show_Z (resetCount c)
  ++ "," ++ Q ++ "irLocation" ++ Q ++ ":" ++ Q ++ irLocation c ++ Q ++ "}".

Definition show_edge (E : Edge) : string :=
  "        {" ++ Q ++ "src" ++ Q ++ ":" ++ show_N (src E)
  ++ "," ++ Q ++ "dst" ++ Q ++ ":" ++ show_N (dst E)
  ++ "," ++ Q ++ "label" ++ Q ++ ":" ++ Q ++ label E ++ Q
  ++ "," ++ Q ++ "matchDummy" ++ Q ++ ":" ++ show_Z (matchDummy E)
  ++ "," ++ Q ++ "matchUnique" ++ Q ++ ":" ++ show_Z (matchUnique E) ++ "}".

Definition show_function (f : FuncPolicy) : string :=
  "    {" ++ NL
  ++ "      " ++ Q ++ "functionName" ++ Q ++ ": " ++ Q ++ functionName f ++ Q
  ++ "," ++ NL
  ++ "      " ++ Q ++ "mod" ++ Q ++ ": " ++ show_N (mod_ f) ++ "," ++ NL
  ++ "      " ++ Q ++ "idMode" ++ Q ++ ": " ++ Q ++ idMode f ++ Q ++ "," ++ NL
  ++ "      " ++ Q ++ "callsInOrder" ++ Q ++ ": [" ++ NL
  ++ lines_of (show_site <$> callsInOrder f)
  ++ "      ]," ++ NL
  ++ "      " ++ Q ++ "nodeLabels" ++ Q ++ ": ["
  ++ sep_by "," ((λ l, Q ++ l ++ Q)%string <$> nodeLabels f) ++ "]," ++ NL
  ++ "      " ++ Q ++ "nodeDummyIDs" ++ Q ++ ": ["
  ++ sep_by "," (show_Z <$> nodeDummyIDs f) ++ "]," ++ NL
  ++ "      " ++ Q ++ "nodeUniqueIDs" ++ Q ++ ": ["
  ++ sep_by "," (show_Z <$> nodeUniqueIDs f) ++ "]," ++ NL
  ++ "      " ++ Q ++ "edges" ++ Q ++ ": [" ++ NL
  ++ lines_of (show_edge <$> edges f)
  ++ "      ]" ++ NL
  ++ "    }".

(** [PolicyJSON::serialize] *)
Definition serialize (functions : list FuncPolicy) : string :=
  "{" ++ NL ++ "  " ++ Q ++ "functions" ++ Q ++ ": [" ++ NL
  ++ lines_of (show_function <$> functions)
  ++ "  ]" ++ NL ++ "}" ++ NL.

End PolicyJSON.

End Policy.

(** ** The extractor (llvm-pass/src/LibCallPass.cpp) *)

Module LibCallPass.
Import Policy.

(** *** The part of the IR that the pass reads

    Objects that the pass tells apart by their address (basic blocks,
    instructions) carry that address. *)

Record Callee : Type := mkCallee {
  callee_name : string;
  isDeclaration : bool
}.

(** [CallTo None] is a call whose [getCalledFunction()] is null. *)
Inductive InstKind : Type :=
  | NotACall
  | CallTo (callee : option Callee).

Record Instruction : Type := mkInstruction {
  i_addr : N;
  i_kind : InstKind;
  debugLine : option N
}.

Record BasicBlock : Type := mkBasicBlock {
  bb_addr : N;
  insts : list Instruction;
  successors : list N
}.

Record Function : Type := mkFunction {
  f_name : string;
  f_isDeclaration : bool;
  f_blocks : list BasicBlock
}.

(** The command-line options [-libcall-mod] and [-libcall-id-mode]. *)
Record Options : Type := mkOptions {
  HashMod : N;
  IdModeOpt : string
}.

Definition isCandidateLibCall (callee : option Callee) : bool :=
  match callee with
  | None => false
  | Some c =>
    if negb (isDeclaration c) then false
    else if String.prefix "llvm." (callee_name c) then false
    else true
  end.

(** [dyn_cast<CallBase>] followed by [isCandidateLibCall]; the result is
    the called function. *)
Definition lib_call (inst : Instruction) : option Callee :=
  match i_kind inst with
  | CallTo callee => if isCandidateLibCall callee then callee else None
  | NotACall => None
  end.

Record BBCallList : Type := mkBBCallList {
  calls : list (Instruction * Callee);
  entryNode : N;
  exitNode : N
}.

(** [std::map<const BasicBlock*, BBCallList>]: the entries in the order of
    the keys, which is the order of iteration. *)
Definition bbmap : Type := list (BasicBlock * BBCallList).

(** [bbMap[&BB] = lst] *)
Fixpoint bbMap_store (m : bbmap) (BB : BasicBlock) (lst : BBCallList) : bbmap :=
  match m with
  | [] => [(BB, lst)]
  | (B', l') :: m' =>
    if bb_addr BB <? bb_addr B' then (BB, lst) :: m
    else if bb_addr BB =? bb_addr B' then (B', lst) :: m'
    else (B', l') :: bbMap_store m' BB lst
  end.

(** [bbMap.find(Succ)] *)
Definition bbMap_find (m : bbmap) (Succ : N) : option BBCallList :=
  snd <$> List.find (λ kv, bb_addr kv.1 =? Succ) m.

(** The first loop of [run] over the blocks of [F]. *)
Definition collect_calls (F : Function) : bbmap :=
  foldl (λ m BB,
           bbMap_store m BB
             {| calls := omap (λ inst, c ← lib_call inst; Some (inst, c)) (insts BB);
                entryNode := SIZE_MAX; exitNode := SIZE_MAX |})
        [] (f_blocks F).

(** [callNodeIndex[inst]]: a key that is absent reads as zero. *)
Definition index_of (callNodeIndex : gmap N N) (inst : Instruction) : N :=
  default 0 (callNodeIndex !! i_addr inst).

(** The body of the loop that allocates the nodes, for one call site:
    [idx = G.addNodeRetIndex(pretty); callNodeIndex[pr.first] = idx]. *)
Definition node_step (st : Graph * gmap N N) (pr : Instruction * Callee)
  : Graph * gmap N N :=
  let '(G, callNodeIndex) := st in
  let '(G', idx) := addNodeRetIndex G (callee_name pr.2) in
  (G', <[i_addr pr.1 := idx]> callNodeIndex).

(** The loop that allocates one node per call site, block by block in the
    order of [bbMap]. *)
Definition add_nodes (m : bbmap) (G : Graph) : Graph * gmap N N :=
  foldl (λ st kv, foldl node_step st (calls kv.2)) (G, ∅) m.

(** [for (i = 0; i + 1 < calls.size(); ++i) addEdge(n1, n2, label)] *)
Fixpoint intra_edges (cs : list (Instruction * Callee)) (callNodeIndex : gmap N N)
    (G : Graph) : option Graph :=
  match cs with
  | c1 :: ((c2 :: _) as rest) =>
    r ← addEdge G (index_of callNodeIndex c1.1) (index_of callNodeIndex c2.1)
          (callee_name c1.2);
    intra_edges rest callNodeIndex r.1
  | _ => Some G
  end.

(** [for (Succ : successors(BB))]: an epsilon edge to each successor that
    has calls, from [lst.exitNode] to the [entryNode] the map holds for it. *)
Fixpoint succ_edges (succs : list N) (lst : BBCallList) (m : bbmap) (G : Graph)
  : option Graph :=
  match succs with
  | [] => Some G
  | Succ :: succs' =>
    match bbMap_find m Succ with
    | Some it =>
      if bool_decide (calls it = []) then succ_edges succs' lst m G
      else
        r ← addEdge G (exitNode lst) (entryNode it) epsilon_label;
        succ_edges succs' lst m r.1
    | None => succ_edges succs' lst m G
    end
  end.

(** The loop that adds the edges.  [todo] holds the entries still to be
    visited and [m] the map, in which the entries already visited have
    their [entryNode] and [exitNode]. *)
Fixpoint add_edges (todo : bbmap) (m : bbmap) (callNodeIndex : gmap N N)
    (G : Graph) : option (bbmap * Graph) :=
  match todo with
  | [] => Some (m, G)
  | (BB, lst0) :: todo' =>
    let lst :=
      match calls lst0, last (calls lst0) with
      | front :: _, Some back =>
        {| calls := calls lst0;
           entryNode := index_of callNodeIndex front.1;
           exitNode := index_of callNodeIndex back.1 |}
      | _, _ => lst0
      end in
    let m1 := bbMap_store m BB lst in
    G1 ← intra_edges (calls lst) callNodeIndex G;
    G2 ← (if bool_decide (calls lst = []) then Some G1
          else succ_edges (successors BB) lst m1 G1);
    add_edges todo' m1 callNodeIndex G2
  end.

(** State of the loop that assigns the identifiers, in program order. *)
Record assign_state : Type := mkAssign {
  uniqueIdCounter : N;
  dummyCounter : N;
  graph : Graph;
  sites : list PolicyJSON.LibCallSite;
  markers : list Z   (* the arguments of the inserted calls to [dummy] *)
}.

Definition set_ids (n : Node) (d u : Z) : Node :=
  {| nextNode := nextNode n; viewedCalls := viewedCalls n;
     dummyID := d; uniqueID := u; pretty := pretty n |}.

(** The body of the loop for one instruction. *)
Definition assign_ids (o : Options) (callNodeIndex : gmap N N)
    (st : assign_state) (inst : Instruction) : option assign_state :=
  match lib_call inst with
  | None => Some st
  | Some c =>
    let uniqueID := u32 (uniqueIdCounter st + 1) in
    let dc := dummyCounter st in
    if HashMod o =? 0 then None   (* division by zero *)
    else
      let reset := dc / HashMod o in
      let dummy := dc mod HashMod o in
      G' ← match callNodeIndex !! i_addr inst with
           | Some idx =>
             n ← nodes (graph st) !! N.to_nat idx;
             insertIntoBuckets
               (set_nodes (graph st)
                  (<[N.to_nat idx := set_ids n (to_int dummy) (to_int uniqueID)]>
                     (nodes (graph st))))
               idx (to_int dummy)
           | None => Some (graph st)
           end;
      let unique_mode := bool_decide (IdModeOpt o = "unique") in
      Some {| uniqueIdCounter := uniqueID;
              dummyCounter := u32 (dc + 1);
              graph := G';
              sites := sites st
                ++ [ {| PolicyJSON.name := callee_name c;
                        PolicyJSON.uniqueID :=
                          if unique_mode then to_int uniqueID else (-1)%Z;
                        PolicyJSON.dummyID := to_int dummy;
                        PolicyJSON.resetCount := to_int reset;
                        PolicyJSON.irLocation :=
                          match debugLine inst with
                          | Some l => "line " ++ show_N l
                          | None => "unknown"
                          end |} ];
              markers := markers st
                ++ [ to_int (if unique_mode then uniqueID else dummy) ] |}
  end.

Fixpoint assign_loop (o : Options) (callNodeIndex : gmap N N)
    (st : assign_state) (Is_ : list Instruction) : option assign_state :=
  match Is_ with
  | [] => Some st
  | inst :: Is' => st' ← assign_ids o callNodeIndex st inst;
                assign_loop o callNodeIndex st' Is'
  end.

(** The export of the edges: [for src] over [adj], [for eid] over
    [adj[src]]. *)
Definition export_edge (G : Graph) (src : nat) (eid : N) : option PolicyJSON.Edge :=
  E ← edges G !! N.to_nat eid;
  n ← nodes G !! src;
  let eps := bool_decide (label E = epsilon_label) in
  Some {| PolicyJSON.src := N.of_nat src;
          PolicyJSON.dst := target E;
          PolicyJSON.label := label E;
          PolicyJSON.matchDummy := if eps then (-1)%Z else dummyID n;
          PolicyJSON.matchUnique := if eps then (-1)%Z else uniqueID n |}.

Definition export_edges (G : Graph) : option (list PolicyJSON.Edge) :=
  ess ← mapM (λ '(src, eids), mapM (export_edge G src) eids)
             (imap pair (adj G));
  Some (concat ess).

(** The body of [run] for one function with a body: the policy of the
    function and the arguments of the marker calls inserted in it. *)
Definition run_function (o : Options) (F : Function)
  : option (PolicyJSON.FuncPolicy * Graph * list Z) :=
  let G0 := initBuckets
              {| functionName := f_name F; nodes := []; edges := []; adj := [];
                 buckets := []; bucketPool := []; mod_ := 200 |}
              (HashMod o) in
  let bbMap := collect_calls F in
  let '(G1, callNodeIndex) := add_nodes bbMap G0 in
  '(_, G2) ← add_edges bbMap bbMap callNodeIndex G1;
  st ← assign_loop o callNodeIndex
         {| uniqueIdCounter := 0; dummyCounter := 0; graph := G2;
            sites := []; markers := [] |}
         (concat (insts <$> f_blocks F));
  let G := graph st in
  es ← export_edges G;
  Some ({| PolicyJSON.functionName := functionName G;
           PolicyJSON.callsInOrder := sites st;
           PolicyJSON.mod_ := HashMod o;
           PolicyJSON.idMode := IdModeOpt o;
           PolicyJSON.nodeLabels := pretty <$> nodes G;
           PolicyJSON.nodeDummyIDs := dummyID <$> nodes G;
           PolicyJSON.nodeUniqueIDs := uniqueID <$> nodes G;
           PolicyJSON.edges := es |}, G, markers st).

(** [run]: the policies of the functions that have a body, in module
    order, and the text written to the policy file. *)
Definition run_policies (o : Options) (M : list Function)
  : option (list PolicyJSON.FuncPolicy) :=
  mapM (λ F, r ← run_function o F; Some r.1.1)
       (List.filter (λ F, negb (f_isDeclaration F)) M).

Definition run (o : Options) (M : list Function) : option string :=
  PolicyJSON.serialize <$> run_policies o M.

End LibCallPass.

(** ** The loader (sandboxctl) *)

Module Loader.
Import Policy.

Local Open Scope nat_scope.

(** *** C strings

    A C string is the text before its terminating NUL; a pointer into it is
    an offset between 0 and the length of the text. *)

Fixpoint skip (n : nat) (s : string) : string :=
  match n, s with
  | S n', String _ s' => skip n' s'
  | _, _ => s
  end.

(** Offset of the first occurrence of [needle] in [s]. *)
Fixpoint find_sub (needle s : string) : option nat :=
  if String.prefix needle s then Some 0
  else match s with
       | EmptyString => None
       | String _ s' => S <$> find_sub needle s'
       end.

(** Offset of the first occurrence of the character [c] in [s]. *)
Fixpoint find_char (c : ascii) (s : string) : option nat :=
  match s with
  | EmptyString => None
  | String a s' => if Ascii.eqb a c then Some 0 else S <$> find_char c s'
  end.

(** [strstr(text + p, needle)] and [strchr(text + p, c)], as offsets into
    [text]; [None] is the NULL pointer. *)
Definition strstr (text : string) (p : nat) (needle : string) : option nat :=
  (λ k, p + k) <$> find_sub needle (skip p text).

Definition strchr (text : string) (p : nat) (c : ascii) : option nat :=
  (λ k, p + k) <$> find_char c (skip p text).

(** [isspace] in the C locale. *)
Definition isspace (c : ascii) : bool :=
  let n := nat_of_ascii c in
  (n =? 32) || ((9 <=? n) && (n <=? 13)).

Definition isdigit (c : ascii) : bool :=
  let n := nat_of_ascii c in (48 <=? n) && (n <=? 57).

Fixpoint skip_spaces (s : string) : string :=
  match s with
  | String c s' => if isspace c then skip_spaces s' else s
  | EmptyString => s
  end.

(** The characters of [s] before the first one that satisfies [stop]. *)
Fixpoint take_until (stop : ascii → bool) (s : string) : string :=
  match s with
  | String c s' => if stop c then EmptyString else String c (take_until stop s')
  | EmptyString => EmptyString
  end.

Fixpoint take_str (n : nat) (s : string) : string :=
  match n, s with
  | S n', String c s' => String c (take_str n' s')
  | _, _ => EmptyString
  end.

(** The digits at the head of [s], read in base ten after [acc]. *)
Fixpoint digits (acc : Z) (s : string) : Z :=
  match s with
  | String c s' =>
    if isdigit c
    then digits (10 * acc + Z.of_nat (nat_of_ascii c - 48))%Z s'
    else acc
  | EmptyString => acc
  end.

(** The ends of the range of a [long] (64 bits). *)
Definition LONG_MAX : Z := (2 ^ 63 - 1)%Z.
Definition LONG_MIN : Z := (- 2 ^ 63)%Z.

(** The conversion [(int)] of a [long]: the low 32 bits, as a signed
    number. *)
Definition int_of_long (z : Z) : Z := ((z + 2 ^ 31) mod 2 ^ 32 - 2 ^ 31)%Z.

(** [strtol(s, NULL, 10)]: white space, an optional sign, digits; a number
    outside the range of a [long] is replaced by the end of the range on
    its side. *)
Definition strtol (s : string) : Z :=
  let v :=
    match skip_spaces s with
    | String c s' =>
      if Ascii.eqb c "-" then (- digits 0 s')%Z
      else if Ascii.eqb c "+" then digits 0 s'
      else digits 0 (String c s')
    | EmptyString => 0%Z
    end in
  Z.max LONG_MIN (Z.min LONG_MAX v).

(** [atoi] of the C library: [(int) strtol(s, NULL, 10)]. *)
Definition atoi (s : string) : Z := int_of_long (strtol s).

(** [find_value(json, key, out, outsz)] on the text from [json] on: the
    value copied to [out], or [None] for the return value [-1]. *)
Definition find_value (json key : string) (outsz : nat) : option string :=
  p ← find_sub key json;
  let s1 := skip p json in
  c ← find_char ":" s1;
  let s2 := skip_spaces (skip (S c) s1) in
  let v :=
    match s2 with
    | String a r =>
      if Ascii.eqb a dquote then take_until (λ x, Ascii.eqb x dquote) r
      else take_until (λ x, Ascii.eqb x "," || Ascii.eqb x "]" || Ascii.eqb x "}") s2
    | EmptyString => EmptyString
    end in
  Some (take_str (outsz - 1) v).

(** *** The edge records of the install blob *)

(** [struct edge] of the loader (packed). *)
Record edge : Type := mkEdge {
  src : N;         (* uint32_t *)
  dst : N;         (* uint32_t *)
  match_id : Z;    (* int32_t *)
  is_epsilon : N   (* uint8_t *)
}.

(** [struct policy_blob] *)
Record policy_blob : Type := mkPolicyBlob {
  pid : N;
  num_nodes : N;
  num_edges : N;
  id_mode : N
}.

(** The conversion [(uint32_t)] of an [int]. *)
Definition to_u32 (z : Z) : N := Z.to_N (z mod 2 ^ 32).

(** [uint32_t] addition. *)
Definition u32_add (a b : N) : N := ((a + b) mod 2 ^ 32)%N.

(** What [extract_graph_edges] hands back. *)
Inductive extracted : Type :=
  | Failed                                             (* return -1 *)
  | Parsed (edges : list edge) (num_edges num_nodes : N). (* return 0 *)

(** Number of occurrences of [c] in [text] at the offsets [from .. to_ - 1]. *)
Definition count_char (c : ascii) (text : string) (from to_ : nat) : N :=
  N.of_nat (length (List.filter (λ a, Ascii.eqb a c)
                      (list_ascii_of_string (take_str (to_ - from) (skip from text))))).

(** A field of the edge object that starts at [es] and ends at [ee]:
    [field = strstr(es, quoted); if (field && field < ee &&
    find_value(field, key, buf, sizeof(buf)) == 0)]. *)
Definition edge_field (text : string) (es ee : nat) (key : string) : option string :=
  field ← strstr text es (Q ++ key ++ Q);
  if field <? ee then find_value (skip field text) key 64 else None.

(** The body of the parse loop for the edge object at [es .. ee]. *)
Definition parse_edge (text : string) (es ee : nat) (id_mode : Z) : edge :=
  {| src := match edge_field text es ee "src" with
            | Some buf => to_u32 (atoi buf) | None => 0%N end;
     dst := match edge_field text es ee "dst" with
            | Some buf => to_u32 (atoi buf) | None => 0%N end;
     is_epsilon :=
       match edge_field text es ee "label" with
       | Some buf =>
         if String.eqb buf (Q ++ epsilon_label ++ Q) || String.eqb buf epsilon_label
         then 1%N else 0%N
       | None => 0%N
       end;
     match_id :=
       match edge_field text es ee
               (if (id_mode =? 0)%Z then "matchDummy" else "matchUnique") with
       | Some buf => atoi buf
       | None => (-1)%Z
       end |}.

(** The parse loop, from [cur] on; each round consumes one opening brace
    before [end_], so [fuel] rounds are enough when [fuel] is the number of
    such braces plus one.  [None] means that [fuel] ran out. *)
Fixpoint parse_loop (fuel : nat) (text : string) (cur end_ : nat) (id_mode : Z)
  : option (list edge) :=
  match fuel with
  | O => None
  | S fuel' =>
    if cur <? end_ then
      match strchr text cur "{" with
      | None => Some []
      | Some es =>
        if end_ <=? es then Some []
        else
          match strchr text es "}" with
          | None => Some []
          | Some ee =>
            rest ← parse_loop fuel' text (ee + 1) end_ id_mode;
            Some (parse_edge text es ee id_mode :: rest)
          end
      end
    else Some []
  end.

(** The loop that finds the [func_index]-th occurrence of the key of the
    edges array; [None] is the return of [-1] from inside the loop. *)
Fixpoint seek_edges (rounds : nat) (json : string) (p : nat) : option nat :=
  match rounds with
  | O => Some p
  | S rounds' =>
    p' ← strstr json p (Q ++ "edges" ++ Q ++ ":");
    seek_edges rounds' json (p' + 8)
  end.

(** The edge array has [edges_count] records, zeroed by [calloc]; the loop
    fills the first ones. *)
Definition fill (parsed : list edge) (edges_count : N) : list edge :=
  parsed ++ replicate (N.to_nat edges_count - length parsed)
              {| src := 0; dst := 0; match_id := 0; is_epsilon := 0 |}.

(** The counter of a counting loop: a [uint32_t] that is incremented once
    for each of [n] characters. *)
Definition u32_count (n : N) : N := (n mod 2 ^ 32)%N.

(** [extract_graph_edges].  The outer [None] is a fault: [strchr] applied
    to a NULL pointer, or a record written past the [edges_count] records
    of the array (the loop writes one record for each object it finds,
    while [edges_count] is the number of braces modulo 2^32).  The parse
    loop consumes one brace in each round, so the number of braces plus one
    is fuel enough for it. *)
Definition extract_graph_edges (calloc_ok : bool) (json : string)
    (func_index : Z) (id_mode : Z) : option extracted :=
  match seek_edges (Z.to_nat (func_index + 1)) json 0 with
  | None => Some Failed
  | Some p =>
    start ← strchr json p "[";
    match strchr json start "]" with
    | None => Some Failed
    | Some end_ =>
      if end_ <=? start then Some Failed
      else
        match strstr json p (Q ++ "nodeLabels" ++ Q ++ ":") with
        | None => Some Failed
        | Some nl =>
          nlb ← strchr json nl "[";
          match strchr json nlb "]" with
          | None => Some Failed
          | Some nle =>
            let commas := u32_count (count_char "," json nlb nle) in
            let nodes := if 2 <? nle - nlb then u32_add commas 1 else 0%N in
            let braces := count_char "{" json start end_ in
            let edges_count := u32_count braces in
            if negb calloc_ok then Some Failed
            else
              parsed ← parse_loop (S (N.to_nat braces)) json start end_ id_mode;
              if length parsed <=? N.to_nat edges_count
              then Some (Parsed (fill parsed edges_count) edges_count nodes)
              else None
          end
        end
    end
  end.

(** *** [main] *)

(** The install blob: the header followed by [num_edges] edge records. *)
Record blob : Type := mkBlob {
  hdr : policy_blob;
  payload : list edge
}.

(** The variables that the argument loop of [main] sets. *)
Record options : Type := mkOptions {
  opt_pid : Z;
  json_path : option string;
  func_index : Z;
  opt_id_mode : Z
}.

(** The argument loop, over [argv[i..]]; [None] is the exit through
    [usage] for [-h] or [--help]. *)
Fixpoint parse_args (args : list string) (o : options) : option options :=
  match args with
  | [] => Some o
  | a :: rest =>
    match rest with
    | v :: rest' =>
      if String.eqb a "-p" then
        parse_args rest' (mkOptions (atoi v) (json_path o) (func_index o) (opt_id_mode o))
      else if String.eqb a "-j" then
        parse_args rest' (mkOptions (opt_pid o) (Some v) (func_index o) (opt_id_mode o))
      else if String.eqb a "-f" then
        parse_args rest' (mkOptions (opt_pid o) (json_path o) (atoi v) (opt_id_mode o))
      else if String.eqb a "--unique" then
        parse_args rest (mkOptions (opt_pid o) (json_path o) (func_index o) 1)
      else if String.eqb a "-h" || String.eqb a "--help" then None
      else parse_args rest o
    | [] =>
      if String.eqb a "--unique" then
        parse_args rest (mkOptions (opt_pid o) (json_path o) (func_index o) 1)
      else if String.eqb a "-h" || String.eqb a "--help" then None
      else parse_args rest o
    end
  end.

(** What [main] finds outside the program: the bytes of the files that
    [slurp] can read, whether [calloc] and [malloc] succeed, and the device:
    [None] when it cannot be opened, otherwise the return value of the
    [ioctl] on a blob. *)
Record world : Type := mkWorld {
  files : string → option string;
  calloc_ok : bool;
  malloc_ok : bool;
  device : option (blob → Z)
}.

(** The C string that starts a buffer: the bytes before the first zero
    byte.  [slurp] puts a zero byte after the bytes of the file, and the
    string functions stop at the first one they meet. *)
Definition c_str (bytes : string) : string :=
  take_until (λ c, Ascii.eqb c Ascii.zero) bytes.

(** [main]: the exit status, [argv[0]] left out.  [None] is a fault. *)
Definition main (argv : list string) (w : world) : option Z :=
  match parse_args argv (mkOptions (-1) None 0 0) with
  | None => Some 1%Z
  | Some o =>
    match json_path o with
    | None => Some 1%Z
    | Some path =>
      if (opt_pid o <=? 0)%Z then Some 1%Z
      else
        match files w path with
        | None => Some 1%Z
        | Some bytes =>
          let json := c_str bytes in
          r ← extract_graph_edges (calloc_ok w) json (func_index o) (opt_id_mode o);
          match r with
          | Failed => Some 1%Z
          | Parsed edges n_edges n_nodes =>
            match device w with
            | None => Some 1%Z
            | Some ioctl =>
              let b :=
                {| hdr := {| pid := to_u32 (opt_pid o); num_nodes := n_nodes;
                             num_edges := n_edges;
                             id_mode := to_u32 (opt_id_mode o) |};
                   payload := edges |} in
              if negb (malloc_ok w) then Some 1%Z
              else if (ioctl b =? 0)%Z then Some 0%Z else Some 1%Z
            end
          end
        end
    end
  end.

End Loader.

(** ** The enforcement engine: the remaining frontier and table functions *)

Module EngineMore.
Import Engine.

(** [frontier_free]: the bitmap is freed, the pointer cleared. *)
Definition frontier_free (f : frontier) : frontier :=
  {| fr_num_nodes := 0; fr_bitmap := None |}.

(** [frontier_clear_all]: [bitmap_zero(bitmap, num_nodes)] writes zero to
    the first [BITS_TO_LONGS(num_nodes)] words. *)
Definition frontier_clear_all (f : frontier) : option frontier :=
  bm ← fr_bitmap f;
  bm' ← memcpy_words bm (zeroed (BITS_TO_LONGS (fr_num_nodes f)));
  Some {| fr_num_nodes := fr_num_nodes f; fr_bitmap := Some bm' |}.

(** [sandbox_exit]: every policy is unlinked and freed. *)
Definition sandbox_exit (tbl : table) : table := [].

End EngineMore.

(** ** Notions used to state the engine's properties *)

Module EngineSpec.
Import Engine.

(** Node [i] is in the frontier. *)
Definition active (f : frontier) (i : N) : Prop := frontier_test f i = Some true.

(** The frontier's bitmap is allocated and has the width that
    [frontier_init] gives it. *)
Definition wf_frontier (f : frontier) : Prop :=
  ∃ bm, fr_bitmap f = Some bm
        ∧ length bm = N.to_nat (BITS_TO_LONGS (fr_num_nodes f)).

(** Every edge joins two nodes of a graph with [n] nodes. *)
Definition in_range (n : N) (es : list edge) : Prop :=
  Forall (λ e, src e < n ∧ dst e < n) es.

(** What the data model asks of an installed policy: the frontier has the
    width of the graph and every edge joins two of its nodes. *)
Definition wf_policy (pp : proc_policy) : Prop :=
  fr_num_nodes (fr pp) = num_nodes pp
  ∧ wf_frontier (fr pp)
  ∧ in_range (num_nodes pp) (edges pp).

(** [k] is reached from [i] along epsilon edges only. *)
Inductive eps_path (es : list edge) (i : N) : N → Prop :=
  | eps_here : eps_path es i i
  | eps_next e :
      eps_path es i (src e) → e ∈ es → is_epsilon e ≠ 0 → eps_path es i (dst e).

(** No epsilon edge leaves the frontier. *)
Definition eps_closed (es : list edge) (f : frontier) : Prop :=
  ∀ e, e ∈ es → is_epsilon e ≠ 0 → active f (src e) → active f (dst e).

(** An edge that consumes the marker [v] from an active node. *)
Definition fires (f : frontier) (v : Z) (e : edge) : Prop :=
  is_epsilon e = 0 ∧ match_id e = v ∧ active f (src e).

(** Number of bit positions of the storage that are clear: the variant of
    the [do ... while] loop of [epsilon_closure]. *)
Definition clear_bits (f : frontier) : nat :=
  length (List.filter
            (λ i, negb (default false (frontier_test f (N.of_nat i))))
            (seq 0 (capacity f))).

(** Non-epsilon in-degree of node [n]. *)
Definition indegree (es : list edge) (n : N) : nat :=
  length (List.filter (λ e, (is_epsilon e =? 0) && (dst e =? n)) es).

(** The [u32] increment of [indeg[...]++] in the load request. *)
Definition bump (c : N) : N := (c + 1) mod 2 ^ 32.

(** *** Sample policies and requests *)

Definition all_allocated : install_allocs :=
  {| edges_ok := true; pp_ok := true; bitmap_ok := true; indeg_ok := true |}.

(** Three call sites in one block: [open], [read], [close]. *)
Definition linear_edges : list edge :=
  [ Edge 0 1 0%Z 0; Edge 1 2 1%Z 0 ].

Definition linear_request (p : N) : user_blob :=
  {| u_hdr := PolicyBlob p 3 2 0; u_edges := linear_edges |}.

(** [open] in one block, [read] and [write] in its two successors. *)
Definition branch_edges : list edge :=
  [ Edge 0 1 (-1)%Z 1; Edge 0 2 (-1)%Z 1 ].

Definition branch_policy : proc_policy :=
  {| pid := 7; num_nodes := 3; num_edges := 2; id_mode := 0;
     edges := branch_edges;
     fr := {| fr_num_nodes := 3; fr_bitmap := Some [1] |} |}.

(** The linear policy as a load request leaves it: frontier [{0}]. *)
Definition linear_policy (p : N) : proc_policy :=
  {| pid := p; num_nodes := 3; num_edges := 2; id_mode := 0;
     edges := linear_edges;
     fr := {| fr_num_nodes := 3; fr_bitmap := Some [1] |} |}.

(** One node, and an epsilon edge whose destination is not a node. *)
Definition stray_request : user_blob :=
  {| u_hdr := PolicyBlob 7 1 1 0; u_edges := [ Edge 0 5 (-1)%Z 1 ] |}.

(** Two nodes on a cycle of consuming edges: every node has a non-epsilon
    in-edge. *)
Definition cycle_edges : list edge :=
  [ Edge 0 1 0%Z 0; Edge 1 0 1%Z 0 ].

Definition cycle_request : user_blob :=
  {| u_hdr := PolicyBlob 7 2 2 0; u_edges := cycle_edges |}.

End EngineSpec.

(** ** Notions used to state the extractor's properties *)

Module PassSpec.
Import Policy LibCallPass.

(** A call of the external function [callee] at address [a]. *)
Definition call_at (a : N) (callee : string) : Instruction :=
  mkInstruction a (CallTo (Some (mkCallee callee true))) None.

Definition other_at (a : N) : Instruction := mkInstruction a NotACall None.

(** Node [b] is reached from node [a] along exported edges. *)
Inductive reach (es : list PolicyJSON.Edge) (a : N) : N → Prop :=
  | reach_here : reach es a a
  | reach_edge e :
      reach es a (PolicyJSON.src e) → e ∈ es → reach es a (PolicyJSON.dst e).

(** The entry that the first loop of [run] stores for a block. *)
Definition collected (BB : BasicBlock) : BBCallList :=
  {| calls := omap (λ inst, c ← lib_call inst; Some (inst, c)) (insts BB);
     entryNode := SIZE_MAX; exitNode := SIZE_MAX |}.

(** The call sites of a list of blocks with their callees, block by block. *)
Definition site_pairs (bs : list BasicBlock) : list (Instruction * Callee) :=
  concat ((λ BB, calls (collected BB)) <$> bs).

(** A graph with [n] nodes whose adjacency lists name existing edges. *)
Definition wf_graph (G : Graph) (n : nat) : Prop :=
  length (nodes G) = n ∧ length (adj G) = n
  ∧ ∀ s eids eid, adj G !! s = Some eids → eid ∈ eids →
                  (N.to_nat eid < length (edges G))%nat.

(** What the loops that add edges keep of a graph with [n] nodes. *)
Definition edges_keep (n : nat) (G G' : Graph) : Prop :=
  wf_graph G' n
  ∧ pretty <$> nodes G' = pretty <$> nodes G
  ∧ buckets G' = buckets G ∧ mod_ G' = mod_ G
  ∧ functionName G' = functionName G.

(** The call sites [cs] have their node among the [n] nodes. *)
Definition indexed (callNodeIndex : gmap N N) (n : nat)
    (cs : list (Instruction * Callee)) : Prop :=
  ∀ pr, pr ∈ cs → (N.to_nat (index_of callNodeIndex pr.1) < n)%nat.

(** State of the loop that assigns the identifiers after [k] call sites
    of the list [all] (the call sites in program order): the counters, the
    shape of the graph, and the identifiers of the nodes of the sites
    already met. *)
Definition assigned (o : Options) (callNodeIndex : gmap N N) (n : nat)
    (all : list Instruction) (G0 : Graph) (k : nat) (st : assign_state) : Prop :=
  uniqueIdCounter st = N.of_nat k
  ∧ dummyCounter st = N.of_nat k
  ∧ length (nodes (graph st)) = n
  ∧ adj (graph st) = adj G0 ∧ edges (graph st) = edges G0
  ∧ functionName (graph st) = functionName G0
  ∧ pretty <$> nodes (graph st) = pretty <$> nodes G0
  ∧ length (buckets (graph st)) = N.to_nat (HashMod o)
  ∧ mod_ (graph st) = HashMod o
  ∧ ∀ j s idx, (j < k)%nat → all !! j = Some s →
      callNodeIndex !! i_addr s = Some idx →
      ∃ nd, nodes (graph st) !! N.to_nat idx = Some nd
            ∧ dummyID nd = (Z.of_nat j mod Z.of_N (HashMod o))%Z
            ∧ uniqueID nd = (Z.of_nat j + 1)%Z.

(** The graph that [run] starts from for the function [F]. *)
Definition initial_graph (o : Options) (F : Function) : Graph :=
  initBuckets
    {| functionName := f_name F; nodes := []; edges := []; adj := [];
       buckets := []; bucketPool := []; mod_ := 200 |}
    (HashMod o).

(** The node of the [k]-th call site of [all], by the index
    [callNodeIndex]. *)
Definition node_of (callNodeIndex : gmap N N) (all : list Instruction)
    (k : nat) : nat :=
  match all !! k with
  | Some s => N.to_nat (index_of callNodeIndex s)
  | None => 0
  end.

(** The call sites of a function, in program order. *)
Definition call_sites (F : Function) : list Instruction :=
  List.filter (λ inst, bool_decide (is_Some (lib_call inst)))
              (concat (insts <$> f_blocks F)).

(** A block that calls [open], a successor without calls, and its
    successor that calls [close]; [a], [b] and [c] are the addresses of the
    three blocks. *)
Definition chain_function (a b c : N) : Function :=
  mkFunction "f" false
    [ mkBasicBlock a [call_at 100 "open"; other_at 101] [b];
      mkBasicBlock b [other_at 102] [c];
      mkBasicBlock c [call_at 103 "close"; other_at 104] [] ].

(** The function of the README: [open] in the entry block, [read] in the
    block of the conditional, [close] in the block where they join. *)
Definition readme_function (a b c : N) : Function :=
  mkFunction "foo" false
    [ mkBasicBlock a [call_at 100 "open"; other_at 101] [b; c];
      mkBasicBlock b [call_at 102 "read"; other_at 105] [c];
      mkBasicBlock c [call_at 103 "close"; other_at 104] [] ].

(** Three calls in one block. *)
Definition linear_function : Function :=
  mkFunction "lin" false
    [ mkBasicBlock 1
        [call_at 100 "open"; call_at 101 "read"; call_at 102 "close"] [] ].

(** A function without call sites. *)
Definition quiet_function : Function :=
  mkFunction "quiet" false [ mkBasicBlock 2 [other_at 200] [] ].

Definition dummy_mode : Options := mkOptions 200 "dummy".
Definition unique_mode : Options := mkOptions 200 "unique".

(** *** The text of the artifact *)

(** The text [x] occurs in the text [s]. *)
Definition occurs (x s : string) : Prop :=
  ∃ pre post, s = (pre ++ x ++ post)%string.

(** An array of identifiers as it stands in the artifact: the key, then
    the numbers in decimal between brackets, separated by commas. *)
Definition id_array (key : string) (ids : list Z) : string :=
  (Q ++ key ++ Q ++ ": [" ++ String.concat "," (show_Z <$> ids) ++ "]")%string.

(** An edge as it stands in the artifact: an object with the two
    endpoints, the label and the two match identifiers. *)
Definition edge_object (e : PolicyJSON.Edge) : string :=
  ("{" ++ Q ++ "src" ++ Q ++ ":" ++ show_N (PolicyJSON.src e)
   ++ "," ++ Q ++ "dst" ++ Q ++ ":" ++ show_N (PolicyJSON.dst e)
   ++ "," ++ Q ++ "label" ++ Q ++ ":" ++ Q ++ PolicyJSON.label e ++ Q
   ++ "," ++ Q ++ "matchDummy" ++ Q ++ ":" ++ show_Z (PolicyJSON.matchDummy e)
   ++ "," ++ Q ++ "matchUnique" ++ Q ++ ":" ++ show_Z (PolicyJSON.matchUnique e)
   ++ "}")%string.

(** A module of two functions and the artifact that the pass writes for
    it in unique mode. *)
Definition sample_module : list Function :=
  [linear_function; chain_function 3 2 1].

Definition sample_text : string :=
  Eval vm_compute in default EmptyString (run unique_mode sample_module).

End PassSpec.

(** ** Notions used to state the loader's properties *)

Module LoaderSpec.
Import Policy LibCallPass PassSpec Loader.

Local Open Scope nat_scope.

(** The text [s] without the white space that stands outside its string
    literals; [in_string] tells whether [s] starts inside a literal. *)
Fixpoint squeeze (in_string : bool) (s : string) : string :=
  match s with
  | EmptyString => EmptyString
  | String c s' =>
    if Ascii.eqb c dquote then String c (squeeze (negb in_string) s')
    else if negb in_string && isspace c then squeeze in_string s'
    else String c (squeeze in_string s')
  end.

(** Two artifacts that differ only in white space between their tokens. *)
Definition same_up_to_whitespace (a b : string) : Prop :=
  squeeze false a = squeeze false b.

(** [s] with [x] inserted at offset [k]. *)
Definition insert_at (k : nat) (x s : string) : string :=
  (take_str k s ++ x ++ skip k s)%string.

(** The artifact that the pass writes for a module of two functions: one
    with three call sites in a block, one without call sites. *)
Definition sample_artifact : string :=
  default EmptyString (run unique_mode [linear_function; quiet_function]).

(** The same artifact, with a space between the key of the first edges
    array and its colon. *)
Definition spaced_key_artifact : string :=
  insert_at (default 0 (find_sub (Q ++ "edges" ++ Q) sample_artifact) + 7)
            " " sample_artifact.

(** The same artifact, with two spaces inside the first empty array (the
    node labels of the function without call sites). *)
Definition spaced_array_artifact : string :=
  insert_at (default 0 (find_sub "[]" sample_artifact) + 1)
            "  " sample_artifact.

(** The artifact of a module with the single function [F]. *)
Definition single_artifact (o : Options) (F : Function) : string :=
  default EmptyString (run o [F]).

(** No double quote occurs in [s]. *)
Fixpoint quote_free (s : string) : bool :=
  match s with
  | EmptyString => true
  | String c s' => negb (Ascii.eqb c dquote) && quote_free s'
  end.

(** The names that the serializer prints between quotes are free of
    quotes (it does not escape them). *)
Definition plain_names (f : PolicyJSON.FuncPolicy) : Prop :=
  quote_free (PolicyJSON.functionName f) = true
  ∧ quote_free (PolicyJSON.idMode f) = true
  ∧ Forall (λ c, quote_free (PolicyJSON.name c) = true
                 ∧ quote_free (PolicyJSON.irLocation c) = true)
           (PolicyJSON.callsInOrder f)
  ∧ Forall (λ l, quote_free l = true) (PolicyJSON.nodeLabels f)
  ∧ Forall (λ e, quote_free (PolicyJSON.label e) = true) (PolicyJSON.edges f).

Fixpoint colon_free (s : string) : bool :=
  match s with
  | EmptyString => true
  | String c s' => negb (Ascii.eqb c ":") && colon_free s'
  end.

(** A scan of [s] for the four characters [a], [b], double quote, colon in
    a row.  [h3], [h2], [h1] are the three characters before [s], the
    nearest last; the result is [None] when the four characters are met,
    and otherwise the three characters that end the text. *)
Fixpoint scan (a b h3 h2 h1 : ascii) (s : string) : option (ascii * ascii * ascii) :=
  match s with
  | EmptyString => Some (h3, h2, h1)
  | String c s' =>
    if Ascii.eqb c ":"
       && (Ascii.eqb h1 dquote && (Ascii.eqb h2 b && Ascii.eqb h3 a))
    then None
    else scan a b h2 h1 c s'
  end.

(** [s] can follow any text without completing the four characters. *)
Definition safe (a b : ascii) (s : string) : Prop :=
  ∀ h3 h2 h1, is_Some (scan a b h3 h2 h1 s).

(** The four characters as a string. *)
Definition quad (a b : ascii) : string :=
  String a (String b (String dquote (String ":" EmptyString))).

Definition zero_char : ascii := Eval cbv in ascii_of_nat 0.

(** The keys that the loader looks for. *)
Definition edges_key : string := (Q ++ "edges" ++ Q ++ ":")%string.
Definition labels_key : string := (Q ++ "nodeLabels" ++ Q ++ ":")%string.

(** The artifact of one function, before and after the key of its edges
    array. *)
Definition before_edges (f : PolicyJSON.FuncPolicy) : string :=
  ("{" ++ NL ++ "  " ++ Q ++ "functions" ++ Q ++ ": [" ++ NL
   ++ "    {" ++ NL
   ++ "      " ++ Q ++ "functionName" ++ Q ++ ": "
   ++ Q ++ PolicyJSON.functionName f ++ Q ++ "," ++ NL
   ++ "      " ++ Q ++ "mod" ++ Q ++ ": " ++ show_N (PolicyJSON.mod_ f)
   ++ "," ++ NL
   ++ "      " ++ Q ++ "idMode" ++ Q ++ ": "
   ++ Q ++ PolicyJSON.idMode f ++ Q ++ "," ++ NL
   ++ "      " ++ Q ++ "callsInOrder" ++ Q ++ ": [" ++ NL
   ++ PolicyJSON.lines_of (PolicyJSON.show_site <$> PolicyJSON.callsInOrder f)
   ++ "      ]," ++ NL
   ++ "      " ++ Q ++ "nodeLabels" ++ Q ++ ": ["
   ++ PolicyJSON.sep_by "," ((λ l, Q ++ l ++ Q)%string <$> PolicyJSON.nodeLabels f)
   ++ "]," ++ NL
   ++ "      " ++ Q ++ "nodeDummyIDs" ++ Q ++ ": ["
   ++ PolicyJSON.sep_by "," (show_Z <$> PolicyJSON.nodeDummyIDs f) ++ "]," ++ NL
   ++ "      " ++ Q ++ "nodeUniqueIDs" ++ Q ++ ": ["
   ++ PolicyJSON.sep_by "," (show_Z <$> PolicyJSON.nodeUniqueIDs f) ++ "]," ++ NL
   ++ "      ")%string.

Definition after_edges (f : PolicyJSON.FuncPolicy) : string :=
  (" [" ++ NL
   ++ PolicyJSON.lines_of (PolicyJSON.show_edge <$> PolicyJSON.edges f)
   ++ "      ]" ++ NL ++ "    }" ++ NL ++ "  ]" ++ NL ++ "}" ++ NL)%string.

(** The policy that the pass computes for the function with three calls
    in one block. *)
Definition linear_policy_json : PolicyJSON.FuncPolicy :=
  Eval vm_compute in
    default (PolicyJSON.mkFuncPolicy "" [] 0 "" [] [] [] [])
            ((λ r, r.1.1) <$> run_function dummy_mode linear_function).

(** A command line and a world in which the file named holds the artifact
    of that policy alone. *)
Definition sample_argv : list string := ["-p"; "7"; "-j"; "policy.json"].

Definition sample_world : world :=
  {| files := λ _, Some (PolicyJSON.serialize [linear_policy_json]);
     calloc_ok := true; malloc_ok := true;
     device := Some (λ _, 0%Z) |}.

End LoaderSpec.

(** ** Notions used to state further properties of the engine *)

Module EngineMoreSpec.
Import Engine EngineSpec.

(** The markers [vs] observed one after the other, the scratch bitset
    being obtained each time. *)
Fixpoint advance_all (pp : proc_policy) (vs : list Z) : option proc_policy :=
  match vs with
  | [] => Some pp
  | v :: vs' => pp' ← advance_frontier true pp v; advance_all pp' vs'
  end.

(** The automaton of the edges [es] goes from node [i] to node [j] while
    it reads the word [w]: epsilon edges read nothing, the other edges read
    their [match_id]. *)
Inductive nfa_path (es : list edge) : N → list Z → N → Prop :=
  | path_end i : nfa_path es i [] i
  | path_eps e w j :
      e ∈ es → is_epsilon e ≠ 0 → nfa_path es (dst e) w j →
      nfa_path es (src e) w j
  | path_read e w j :
      e ∈ es → is_epsilon e = 0 → nfa_path es (dst e) w j →
      nfa_path es (src e) (match_id e :: w) j.

(** No two entries of the table have the same pid. *)
Definition one_per_pid (tbl : table) : Prop := NoDup (pid <$> tbl).

End EngineMoreSpec.

(** ** Notions used to state further properties of the extractor *)

Module PassMoreSpec.
Import Policy LibCallPass PassSpec.

(** The graph has an edge from node [s] to node [d] with the label [l]. *)
Definition has_edge (G : Graph) (s : nat) (d : N) (l : string) : Prop :=
  ∃ eids eid, adj G !! s = Some eids ∧ eid ∈ eids
              ∧ edges G !! N.to_nat eid = Some {| target := d; label := l |}.

(** The name of the function that a call site calls. *)
Definition site_name (inst : Instruction) : string :=
  from_option callee_name "" (lib_call inst).

(** The argument of the marker call of the [k]-th call site. *)
Definition marker_arg (o : Options) (k : nat) : Z :=
  if bool_decide (IdModeOpt o = "unique") then (Z.of_nat k + 1)%Z
  else (Z.of_nat k mod Z.of_N (HashMod o))%Z.

(** The entry of [callsInOrder] of the [k]-th call site. *)
Definition site_entry (o : Options) (k : nat) (inst : Instruction)
  : PolicyJSON.LibCallSite :=
  {| PolicyJSON.name := site_name inst;
     PolicyJSON.uniqueID :=
       if bool_decide (IdModeOpt o = "unique") then (Z.of_nat k + 1)%Z
       else (-1)%Z;
     PolicyJSON.dummyID := (Z.of_nat k mod Z.of_N (HashMod o))%Z;
     PolicyJSON.resetCount := (Z.of_nat k / Z.of_N (HashMod o))%Z;
     PolicyJSON.irLocation :=
       match debugLine inst with
       | Some l => "line " ++ show_N l
       | None => "unknown"
       end |}.

(** What [run_function] returns from the state [st] of the loop that
    assigns the identifiers and the exported edges [es]. *)
Definition policy_of (o : Options) (st : assign_state)
    (es : list PolicyJSON.Edge) : PolicyJSON.FuncPolicy :=
  {| PolicyJSON.functionName := functionName (graph st);
     PolicyJSON.callsInOrder := sites st;
     PolicyJSON.mod_ := HashMod o;
     PolicyJSON.idMode := IdModeOpt o;
     PolicyJSON.nodeLabels := pretty <$> nodes (graph st);
     PolicyJSON.nodeDummyIDs := dummyID <$> nodes (graph st);
     PolicyJSON.nodeUniqueIDs := uniqueID <$> nodes (graph st);
     PolicyJSON.edges := es |}.

(** The state in which the loop that assigns the identifiers starts. *)
Definition assign_start (G : Graph) : assign_state :=
  {| uniqueIdCounter := 0; dummyCounter := 0; graph := G;
     sites := []; markers := [] |}.

(** The blocks [bs] are in increasing order of their addresses. *)
Fixpoint by_address (bs : list BasicBlock) : Prop :=
  match bs with
  | [] => True
  | B :: bs' => Forall (λ B', bb_addr B < bb_addr B') bs' ∧ by_address bs'
  end.

(** The entry of a block in the map once the loop that adds the edges has
    visited it: [entryNode] and [exitNode] are the nodes of its first and
    of its last call site. *)
Definition visited (callNodeIndex : gmap N N) (B : BasicBlock) : BBCallList :=
  match calls (collected B), last (calls (collected B)) with
  | front :: _, Some back =>
    {| calls := calls (collected B);
       entryNode := index_of callNodeIndex front.1;
       exitNode := index_of callNodeIndex back.1 |}
  | _, _ => collected B
  end.

(** The entry of the block [B] in the map while the block [A] is visited:
    the blocks up to [A] in the order of the addresses have been visited. *)
Definition entry_at (callNodeIndex : gmap N N) (A B : BasicBlock) : BBCallList :=
  if decide (bb_addr B ≤ bb_addr A) then visited callNodeIndex B
  else collected B.

(** A module of two functions with a body and the declaration of a third. *)
Definition sample_module : list Function :=
  [ linear_function; mkFunction "ext" true []; quiet_function ].

End PassMoreSpec.

(** ** Notions used to state further properties of the loader *)

Module LoaderMoreSpec.
Import Policy Loader LoaderSpec.

Local Open Scope nat_scope.

(** The characters of a C string. *)
Definition chars (s : string) : list ascii := list_ascii_of_string s.

(** Number of characters [c] of [l] at the offsets [a .. b - 1]. *)
Definition occurrences (c : ascii) (l : list ascii) (a b : nat) : nat :=
  length (List.filter (λ x, Ascii.eqb x c) (take (b - a) (drop a l))).

(** Every character of [s] is white space. *)
Fixpoint blank (s : string) : bool :=
  match s with
  | EmptyString => true
  | String c s' => isspace c && blank s'
  end.

(** A world in which nothing fails and the device accepts every blob. *)
Definition willing_world (path json : string) : world :=
  {| files := λ p, if String.eqb p path then Some json else None;
     calloc_ok := true; malloc_ok := true;
     device := Some (λ _, 0%Z) |}.

(** Every character of [s] satisfies [P]. *)
Fixpoint all_chars (P : ascii → bool) (s : string) : bool :=
  match s with
  | EmptyString => true
  | String c s' => P c && all_chars P s'
  end.

(** The character [c] does not occur in [s]. *)
Definition lacks (c : ascii) (s : string) : bool :=
  all_chars (λ x, negb (Ascii.eqb x c)) s.

(** The value that [find_value] reads at [s], the text after the colon and
    the white space: a string up to its closing quote, or the text up to
    the next comma, bracket or brace. *)
Definition raw_value (s : string) : string :=
  match s with
  | String a r =>
    if Ascii.eqb a dquote then take_until (λ x, Ascii.eqb x dquote) r
    else take_until (λ x, Ascii.eqb x "," || Ascii.eqb x "]" || Ascii.eqb x "}") s
  | EmptyString => EmptyString
  end.

(** The [int] that [atoi] makes of the number [z] written in decimal:
    [strtol] keeps [z] within the range of a [long], and the conversion to
    [int] keeps its low 32 bits. *)
Definition c_int (z : Z) : Z := int_of_long (Z.max LONG_MIN (Z.min LONG_MAX z)).

(** The record that the parse loop fills for the edge [E] of the
    artifact. *)
Definition decoded (E : PolicyJSON.Edge) (id_mode : Z) : edge :=
  {| src := to_u32 (c_int (Z.of_N (PolicyJSON.src E)));
     dst := to_u32 (c_int (Z.of_N (PolicyJSON.dst E)));
     match_id := c_int (if (id_mode =? 0)%Z then PolicyJSON.matchDummy E
                        else PolicyJSON.matchUnique E);
     is_epsilon := if String.eqb (PolicyJSON.label E) epsilon_label
                   then 1%N else 0%N |}.

(** The edge [E] as a record of the blob, when its numbers fit the fields:
    endpoints below 2^32 and match identifiers in the range of an
    [int]. *)
Definition fits_record (E : PolicyJSON.Edge) : Prop :=
  (PolicyJSON.src E < 2 ^ 32)%N ∧ (PolicyJSON.dst E < 2 ^ 32)%N
  ∧ (- 2 ^ 31 ≤ PolicyJSON.matchDummy E < 2 ^ 31)%Z
  ∧ (- 2 ^ 31 ≤ PolicyJSON.matchUnique E < 2 ^ 31)%Z.

Definition written (E : PolicyJSON.Edge) (id_mode : Z) : edge :=
  {| src := PolicyJSON.src E;
     dst := PolicyJSON.dst E;
     match_id := if (id_mode =? 0)%Z then PolicyJSON.matchDummy E
                 else PolicyJSON.matchUnique E;
     is_epsilon := if String.eqb (PolicyJSON.label E) epsilon_label
                   then 1%N else 0%N |}.

(** The text of an edge object from its opening brace on: the numbers
    [n1], [n2], [z1], [z2], the label [lab], and the text [post] after the
    closing brace. *)
Definition edge_text (n1 n2 lab z1 z2 post : string) : string :=
  ("{" ++ Q ++ "src" ++ Q ++ ":" ++ n1
   ++ "," ++ Q ++ "dst" ++ Q ++ ":" ++ n2
   ++ "," ++ Q ++ "label" ++ Q ++ ":" ++ Q ++ lab ++ Q
   ++ "," ++ Q ++ "matchDummy" ++ Q ++ ":" ++ z1
   ++ "," ++ Q ++ "matchUnique" ++ Q ++ ":" ++ z2 ++ "}" ++ post)%string.

(** The fields of the edge [E] are written with fewer than 64 characters,
    so each fits the buffer of the parse loop. *)
Definition short_fields (E : PolicyJSON.Edge) : Prop :=
  String.length (show_N (PolicyJSON.src E)) < 64
  ∧ String.length (show_N (PolicyJSON.dst E)) < 64
  ∧ String.length (show_Z (PolicyJSON.matchDummy E)) < 64
  ∧ String.length (show_Z (PolicyJSON.matchUnique E)) < 64.

(** The value of the decimal number [d] read after the digits whose value
    is [acc]. *)
Fixpoint uint_acc (d : Decimal.uint) (acc : Z) : Z :=
  match d with
  | Decimal.Nil => acc
  | Decimal.D0 d => uint_acc d (10 * acc + 0)
  | Decimal.D1 d => uint_acc d (10 * acc + 1)
  | Decimal.D2 d => uint_acc d (10 * acc + 2)
  | Decimal.D3 d => uint_acc d (10 * acc + 3)
  | Decimal.D4 d => uint_acc d (10 * acc + 4)
  | Decimal.D5 d => uint_acc d (10 * acc + 5)
  | Decimal.D6 d => uint_acc d (10 * acc + 6)
  | Decimal.D7 d => uint_acc d (10 * acc + 7)
  | Decimal.D8 d => uint_acc d (10 * acc + 8)
  | Decimal.D9 d => uint_acc d (10 * acc + 9)
  end%Z.

(** A number as the serializer writes it: digits, after a minus sign when
    it is negative. *)
Definition number_text (s : string) : Prop :=
  ∃ c s', s = String c s'
          ∧ (isdigit c || Ascii.eqb c "-") = true
          ∧ all_chars isdigit s' = true.

End LoaderMoreSpec.

(** ** Strings and the texts that occur in them *)

Module StringFacts.
Import Policy PassSpec.

Local Open Scope nat_scope.
Local Open Scope string_scope.
Local Arguments String.append !_ _ / : simpl nomatch.

Lemma append_assoc (a b c : string) : (a ++ b) ++ c = a ++ (b ++ c).
Proof. induction a as [|x a IH]; simpl; [done|]. by rewrite IH. Qed.

Lemma append_nil_r (a : string) : a ++ "" = a.
Proof. induction a as [|x a IH]; simpl; [done|]. by rewrite IH. Qed.

Lemma append_length (a b : string) :
  String.length (a ++ b) = String.length a + String.length b.
Proof. induction a as [|x a IH]; simpl; [done|]. by rewrite IH. Qed.

Lemma occurs_refl x : occurs x x.
Proof. exists "", "". simpl. by rewrite append_nil_r. Qed.

Lemma occurs_skip a x s : occurs x s → occurs x (a ++ s).
Proof. intros (pre & post & ->). exists (a ++ pre), post. by rewrite append_assoc. Qed.

Lemma occurs_keep x s b : occurs x s → occurs x (s ++ b).
Proof.
  intros (pre & post & ->). exists pre, (post ++ b). by rewrite !append_assoc.
Qed.

Lemma occurs_trans x y z : occurs x y → occurs y z → occurs x z.
Proof. intros Hxy (pre & post & ->). by apply occurs_skip, occurs_keep. Qed.

Lemma occurs_lines_of x items : x ∈ items → occurs x (PolicyJSON.lines_of items).
Proof.
  induction items as [|y items IH]; intros Hin; [by apply elem_of_nil in Hin|].
  apply elem_of_cons in Hin as [->|Hin].
  - destruct items; simpl; apply occurs_keep, occurs_refl.
  - destruct items as [|z items]; [by apply elem_of_nil in Hin|].
    change (PolicyJSON.lines_of (y :: z :: items))
      with (y ++ "," ++ NL ++ PolicyJSON.lines_of (z :: items)).
    do 3 apply occurs_skip. by apply IH.
Qed.

Lemma sep_by_concat sep items :
  PolicyJSON.sep_by sep items = String.concat sep items.
Proof.
  induction items as [|x [|y items] IH]; [done..|].
  change (PolicyJSON.sep_by sep (x :: y :: items))
    with (x ++ sep ++ PolicyJSON.sep_by sep (y :: items)).
  by rewrite IH.
Qed.

(** The array of identifiers under [key], where the serializer writes
    it. *)
Lemma occurs_id_array key ids tail :
  occurs (id_array key ids)
         (Q ++ key ++ Q ++ ": [" ++ PolicyJSON.sep_by "," (show_Z <$> ids)
            ++ "]" ++ tail).
Proof.
  exists "", tail. unfold id_array. rewrite sep_by_concat.
  repeat (progress (rewrite ?append_assoc; simpl)). reflexivity.
Qed.

Lemma occurs_edge_object e : occurs (edge_object e) (PolicyJSON.show_edge e).
Proof.
  exists "        ", "". unfold PolicyJSON.show_edge, edge_object.
  by rewrite append_nil_r.
Qed.

(** Search for the place of a text in a text built by appending. *)
Ltac peel tac := first [ tac | apply occurs_skip; peel tac ].

(** The function object holds the two arrays of identifiers and the
    object of each edge. *)
Lemma show_function_dummy_ids f :
  occurs (id_array "nodeDummyIDs" (PolicyJSON.nodeDummyIDs f))
         (PolicyJSON.show_function f).
Proof.
  unfold PolicyJSON.show_function.
  peel ltac:(apply (occurs_id_array "nodeDummyIDs")).
Qed.

Lemma show_function_unique_ids f :
  occurs (id_array "nodeUniqueIDs" (PolicyJSON.nodeUniqueIDs f))
         (PolicyJSON.show_function f).
Proof.
  unfold PolicyJSON.show_function.
  peel ltac:(apply (occurs_id_array "nodeUniqueIDs")).
Qed.

Lemma show_function_edge f e :
  e ∈ PolicyJSON.edges f → occurs (edge_object e) (PolicyJSON.show_function f).
Proof.
  intros He. unfold PolicyJSON.show_function.
  peel ltac:(apply occurs_keep;
             apply (occurs_trans _ (PolicyJSON.show_edge e));
             [apply occurs_edge_object|];
             apply occurs_lines_of, list_elem_of_fmap_2; exact He).
Qed.

Lemma serialize_function f fs :
  f ∈ fs → occurs (PolicyJSON.show_function f) (PolicyJSON.serialize fs).
Proof.
  intros Hf. unfold PolicyJSON.serialize.
  peel ltac:(apply occurs_keep;
             apply occurs_lines_of, list_elem_of_fmap_2; exact Hf).
Qed.

End StringFacts.

(** ** Properties of the enforcement engine *)

Module EngineFacts.
Import Engine EngineSpec.

(** *** Bits of a word array *)

Lemma word_index_split (i j : N) :
  i = j ↔ i / BITS_PER_LONG = j / BITS_PER_LONG
          ∧ i mod BITS_PER_LONG = j mod BITS_PER_LONG.
Proof.
  unfold BITS_PER_LONG. split; [by intros ->|]. intros [Hd Hm].
  rewrite (N.div_mod i 64), (N.div_mod j 64) by lia. by rewrite Hd, Hm.
Qed.

Lemma set_bit_length nr bm bm' :
  __set_bit nr bm = Some bm' → length bm' = length bm.
Proof.
  unfold __set_bit. intros H. destruct (bm !! _); simplify_eq/=.
  by rewrite length_insert.
Qed.

Lemma set_bit_defined nr bm :
  (N.to_nat (nr / BITS_PER_LONG) < length bm)%nat → is_Some (__set_bit nr bm).
Proof.
  intros H. unfold __set_bit. destruct (lookup_lt_is_Some_2 _ _ H) as [w ->].
  by eexists.
Qed.

Lemma test_bit_defined nr bm :
  (N.to_nat (nr / BITS_PER_LONG) < length bm)%nat → is_Some (test_bit nr bm).
Proof.
  intros H. unfold test_bit. destruct (lookup_lt_is_Some_2 _ _ H) as [w ->].
  by eexists.
Qed.

(** Reading back after [__set_bit]: the bit set is on, the others keep
    their value. *)
Lemma test_bit_set nr bm bm' j :
  __set_bit nr bm = Some bm' →
  test_bit j bm' = (λ b, (nr =? j) || b) <$> test_bit j bm.
Proof.
  unfold __set_bit, test_bit. intros H.
  destruct (bm !! N.to_nat (nr / BITS_PER_LONG)) as [w|] eqn:Hw; simplify_eq/=.
  destruct (decide (nr / BITS_PER_LONG = j / BITS_PER_LONG)) as [Hd|Hd].
  - rewrite <- Hd. rewrite list_lookup_insert_eq by (by eapply lookup_lt_Some).
    rewrite Hw. simpl. f_equal.
    rewrite N.lor_spec, N.shiftl_1_l, N.pow2_bits_eqb.
    destruct (N.eqb_spec (nr mod BITS_PER_LONG) (j mod BITS_PER_LONG)) as [Hm|Hm].
    + assert (nr = j) as -> by (by apply word_index_split).
      by rewrite N.eqb_refl, orb_true_r.
    + destruct (N.eqb_spec nr j) as [->|_]; [done|]. by rewrite orb_false_r.
  - rewrite list_lookup_insert_ne by lia.
    destruct (bm !! N.to_nat (j / BITS_PER_LONG)) as [w'|]; [|done]. simpl.
    destruct (N.eqb_spec nr j) as [->|_]; done.
Qed.

Lemma test_bit_zeroed j n : test_bit j (zeroed n) ≠ Some true.
Proof.
  unfold test_bit, zeroed. intros H.
  destruct (replicate _ _ !! _) as [w|] eqn:Hw; simplify_eq/=.
  apply lookup_replicate in Hw as [-> _]. by rewrite N.bits_0 in H.
Qed.

(** *** Counting with boolean filters *)

Lemma filter_length_le {A} (p q : A → bool) (l : list A) :
  (∀ x, In x l → q x = true → p x = true) →
  (length (List.filter q l) ≤ length (List.filter p l))%nat.
Proof.
  induction l as [|a l IH]; intros H; simpl; [lia|].
  assert (length (List.filter q l) ≤ length (List.filter p l))%nat as IH'
    by (apply IH; intros; apply H; [by right|done]).
  destruct (q a) eqn:Hq.
  - rewrite (H a (or_introl eq_refl) Hq). simpl. lia.
  - destruct (p a); simpl; lia.
Qed.

Lemma filter_length_lt {A} (p q : A → bool) (l : list A) (a : A) :
  (∀ x, In x l → q x = true → p x = true) →
  In a l → p a = true → q a = false →
  (length (List.filter q l) < length (List.filter p l))%nat.
Proof.
  induction l as [|b l IH]; intros H Hin Hp Hq; simpl; [done|].
  assert (∀ x, In x l → q x = true → p x = true) as H'
    by (intros; apply H; [by right|done]).
  pose proof (filter_length_le p q l H') as Hle.
  destruct Hin as [->|Hin].
  - rewrite Hp, Hq. simpl. lia.
  - specialize (IH H' Hin Hp Hq).
    destruct (q b) eqn:Hqb.
    + rewrite (H b (or_introl eq_refl) Hqb). simpl. lia.
    + destruct (p b); simpl; lia.
Qed.

(** *** Frontier operations *)

Lemma frontier_set_test f idx f' j :
  frontier_set f idx = Some f' →
  frontier_test f' j = (λ b, (idx =? j) || b) <$> frontier_test f j.
Proof.
  unfold frontier_set, frontier_test. intros H.
  destruct (fr_bitmap f) as [bm|]; simplify_eq/=.
  destruct (__set_bit idx bm) as [bm'|] eqn:Hs; simplify_eq/=.
  by apply test_bit_set.
Qed.

Lemma frontier_set_shape f idx f' :
  frontier_set f idx = Some f' →
  fr_num_nodes f' = fr_num_nodes f ∧ capacity f' = capacity f
  ∧ (wf_frontier f → wf_frontier f').
Proof.
  unfold frontier_set, capacity, wf_frontier. intros H.
  destruct (fr_bitmap f) as [bm|]; simplify_eq/=.
  destruct (__set_bit idx bm) as [bm'|] eqn:Hs; simplify_eq/=.
  apply set_bit_length in Hs. rewrite Hs. split_and!; [done..|].
  intros (bm0 & ? & ?); simplify_eq. exists bm'. split; [done|congruence].
Qed.

Lemma frontier_set_active f idx f' j :
  frontier_set f idx = Some f' → active f j → active f' j.
Proof.
  unfold active. intros H Hj. rewrite (frontier_set_test _ _ _ _ H), Hj.
  simpl. by rewrite orb_true_r.
Qed.

Lemma frontier_set_active_iff f idx f' j :
  frontier_set f idx = Some f' → active f' j ↔ idx = j ∨ active f j.
Proof.
  intros H. split; [|intros [<-|Hj]].
  - unfold active. rewrite (frontier_set_test _ _ _ _ H).
    destruct (frontier_test f j) as [b|] eqn:Hj; simpl; [|done].
    intros [= Hb]. apply orb_true_iff in Hb as [Hb| ->]; [|by right].
    left. by apply N.eqb_eq.
  - unfold active. rewrite (frontier_set_test _ _ _ _ H).
    assert (is_Some (frontier_test f idx)) as [b Hb].
    { unfold frontier_set, frontier_test, __set_bit, test_bit in *.
      destruct (fr_bitmap f); simplify_eq/=.
      destruct (_ !! _); simplify_eq/=. by eexists. }
    rewrite Hb. simpl. by rewrite N.eqb_refl.
  - by eapply frontier_set_active.
Qed.

Lemma frontier_test_capacity f i b :
  frontier_test f i = Some b → (N.to_nat i < capacity f)%nat.
Proof.
  unfold frontier_test, test_bit, capacity, BITS_PER_LONG.
  destruct (fr_bitmap f) as [bm|]; simpl; [|done].
  destruct (bm !! _) eqn:Hw; simpl; [|done]. intros _.
  apply lookup_lt_Some in Hw.
  pose proof (N.Div0.mul_div_le i 64).
  assert (i / 64 < N.of_nat (length bm)) by lia.
  pose proof (N.mod_lt i 64). pose proof (N.div_mod i 64). lia.
Qed.

Lemma frontier_test_defined f i :
  wf_frontier f → i < fr_num_nodes f → is_Some (frontier_test f i).
Proof.
  intros (bm & Hbm & Hlen) Hi. unfold frontier_test. rewrite Hbm. simpl.
  apply test_bit_defined. rewrite Hlen. unfold BITS_TO_LONGS, BITS_PER_LONG.
  assert (i / 64 < (fr_num_nodes f + 64 - 1) / 64); [|lia].
  apply N.Div0.div_lt_upper_bound.
  pose proof (N.div_mod (fr_num_nodes f + 64 - 1) 64).
  pose proof (N.mod_lt (fr_num_nodes f + 64 - 1) 64). lia.
Qed.

Lemma frontier_set_defined f i :
  is_Some (frontier_test f i) → is_Some (frontier_set f i).
Proof.
  unfold frontier_test, frontier_set, test_bit, __set_bit.
  destruct (fr_bitmap f) as [bm|]; simpl; [|by intros [? ?]].
  destruct (bm !! _); simpl; [by eexists|by intros [? ?]].
Qed.

(** Setting a bit never raises the variant, and lowers it when the bit was
    clear. *)
Lemma clear_bits_set_le f idx f' :
  frontier_set f idx = Some f' → (clear_bits f' ≤ clear_bits f)%nat.
Proof.
  intros H. unfold clear_bits.
  destruct (frontier_set_shape _ _ _ H) as (_ & -> & _).
  apply filter_length_le. intros x _.
  rewrite (frontier_set_test _ _ _ _ H).
  destruct (frontier_test f (N.of_nat x)) as [b|]; simpl; [|done].
  destruct (idx =? N.of_nat x), b; done.
Qed.

Lemma clear_bits_set_lt f idx f' :
  frontier_set f idx = Some f' → frontier_test f idx = Some false →
  (clear_bits f' < clear_bits f)%nat.
Proof.
  intros H Hc. unfold clear_bits.
  destruct (frontier_set_shape _ _ _ H) as (_ & -> & _).
  apply filter_length_lt with (a := N.to_nat idx).
  - intros x _. rewrite (frontier_set_test _ _ _ _ H).
    destruct (frontier_test f (N.of_nat x)) as [b|]; simpl; [|done].
    destruct (idx =? N.of_nat x), b; done.
  - apply in_seq. apply frontier_test_capacity in Hc. lia.
  - rewrite N2Nat.id, Hc. done.
  - rewrite N2Nat.id, (frontier_set_test _ _ _ _ H), Hc. simpl.
    by rewrite N.eqb_refl.
Qed.

Lemma clear_bits_capacity f : (clear_bits f ≤ capacity f)%nat.
Proof.
  unfold clear_bits.
  etrans; [apply List.filter_length_le|]. by rewrite length_seq.
Qed.

(** *** Epsilon paths *)

Lemma eps_path_trans es i j k :
  eps_path es i j → eps_path es j k → eps_path es i k.
Proof.
  intros Hij Hjk. induction Hjk as [|e _ IH Hin Heps]; [done|].
  by apply eps_next.
Qed.

Lemma eps_closed_path es f i j :
  eps_closed es f → active f i → eps_path es i j → active f j.
Proof.
  intros Hcl Hi Hp. induction Hp as [|e _ IH Hin Heps]; [done|].
  by apply Hcl.
Qed.

(** *** One pass of the closure loop *)

Lemma closure_pass_inv es : ∀ f c f' c',
  closure_pass es f c = Some (f', c') →
  fr_num_nodes f' = fr_num_nodes f ∧ capacity f' = capacity f
  ∧ (wf_frontier f → wf_frontier f')
  ∧ (∀ j, active f j → active f' j)
  ∧ (clear_bits f' ≤ clear_bits f)%nat
  ∧ (c' = false → f' = f ∧ c = false)
  ∧ (c = false → c' = true → (clear_bits f' < clear_bits f)%nat).
Proof.
  induction es as [|e es IH]; intros f c f' c' H; simpl in H.
  { simplify_eq. split_and!; try done. intros -> [=]. }
  destruct (is_epsilon e =? 0); [by apply IH|].
  destruct (frontier_test f (src e)) as [[]|] eqn:Hs; simplify_eq/=;
    [|by apply IH].
  destruct (frontier_test f (dst e)) as [[]|] eqn:Hd; simplify_eq/=;
    [by apply IH|].
  destruct (frontier_set f (dst e)) as [f1|] eqn:Hset; simplify_eq/=.
  destruct (IH _ _ _ _ H) as (Hn & Hcap & Hwf & Hact & Hle & Hfalse & _).
  destruct (frontier_set_shape _ _ _ Hset) as (Hn1 & Hcap1 & Hwf1).
  pose proof (clear_bits_set_lt _ _ _ Hset Hd).
  split_and!; try congruence; try lia.
  - tauto.
  - intros j Hj. apply Hact. by eapply frontier_set_active.
  - intros ->. by destruct Hfalse.
Qed.

Lemma closure_pass_closed es : ∀ f c f',
  closure_pass es f c = Some (f', false) → eps_closed es f.
Proof.
  induction es as [|e es IH]; intros f c f' H e0 Hin Heps Hsrc; simpl in H.
  { by apply elem_of_nil in Hin. }
  apply elem_of_cons in Hin as [->|Hin].
  - apply N.eqb_neq in Heps. rewrite Heps in H.
    unfold active in Hsrc. rewrite Hsrc in H. simpl in H.
    destruct (frontier_test f (dst e)) as [[]|] eqn:Hd; simplify_eq/=; [done|].
    destruct (frontier_set f (dst e)) as [f1|]; simplify_eq/=.
    by destruct (closure_pass_inv _ _ _ _ _ H) as (_&_&_&_&_&[_ ?]&_).
  - destruct (is_epsilon e =? 0); [by eapply IH|].
    destruct (frontier_test f (src e)) as [[]|]; simplify_eq/=; [|by eapply IH].
    destruct (frontier_test f (dst e)) as [[]|]; simplify_eq/=; [by eapply IH|].
    destruct (frontier_set f (dst e)) as [f1|]; simplify_eq/=.
    by destruct (closure_pass_inv _ _ _ _ _ H) as (_&_&_&_&_&[_ ?]&_).
Qed.

(** Whatever a pass adds is reached along epsilon edges from a node that
    was active before it. *)
Lemma closure_pass_sound all es : ∀ f c f' c',
  es ⊆ all → closure_pass es f c = Some (f', c') →
  ∀ j, active f' j → ∃ i, active f i ∧ eps_path all i j.
Proof.
  induction es as [|e es IH]; intros f c f' c' Hsub H j Hj; simpl in H.
  { simplify_eq. exists j. split; [done|constructor]. }
  assert (es ⊆ all) as Hsub' by set_solver.
  destruct (is_epsilon e =? 0) eqn:Heps; [by eapply IH|].
  destruct (frontier_test f (src e)) as [[]|] eqn:Hs; simplify_eq/=;
    [|by eapply IH].
  destruct (frontier_test f (dst e)) as [[]|] eqn:Hd; simplify_eq/=;
    [by eapply IH|].
  destruct (frontier_set f (dst e)) as [f1|] eqn:Hset; simplify_eq/=.
  destruct (IH _ _ _ _ Hsub' H j Hj) as (i & Hi & Hpath).
  apply (frontier_set_active_iff _ _ _ _ Hset) in Hi as [<-|Hi].
  - exists (src e). split; [done|].
    eapply eps_path_trans; [|done]. apply eps_next; [constructor|set_solver|].
    by apply N.eqb_neq.
  - by exists i.
Qed.

Lemma closure_pass_defined es : ∀ f c,
  wf_frontier f → in_range (fr_num_nodes f) es →
  is_Some (closure_pass es f c).
Proof.
  induction es as [|e es IH]; intros f c Hwf Hr; simpl; [by eexists|].
  apply Forall_cons in Hr as [[Hs Hd] Hr].
  destruct (is_epsilon e =? 0); [by apply IH|].
  destruct (frontier_test_defined f (src e) Hwf Hs) as [s ->]. simpl.
  destruct s; [|by apply IH].
  pose proof (frontier_test_defined f (dst e) Hwf Hd) as Hd'.
  destruct (frontier_set_defined _ _ Hd') as [f1 Hset].
  destruct Hd' as [d ->]. simpl. destruct d; [by apply IH|].
  rewrite Hset. simpl.
  destruct (frontier_set_shape _ _ _ Hset) as (Hn & _ & Hwf1).
  apply IH; [tauto|by rewrite Hn].
Qed.

(** *** The closure loop *)

(** The loop ends: a pass that reports a change lowers [clear_bits]. *)
Lemma closure_loop_total fuel : ∀ es f,
  (clear_bits f < fuel)%nat → is_Some (closure_loop fuel es f).
Proof.
  induction fuel as [|fuel IH]; intros es f Hlt; [lia|]. simpl.
  destruct (closure_pass es f false) as [[f' []]|] eqn:Hp; [|by eexists..].
  apply IH.
  destruct (closure_pass_inv _ _ _ _ _ Hp) as (_&_&_&_&_&_&Hlt').
  specialize (Hlt' eq_refl eq_refl). lia.
Qed.

(** More fuel does not change the outcome. *)
Lemma closure_loop_fuel fuel : ∀ fuel' es f r,
  closure_loop fuel es f = Some r → (fuel ≤ fuel')%nat →
  closure_loop fuel' es f = Some r.
Proof.
  induction fuel as [|fuel IH]; intros fuel' es f r H Hle; [done|].
  destruct fuel' as [|fuel']; [lia|]. simpl in *.
  destruct (closure_pass es f false) as [[f' []]|]; [|done..].
  apply IH; [done|lia].
Qed.

Lemma epsilon_closure_fr_total es f :
  ∃ r, closure_loop (S (capacity f)) es f = Some r ∧ epsilon_closure_fr es f = r.
Proof.
  destruct (closure_loop_total (S (capacity f)) es f) as [r Hr].
  { pose proof (clear_bits_capacity f). lia. }
  exists r. split; [done|]. unfold epsilon_closure_fr. by rewrite Hr.
Qed.

Lemma closure_loop_inv fuel : ∀ es f f',
  closure_loop fuel es f = Some (Some f') →
  fr_num_nodes f' = fr_num_nodes f ∧ capacity f' = capacity f
  ∧ (wf_frontier f → wf_frontier f')
  ∧ (∀ j, active f j → active f' j)
  ∧ (∀ j, active f' j → ∃ i, active f i ∧ eps_path es i j)
  ∧ closure_pass es f' false = Some (f', false).
Proof.
  induction fuel as [|fuel IH]; intros es f f' H; [done|]. simpl in H.
  destruct (closure_pass es f false) as [[f1 []]|] eqn:Hp; simplify_eq/=.
  - destruct (closure_pass_inv _ _ _ _ _ Hp) as (Hn & Hcap & Hwf & Hact & _).
    destruct (IH _ _ _ H) as (Hn' & Hcap' & Hwf' & Hact' & Hsnd' & Hfix).
    split_and!; try congruence; try tauto; [by auto|].
    intros j Hj. destruct (Hsnd' j Hj) as (k & Hk & Hkj).
    destruct (closure_pass_sound es es _ _ _ _ (reflexivity _) Hp k Hk)
      as (i & Hi & Hik).
    exists i. split; [done|]. by eapply eps_path_trans.
  - destruct (closure_pass_inv _ _ _ _ _ Hp) as (_&_&_&_&_&Hsame&_).
    destruct (Hsame eq_refl) as [-> _].
    split_and!; try done. intros j Hj. exists j. split; [done|constructor].
Qed.

Lemma closure_loop_defined fuel : ∀ es f r,
  wf_frontier f → in_range (fr_num_nodes f) es →
  closure_loop fuel es f = Some r → is_Some r.
Proof.
  induction fuel as [|fuel IH]; intros es f r Hwf Hr H; [done|]. simpl in H.
  destruct (closure_pass_defined es f false Hwf Hr) as [[f1 c] Hp].
  rewrite Hp in H. destruct c; simplify_eq/=; [|by eexists].
  destruct (closure_pass_inv _ _ _ _ _ Hp) as (Hn & _ & Hwf1 & _).
  eapply IH; [..|done]; [tauto|by rewrite Hn].
Qed.

(** A frontier that one pass leaves alone is its own closure. *)
Lemma epsilon_closure_fr_fixed es f :
  closure_pass es f false = Some (f, false) → epsilon_closure_fr es f = Some f.
Proof. intros H. unfold epsilon_closure_fr. simpl. by rewrite H. Qed.

Lemma epsilon_closure_fr_inv es f f' :
  epsilon_closure_fr es f = Some f' →
  fr_num_nodes f' = fr_num_nodes f ∧ capacity f' = capacity f
  ∧ (wf_frontier f → wf_frontier f')
  ∧ (∀ j, active f' j ↔ ∃ i, active f i ∧ eps_path es i j)
  ∧ eps_closed es f'
  ∧ epsilon_closure_fr es f' = Some f'.
Proof.
  intros H. destruct (epsilon_closure_fr_total es f) as (r & Hr & Heq).
  rewrite H in Heq. subst r.
  destruct (closure_loop_inv _ _ _ _ Hr) as (Hn & Hcap & Hwf & Hact & Hsnd & Hfix).
  pose proof (closure_pass_closed _ _ _ _ Hfix) as Hcl.
  split_and!; try done; [|by apply epsilon_closure_fr_fixed].
  intros j. split; [by apply Hsnd|].
  intros (i & Hi & Hp). eapply eps_closed_path; [done| |done]. by apply Hact.
Qed.

Lemma epsilon_closure_fr_defined es f :
  wf_frontier f → in_range (fr_num_nodes f) es →
  is_Some (epsilon_closure_fr es f).
Proof.
  intros Hwf Hr. destruct (epsilon_closure_fr_total es f) as (r & Hr' & <-).
  by eapply closure_loop_defined.
Qed.

(** C9.  Over a graph whose edges join valid nodes, [epsilon_closure]
    returns, the frontier it returns contains the one it was given
    (F is a subset of closure(F)), and running it again changes nothing
    (closure(closure(F)) = closure(F)). *)
Theorem epsilon_closure_operator (pp : proc_policy) :
  wf_frontier (fr pp) → in_range (fr_num_nodes (fr pp)) (edges pp) →
  ∃ pp', epsilon_closure pp = Some pp'
         ∧ (∀ i, active (fr pp) i → active (fr pp') i)
         ∧ epsilon_closure pp' = Some pp'.
Proof.
  intros Hwf Hr.
  destruct (epsilon_closure_fr_defined _ _ Hwf Hr) as [f' Hf'].
  exists (set_fr pp f'). unfold epsilon_closure. rewrite Hf'. simpl.
  destruct (epsilon_closure_fr_inv _ _ _ Hf') as (_ & _ & _ & Hact & _ & Hfix).
  split_and!; [done| |].
  - intros i Hi. apply Hact. exists i. split; [done|constructor].
  - rewrite Hfix. done.
Qed.

(** *** Advancing on an observed marker *)

Lemma test_bit_set_true nr bm bm' j :
  __set_bit nr bm = Some bm' →
  test_bit j bm' = Some true ↔ nr = j ∨ test_bit j bm = Some true.
Proof.
  intros H. rewrite (test_bit_set _ _ _ _ H). split.
  - destruct (test_bit j bm) as [b|]; simpl; [|done]. intros [= Hb].
    apply orb_true_iff in Hb as [Hb| ->]; [|by right]. left. by apply N.eqb_eq.
  - intros [<-|Hj].
    + assert (is_Some (test_bit nr bm)) as [b ->].
      { unfold __set_bit, test_bit in *. destruct (_ !! _); simplify_eq/=.
        by eexists. }
      simpl. by rewrite N.eqb_refl.
    + rewrite Hj. simpl. by rewrite orb_true_r.
Qed.

Lemma move_pass_inv es : ∀ f v next next',
  move_pass es f v next = Some next' →
  length next' = length next
  ∧ ∀ j, test_bit j next' = Some true ↔
         test_bit j next = Some true ∨ ∃ e, e ∈ es ∧ fires f v e ∧ dst e = j.
Proof.
  induction es as [|e es IH]; intros f v next next' H; simpl in H.
  { simplify_eq. split; [done|]. intros j. split; [by left|].
    intros [?|(e & He & _)]; [done|]. by apply elem_of_nil in He. }
  assert (∀ P : edge → Prop, ¬ P e →
            (∃ e0, e0 ∈ e :: es ∧ P e0) ↔ (∃ e0, e0 ∈ es ∧ P e0)) as Hskip.
  { intros P HP. split; intros (e0 & Hin & HP0); exists e0.
    - apply elem_of_cons in Hin as [->|Hin]; done.
    - split; [by right|done]. }
  unfold fires in *.
  destruct (N.eqb_spec (is_epsilon e) 0) as [Heps|Heps]; simpl in H.
  2:{ destruct (IH _ _ _ _ H) as [Hlen Hbits]. split; [done|]. intros j.
      rewrite Hbits. rewrite (Hskip (λ e0, _ ∧ dst e0 = j)); [done|tauto]. }
  destruct (Z.eqb_spec (match_id e) v) as [Hm|Hm]; simpl in H.
  2:{ destruct (IH _ _ _ _ H) as [Hlen Hbits]. split; [done|]. intros j.
      rewrite Hbits. rewrite (Hskip (λ e0, _ ∧ dst e0 = j)); [done|tauto]. }
  destruct (frontier_test f (src e)) as [[]|] eqn:Hs; simplify_eq/=.
  2:{ destruct (IH _ _ _ _ H) as [Hlen Hbits]. split; [done|]. intros j.
      rewrite Hbits. rewrite (Hskip (λ e0, _ ∧ dst e0 = j)); [done|].
      unfold active. rewrite Hs. intros [(_ & _ & [=]) _]. }
  destruct (__set_bit (dst e) next) as [next1|] eqn:Hset; simplify_eq/=.
  destruct (IH _ _ _ _ H) as [Hlen Hbits].
  split; [by rewrite Hlen; eapply set_bit_length|]. intros j.
  rewrite Hbits, (test_bit_set_true _ _ _ _ Hset). split.
  - intros [[Hj|Hj]|(e0 & He0 & Hf & Hd)]; [|by left|].
    + right. exists e. split; [by left|done].
    + right. exists e0. split; [by right|done].
  - intros [Hj|(e0 & He0 & Hf & Hd)]; [by left; right|].
    apply elem_of_cons in He0 as [->|He0]; [by left; left|].
    right. by exists e0.
Qed.

Lemma move_pass_defined es : ∀ f v next,
  wf_frontier f → in_range (fr_num_nodes f) es →
  length next = N.to_nat (BITS_TO_LONGS (fr_num_nodes f)) →
  is_Some (move_pass es f v next).
Proof.
  induction es as [|e es IH]; intros f v next Hwf Hr Hlen; simpl;
    [by eexists|].
  apply Forall_cons in Hr as [[Hs Hd] Hr].
  destruct (negb (is_epsilon e =? 0)); [by apply IH|].
  destruct (negb (match_id e =? v)%Z); [by apply IH|].
  destruct (frontier_test_defined f (src e) Hwf Hs) as [s ->]. simpl.
  destruct s; [|by apply IH].
  assert (is_Some (__set_bit (dst e) next)) as [next1 Hset].
  { apply set_bit_defined.
    pose proof (frontier_test_defined f (dst e) Hwf Hd) as [b Hb].
    destruct Hwf as (bm & Hbm & Hbl).
    unfold frontier_test, test_bit in Hb. rewrite Hbm in Hb. simpl in Hb.
    destruct (bm !! _) eqn:Hw; [|done]. apply lookup_lt_Some in Hw. lia. }
  rewrite Hset. simpl. apply IH; [done..|].
  by rewrite (set_bit_length _ _ _ Hset).
Qed.

(** Nothing fires: [next] stays as it was allocated. *)
Lemma move_pass_idle es : ∀ f v next next',
  (∀ e, e ∈ es → ¬ fires f v e) →
  move_pass es f v next = Some next' → next' = next.
Proof.
  induction es as [|e es IH]; intros f v next next' Hno H; simpl in H;
    [by simplify_eq|].
  assert (∀ e0, e0 ∈ es → ¬ fires f v e0) as Hno' by (intros; apply Hno; by right).
  destruct (N.eqb_spec (is_epsilon e) 0) as [Heps|Heps]; simpl in H;
    [|by eapply IH].
  destruct (Z.eqb_spec (match_id e) v) as [Hm|Hm]; simpl in H; [|by eapply IH].
  destruct (frontier_test f (src e)) as [[]|] eqn:Hs; simplify_eq/=;
    [|by eapply IH].
  destruct (Hno e); [by left|done].
Qed.

(** With no active node, a closure pass has nothing to do. *)
Lemma closure_pass_idle es : ∀ f c f' c',
  (∀ j, ¬ active f j) → closure_pass es f c = Some (f', c') → f' = f ∧ c' = c.
Proof.
  induction es as [|e es IH]; intros f c f' c' Hno H; simpl in H;
    [by simplify_eq|].
  destruct (is_epsilon e =? 0); [by eapply IH|].
  destruct (frontier_test f (src e)) as [[]|] eqn:Hs; simplify_eq/=;
    [|by eapply IH].
  by destruct (Hno (src e)).
Qed.

Lemma words_zero_zeroed n : ∀ i k,
  (i + k ≤ N.to_nat n)%nat → words_zero (zeroed n) i k = Some true.
Proof.
  intros i k. revert i. induction k as [|k IH]; intros i Hle; [done|].
  simpl. assert (zeroed n !! i = Some 0) as ->.
  { unfold zeroed. apply lookup_replicate_2. lia. }
  simpl. apply IH. lia.
Qed.

Lemma memcpy_words_same_length bm next :
  length next = length bm → memcpy_words bm next = Some next.
Proof.
  intros Hlen. unfold memcpy_words. rewrite decide_True by lia.
  rewrite drop_ge by lia. by rewrite app_nil_r.
Qed.

Lemma zeroed_length n : length (zeroed n) = N.to_nat n.
Proof. unfold zeroed. by rewrite length_replicate. Qed.

Lemma words_zero_defined bm : ∀ n i,
  (i + n ≤ length bm)%nat → is_Some (words_zero bm i n).
Proof.
  induction n as [|n IH]; intros i Hle; simpl; [by eexists|].
  destruct (lookup_lt_is_Some_2 bm i) as [w ->]; [lia|]. simpl.
  destruct (negb (w =? 0)); [by eexists|]. apply IH. lia.
Qed.

Lemma frontier_empty_defined f : wf_frontier f → is_Some (frontier_empty f).
Proof.
  intros (bm & Hbm & Hlen). unfold frontier_empty. rewrite Hbm. simpl.
  apply words_zero_defined. lia.
Qed.

(** The step proper: what [advance_frontier] does when the scratch bitset
    is obtained. *)
Lemma advance_frontier_spec (pp : proc_policy) (v : Z) :
  wf_policy pp →
  ∃ moved pp',
    advance_frontier true pp v = Some pp'
    ∧ wf_policy pp'
    ∧ (∀ j, active moved j ↔
            ∃ e, e ∈ edges pp ∧ fires (fr pp) v e ∧ dst e = j)
    ∧ epsilon_closure (set_fr pp moved) = Some pp'
    ∧ (∀ j, active (fr pp') j ↔
            ∃ i, active moved i ∧ eps_path (edges pp) i j)
    ∧ eps_closed (edges pp) (fr pp')
    ∧ ((∀ e, e ∈ edges pp → ¬ fires (fr pp) v e) →
       frontier_empty (fr pp') = Some true).
Proof.
  intros (Hn & Hwf & Hr). pose proof Hr as Hr0. rewrite <- Hn in Hr.
  set (n := fr_num_nodes (fr pp)) in *.
  destruct (move_pass_defined (edges pp) (fr pp) v (zeroed (BITS_TO_LONGS n))
              Hwf Hr (zeroed_length _)) as [next Hnext].
  destruct (move_pass_inv _ _ _ _ _ Hnext) as [Hlen Hbits].
  rewrite zeroed_length in Hlen.
  pose proof Hwf as (bm & Hbm & Hbl).
  set (moved := {| fr_num_nodes := n; fr_bitmap := Some next |}).
  assert (wf_frontier moved) as Hwfm by (by exists next).
  destruct (epsilon_closure_fr_defined (edges pp) moved Hwfm Hr) as [f' Hf'].
  destruct (epsilon_closure_fr_inv _ _ _ Hf')
    as (Hn' & _ & Hwf' & Hact & Hclosed & _).
  assert (advance_frontier true pp v = Some (set_fr pp f')) as Hadv.
  { unfold advance_frontier. simpl. fold n. rewrite Hnext, Hbm. simpl.
    rewrite memcpy_words_same_length by (by rewrite Hlen, Hbl). simpl.
    unfold epsilon_closure. simpl. fold moved. by rewrite Hf'. }
  exists moved, (set_fr pp f'). split_and!; [done| | | |done|done|].
  - split_and!; simpl; [by rewrite Hn'|tauto|done].
  - intros j. unfold active at 1, frontier_test. simpl. rewrite Hbits.
    split; [|by right].
    intros [Hz|?]; [|done]. by apply test_bit_zeroed in Hz.
  - unfold epsilon_closure. simpl. by rewrite Hf'.
  - intros Hno. pose proof (move_pass_idle _ _ _ _ _ Hno Hnext) as ->.
    assert (∀ j, ¬ active moved j) as Hidle.
    { intros j Hj. by apply test_bit_zeroed in Hj. }
    destruct (epsilon_closure_fr_total (edges pp) moved) as (r & Hloop & Hr').
    rewrite Hf' in Hr'. subst r. simpl in Hloop.
    destruct (closure_pass (edges pp) moved false) as [[f1 c1]|] eqn:Hp;
      [|done].
    destruct (closure_pass_idle _ _ _ _ _ Hidle Hp) as [-> ->].
    simplify_eq. unfold frontier_empty. simpl.
    apply words_zero_zeroed. lia.
Qed.

(** *** The entry of a pid in the table *)

Lemma lookup_ppid_pid tbl p pp : lookup_ppid tbl p = Some pp → pid pp = p.
Proof.
  unfold lookup_ppid. intros H. apply find_some in H as [_ H].
  by apply N.eqb_eq in H.
Qed.

Lemma lookup_tbl_store_eq tbl pp pp' :
  lookup_ppid tbl (pid pp') = Some pp →
  lookup_ppid (tbl_store tbl pp') (pid pp') = Some pp'.
Proof.
  unfold lookup_ppid. induction tbl as [|x tbl IH]; simpl; [done|].
  destruct (N.eqb_spec (pid x) (pid pp')) as [Hp|Hp]; simpl.
  - by rewrite N.eqb_refl.
  - intros H. destruct (N.eqb_spec (pid x) (pid pp')); [done|by apply IH].
Qed.

(** A step changes the frontier only. *)
Lemma advance_frontier_fields ok pp v pp' :
  advance_frontier ok pp v = Some pp' →
  pid pp' = pid pp ∧ num_nodes pp' = num_nodes pp
  ∧ num_edges pp' = num_edges pp ∧ id_mode pp' = id_mode pp
  ∧ edges pp' = edges pp.
Proof.
  unfold advance_frontier, epsilon_closure. destruct ok; simpl; intros H.
  - by simplify_option_eq.
  - by simplify_eq.
Qed.


(** *** The start set computed by a load request *)

Lemma bump_iter_small k : N.of_nat k < 2 ^ 32 → Nat.iter k bump 0 = N.of_nat k.
Proof.
  induction k as [|k IH]; intros Hk; [done|].
  simpl. rewrite IH by lia. unfold bump. rewrite N.mod_small; lia.
Qed.

Lemma bump_iter_comm k c : Nat.iter k bump (bump c) = bump (Nat.iter k bump c).
Proof. induction k as [|k IH]; simpl; [done|]. by rewrite IH. Qed.

Lemma indegree_le es n : (indegree es n ≤ length es)%nat.
Proof. unfold indegree. apply List.filter_length_le. Qed.

Lemma count_indeg_inv es : ∀ indeg indeg',
  count_indeg es indeg = Some indeg' →
  length indeg' = length indeg
  ∧ ∀ n c, indeg !! N.to_nat n = Some c →
           indeg' !! N.to_nat n = Some (Nat.iter (indegree es n) bump c).
Proof.
  induction es as [|e es IH]; intros indeg indeg' H; simpl in H.
  { by simplify_eq. }
  unfold indegree. simpl.
  destruct (N.eqb_spec (is_epsilon e) 0) as [Heps|Heps]; simpl in *;
    [|by apply IH].
  destruct (indeg !! N.to_nat (dst e)) as [c0|] eqn:Hc0; simplify_eq/=.
  destruct (IH _ _ H) as [Hlen Hcnt]. rewrite length_insert in Hlen.
  split; [done|]. intros n c Hc.
  destruct (N.eqb_spec (dst e) n) as [Heq|Hne]; simpl.
  - rewrite Heq in *. simplify_eq. rewrite <- bump_iter_comm. apply Hcnt.
    rewrite list_lookup_insert_eq by (by eapply lookup_lt_Some). done.
  - apply Hcnt. rewrite list_lookup_insert_ne by lia. done.
Qed.

Lemma count_indeg_defined es : ∀ indeg n,
  in_range n es → length indeg = N.to_nat n → is_Some (count_indeg es indeg).
Proof.
  induction es as [|e es IH]; intros indeg n Hr Hlen; simpl; [by eexists|].
  apply Forall_cons in Hr as [[_ Hd] Hr].
  destruct (negb (is_epsilon e =? 0)); [by eapply IH|].
  destruct (lookup_lt_is_Some_2 indeg (N.to_nat (dst e))) as [c ->]; [lia|].
  simpl. eapply IH; [done|]. by rewrite length_insert.
Qed.

Lemma start_loop_inv indeg todo : ∀ n f f',
  start_loop indeg n todo f = Some f' →
  fr_num_nodes f' = fr_num_nodes f
  ∧ (wf_frontier f → wf_frontier f')
  ∧ ∀ j, active f' j ↔
         active f j
         ∨ (n ≤ j < n + N.of_nat todo ∧ indeg !! N.to_nat j = Some 0).
Proof.
  induction todo as [|todo IH]; intros n f f' H; simpl in H.
  { simplify_eq. split_and!; [done..|]. intros j. split; [by left|].
    intros [?|[? _]]; [done|lia]. }
  destruct (indeg !! N.to_nat n) as [c|] eqn:Hc; simplify_eq/=.
  destruct (N.eqb_spec c 0) as [->|Hne].
  - destruct (frontier_set f n) as [f1|] eqn:Hset; simplify_eq/=.
    destruct (IH _ _ _ H) as (Hn & Hwf & Hact).
    destruct (frontier_set_shape _ _ _ Hset) as (Hn1 & _ & Hwf1).
    split_and!; [congruence|tauto|]. intros j.
    rewrite Hact, (frontier_set_active_iff _ _ _ _ Hset). split.
    + intros [[<-|?]|[? ?]]; [right|by left|right]; split; (lia || done).
    + intros [?|[? Hj]]; [by left; right|].
      destruct (decide (n = j)) as [->|]; [by left; left|].
      right. split; [lia|done].
  - destruct (IH _ _ _ H) as (Hn & Hwf & Hact).
    split_and!; [done..|]. intros j. rewrite Hact. split.
    + intros [?|[? ?]]; [by left|right]. split; (lia || done).
    + intros [?|[? Hj]]; [by left|].
      destruct (decide (n = j)) as [->|]; [congruence|].
      right. split; [lia|done].
Qed.

Lemma start_loop_defined indeg todo : ∀ n f,
  wf_frontier f → n + N.of_nat todo ≤ fr_num_nodes f →
  (N.to_nat (fr_num_nodes f) ≤ length indeg)%nat →
  is_Some (start_loop indeg n todo f).
Proof.
  induction todo as [|todo IH]; intros n f Hwf Hle Hlen; simpl; [by eexists|].
  destruct (lookup_lt_is_Some_2 indeg (N.to_nat n)) as [c ->]; [lia|]. simpl.
  destruct (c =? 0); [|apply IH; (done || lia)].
  destruct (frontier_set_defined f n) as [f1 Hset].
  { apply frontier_test_defined; [done|lia]. }
  rewrite Hset. simpl.
  destruct (frontier_set_shape _ _ _ Hset) as (Hn1 & _ & Hwf1).
  apply IH; [tauto|rewrite Hn1; lia|by rewrite Hn1].
Qed.

Lemma frontier_init_wf n : wf_frontier (frontier_init true n).
Proof. eexists. split; [done|]. apply zeroed_length. Qed.

Lemma frontier_init_idle n j : ¬ active (frontier_init true n) j.
Proof. unfold active, frontier_test. simpl. apply test_bit_zeroed. Qed.

(** The start set before closure, as a set of nodes. *)
Lemma init_start_set_inv (ok : bool) hdr es f :
  b_num_nodes hdr ≠ 0 → N.of_nat (length es) ≤ 2 ^ 20 →
  in_range (b_num_nodes hdr) es →
  f = frontier_init true (b_num_nodes hdr) →
  ∃ start, init_start_set ok hdr es f = Some start
    ∧ fr_num_nodes start = b_num_nodes hdr ∧ wf_frontier start
    ∧ ∀ n, active start n ↔
           if ok then n < b_num_nodes hdr ∧ indegree es n = 0%nat else n = 0.
Proof.
  intros Hnz Hcap Hr ->. set (nn := b_num_nodes hdr) in *.
  pose proof (frontier_init_wf nn) as Hwf.
  unfold init_start_set. fold nn. destruct ok.
  - destruct (count_indeg_defined es (zeroed nn) nn Hr (zeroed_length _))
      as [indeg Hind].
    rewrite Hind. simpl.
    destruct (count_indeg_inv _ _ _ Hind) as [Hlen Hcnt].
    rewrite zeroed_length in Hlen.
    destruct (start_loop_defined indeg (N.to_nat nn) 0 (frontier_init true nn))
      as [start Hstart]; [done|simpl; lia|simpl; lia|].
    destruct (start_loop_inv _ _ _ _ _ Hstart) as (Hn & Hwf' & Hact).
    exists start. split_and!; [done|done|tauto|]. intros n. rewrite Hact.
    assert (∀ n, n < nn →
              indeg !! N.to_nat n = Some (N.of_nat (indegree es n))) as Hval.
    { intros m Hm. rewrite (Hcnt m 0).
      - rewrite bump_iter_small; [done|].
        pose proof (indegree_le es m). lia.
      - unfold zeroed. apply lookup_replicate_2. lia. }
    split.
    + intros [Hin|[Hlt Hz]]; [by apply frontier_init_idle in Hin|].
      split; [lia|]. rewrite Hval in Hz by lia. simplify_eq. lia.
    + intros [Hlt Hz]. right. split; [lia|]. rewrite Hval by done.
      by rewrite Hz.
  - destruct (frontier_set_defined (frontier_init true nn) 0) as [start Hset].
    { apply frontier_test_defined; [done|simpl; lia]. }
    rewrite Hset. destruct (frontier_set_shape _ _ _ Hset) as (Hn & _ & Hwf').
    exists start. split_and!; [done|done|tauto|]. intros n.
    rewrite (frontier_set_active_iff _ _ _ _ Hset). split.
    + intros [?|Hin]; [done|]. by apply frontier_init_idle in Hin.
    + intros ->. by left.
Qed.

(** C4 (amended).  A load request that passes the checks, whose edges join
    valid nodes and whose policy and bitmap are allocated, succeeds; the
    start set holds exactly the nodes of non-epsilon in-degree zero when
    the in-degree table was allocated, and node 0 alone when it was not;
    the installed frontier is the epsilon closure of that start set. *)
Theorem install_start_set (a : install_allocs) (ub : user_blob) (tbl : table) :
  let hdr := u_hdr ub in
  let es := take (N.to_nat (b_num_edges hdr)) (u_edges ub) in
  b_num_nodes hdr ≠ 0 → b_num_edges hdr ≤ 2 ^ 20 →
  (N.to_nat (b_num_edges hdr) ≤ length (u_edges ub))%nat →
  in_range (b_num_nodes hdr) es →
  edges_ok a = true → pp_ok a = true → bitmap_ok a = true →
  ∃ start pp tbl',
    sandbox_ioctl a IOCTL_LOAD_POLICY (Some ub) tbl = Some (pp :: tbl', Success)
    ∧ pid pp = b_pid hdr ∧ edges pp = es ∧ wf_policy pp
    ∧ (∀ n, active start n ↔
            if indeg_ok a then n < b_num_nodes hdr ∧ indegree es n = 0%nat
            else n = 0)
    ∧ epsilon_closure_fr es start = Some (fr pp)
    ∧ (∀ j, active (fr pp) j ↔ ∃ i, active start i ∧ eps_path es i j).
Proof.
  intros hdr es Hnz Hcap Hlen Hr He Hp Hb.
  assert (N.of_nat (length es) ≤ 2 ^ 20) as Hcap'.
  { unfold es. rewrite length_take. lia. }
  destruct (init_start_set_inv (indeg_ok a) hdr es _ Hnz Hcap' Hr eq_refl)
    as (start & Hstart & Hn & Hwf & Hact).
  pose proof Hr as Hr0. rewrite <- Hn in Hr.
  destruct (epsilon_closure_fr_defined es start Hwf Hr) as [f' Hf'].
  destruct (epsilon_closure_fr_inv _ _ _ Hf') as (Hn' & _ & Hwf' & Hcl & _ & _).
  exists start,
    (set_fr {| pid := b_pid hdr; num_nodes := b_num_nodes hdr;
               num_edges := b_num_edges hdr; id_mode := b_id_mode hdr;
               edges := es;
               fr := frontier_init true (b_num_nodes hdr) |} f'),
    (match lookup_ppid tbl (b_pid hdr) with
     | Some _ => hash_del tbl (b_pid hdr)
     | None => tbl
     end).
  split_and!; [|done|done| |done..].
  2:{ split_and!; simpl; [congruence|tauto|done]. }
  unfold sandbox_ioctl. rewrite N.eqb_refl. fold hdr.
  apply N.eqb_neq in Hnz. rewrite Hnz.
  assert ((2 ^ 20 <? b_num_edges hdr) = false) as -> by (apply N.ltb_ge; lia).
  simpl. rewrite He, Hp, Hb. simpl.
  rewrite decide_False by lia. fold es. simpl.
  rewrite Hstart. simpl. unfold epsilon_closure. simpl. rewrite Hf'.
  reflexivity.
Qed.

(** *** The engine on sample inputs *)

Example linear_install :
  sandbox_ioctl all_allocated IOCTL_LOAD_POLICY (Some (linear_request 7)) []
  = Some ([linear_policy 7], Success).
Proof. reflexivity. Qed.

Example linear_run :
  ∃ t1 t2 t3,
    handler_pre true 0 7 [linear_policy 7] = Some (t1, false)
    ∧ handler_pre true 1 7 t1 = Some (t2, false)
    ∧ handler_pre true 2 7 t2 = Some (t3, true).
Proof. by eexists _, _, _. Qed.

Example branch_closure :
  epsilon_closure branch_policy
  = Some (set_fr branch_policy {| fr_num_nodes := 3; fr_bitmap := Some [7] |}).
Proof. reflexivity. Qed.


Lemma epsilon_closure_operator_witness :
  wf_frontier (fr branch_policy)
  ∧ in_range (fr_num_nodes (fr branch_policy)) (edges branch_policy)
  ∧ ∃ pp', epsilon_closure branch_policy = Some pp'
           ∧ (∀ i, active (fr branch_policy) i → active (fr pp') i)
           ∧ epsilon_closure pp' = Some pp'.
Proof.
  assert (wf_frontier (fr branch_policy)) as Hwf by (by exists [1]).
  assert (in_range (fr_num_nodes (fr branch_policy)) (edges branch_policy))
    as Hr by (repeat constructor).
  split_and!; [exact Hwf|exact Hr|].
  exact (epsilon_closure_operator branch_policy Hwf Hr).
Defined.

Lemma install_start_set_witness :
  ∃ start pp tbl',
    sandbox_ioctl all_allocated IOCTL_LOAD_POLICY (Some (linear_request 7)) []
    = Some (pp :: tbl', Success)
    ∧ pid pp = 7 ∧ edges pp = linear_edges ∧ wf_policy pp
    ∧ (∀ n, active start n ↔ n < 3 ∧ indegree linear_edges n = 0%nat)
    ∧ epsilon_closure_fr linear_edges start = Some (fr pp)
    ∧ (∀ j, active (fr pp) j ↔ ∃ i, active start i ∧ eps_path linear_edges i j).
Proof.
  apply (install_start_set all_allocated (linear_request 7) []);
    [done|by vm_compute|simpl; lia|repeat constructor|reflexivity..].
Defined.

(** C4, as stated, fails: on a cycle of consuming edges no node has
    non-epsilon in-degree zero, the in-degree table is allocated, and the
    load succeeds with node 0 clear (the frontier is empty). *)
Lemma install_no_fallback_when_no_source :
  (∀ n, n < 2 → indegree cycle_edges n ≠ 0%nat)
  ∧ ∃ pp,
      sandbox_ioctl all_allocated IOCTL_LOAD_POLICY (Some cycle_request) []
      = Some ([pp], Success)
      ∧ frontier_test (fr pp) 0 = Some false
      ∧ frontier_empty (fr pp) = Some true.
Proof.
  split.
  - intros n Hn. assert (n = 0 ∨ n = 1) as [-> | ->] by lia; by vm_compute.
  - by eexists.
Qed.


(** C2.  The endpoints of the edges are not checked: a request with one
    node and an epsilon edge from node 0 to index 5 is accepted, and the
    policy is installed with bit 5 of the frontier set. *)
Lemma install_accepts_stray_endpoint :
  ¬ in_range (b_num_nodes (u_hdr stray_request)) (u_edges stray_request)
  ∧ ∃ pp,
      sandbox_ioctl all_allocated IOCTL_LOAD_POLICY (Some stray_request) []
      = Some ([pp], Success)
      ∧ edges pp = u_edges stray_request
      ∧ frontier_test (fr pp) 5 = Some true.
Proof.
  split.
  - intros H. apply Forall_cons in H as [[_ H] _]. simpl in H. lia.
  - by eexists.
Qed.

(** No request whose header passes the two checks is refused as invalid,
    whatever its edges are. *)
Lemma install_no_endpoint_check a ub tbl tbl' :
  b_num_nodes (u_hdr ub) ≠ 0 → b_num_edges (u_hdr ub) ≤ 2 ^ 20 →
  sandbox_ioctl a IOCTL_LOAD_POLICY (Some ub) tbl ≠ Some (tbl', Failure EINVAL).
Proof.
  intros Hnz Hcap. unfold sandbox_ioctl. rewrite N.eqb_refl.
  apply N.eqb_neq in Hnz. rewrite Hnz.
  assert ((2 ^ 20 <? b_num_edges (u_hdr ub)) = false) as ->
    by (apply N.ltb_ge; lia).
  simpl. destruct (negb (edges_ok a)); [done|].
  case_decide; [done|]. destruct (negb (pp_ok a)); [done|].
  destruct (init_start_set _ _ _ _); simpl; [|done].
  destruct (epsilon_closure _); simpl; done.
Qed.

(** The two header checks that the code does make. *)
Lemma install_header_checks a ub tbl :
  b_num_nodes (u_hdr ub) = 0 ∨ 2 ^ 20 < b_num_edges (u_hdr ub) →
  sandbox_ioctl a IOCTL_LOAD_POLICY (Some ub) tbl = Some (tbl, Failure EINVAL).
Proof.
  intros H. unfold sandbox_ioctl. rewrite N.eqb_refl.
  destruct H as [-> | H]; [done|]. apply N.ltb_lt in H. rewrite H.
  by rewrite orb_true_r.
Qed.

(** C3.  When the allocation of the new [proc_policy] fails, the entry of
    the pid has already been unlinked and freed: the request returns
    [-ENOMEM] and the pid is left without a policy. *)
Lemma install_failure_drops_old_policy :
  lookup_ppid [branch_policy] 7 = Some branch_policy
  ∧ sandbox_ioctl
      {| edges_ok := true; pp_ok := false; bitmap_ok := true; indeg_ok := true |}
      IOCTL_LOAD_POLICY (Some (linear_request 7)) [branch_policy]
    = Some ([], Failure ENOMEM)
  ∧ ∀ ok v, handler_pre ok v 7 [] = Some ([], false).
Proof. split_and!; done. Qed.

(** In general: a request that reaches the allocation of the new
    [proc_policy] and finds it failing returns [-ENOMEM] with the entry
    of the pid gone. *)
Lemma install_pp_alloc_failure a ub tbl pp :
  b_num_nodes (u_hdr ub) ≠ 0 → b_num_edges (u_hdr ub) ≤ 2 ^ 20 →
  (N.to_nat (b_num_edges (u_hdr ub)) ≤ length (u_edges ub))%nat →
  edges_ok a = true → pp_ok a = false →
  lookup_ppid tbl (b_pid (u_hdr ub)) = Some pp →
  sandbox_ioctl a IOCTL_LOAD_POLICY (Some ub) tbl
  = Some (hash_del tbl (b_pid (u_hdr ub)), Failure ENOMEM).
Proof.
  intros Hnz Hcap Hlen He Hp Hlook. unfold sandbox_ioctl. rewrite N.eqb_refl.
  apply N.eqb_neq in Hnz. rewrite Hnz.
  assert ((2 ^ 20 <? b_num_edges (u_hdr ub)) = false) as ->
    by (apply N.ltb_ge; lia).
  simpl. rewrite He, Hp, Hlook. simpl. by rewrite decide_False by lia.
Qed.

(** The failure of the first allocation, in contrast, leaves the table
    as it was. *)
Lemma install_edges_alloc_failure a ub tbl :
  b_num_nodes (u_hdr ub) ≠ 0 → b_num_edges (u_hdr ub) ≤ 2 ^ 20 →
  edges_ok a = false →
  sandbox_ioctl a IOCTL_LOAD_POLICY (Some ub) tbl = Some (tbl, Failure ENOMEM).
Proof.
  intros Hnz Hcap He. unfold sandbox_ioctl. rewrite N.eqb_refl.
  apply N.eqb_neq in Hnz. rewrite Hnz.
  assert ((2 ^ 20 <? b_num_edges (u_hdr ub)) = false) as ->
    by (apply N.ltb_ge; lia).
  by rewrite He.
Qed.

(** When the scratch bitset cannot be allocated the step is skipped. *)
Lemma advance_frontier_alloc_failure pp v : advance_frontier false pp v = Some pp.
Proof. reflexivity. Qed.

(** C6.  [advance_frontier] allocates its scratch bitset from the heap and
    returns without advancing when that fails: the marker 99, which no
    edge of the linear policy carries, kills the process when the
    allocation succeeds and goes unnoticed when it fails. *)
Lemma observe_depends_on_allocation :
  (∃ t, handler_pre true 99 7 [linear_policy 7] = Some (t, true))
  ∧ handler_pre false 99 7 [linear_policy 7] = Some ([linear_policy 7], false).
Proof. split; [by eexists|done]. Qed.

End EngineFacts.

(** ** Properties of the extractor *)

Module PassFacts.
Import Policy LibCallPass PassSpec StringFacts.

Lemma reach_no_edges a b : reach [] a b → a = b.
Proof.
  intros H. induction H as [|e _ _ Hin]; [done|]. by apply elem_of_nil in Hin.
Qed.

(** C5.  The block of [open] reaches the block of [close] through a block
    without calls, yet the graph extracted has no edge at all, whichever
    of the two blocks has the lower address: the node of [close] is not
    reached from the node of [open]. *)
Lemma chain_loses_reachability :
  (∃ fp G ms,
     run_function dummy_mode (chain_function 1 2 3) = Some (fp, G, ms)
     ∧ PolicyJSON.nodeLabels fp = ["open"; "close"]
     ∧ PolicyJSON.edges fp = []
     ∧ ¬ reach (PolicyJSON.edges fp) 0 1)
  ∧ (∃ fp G ms,
       run_function dummy_mode (chain_function 3 2 1) = Some (fp, G, ms)
       ∧ PolicyJSON.nodeLabels fp = ["close"; "open"]
       ∧ PolicyJSON.edges fp = []
       ∧ ¬ reach (PolicyJSON.edges fp) 1 0).
Proof.
  split; eexists _, _, _; (split; [by vm_compute|]);
    (split_and!; [done..|]); simpl; intros H; by apply reach_no_edges in H.
Qed.

(** The epsilon edge to a successor takes the successor's [entryNode] from
    the map; a successor with a higher address has not been visited yet and
    its [entryNode] is still [SIZE_MAX]. *)
Example successor_entry_not_yet_set :
  ∃ fp G ms,
    run_function dummy_mode (readme_function 1 2 3) = Some (fp, G, ms)
    ∧ PolicyJSON.edges fp
      = [ PolicyJSON.mkEdge 0 SIZE_MAX epsilon_label (-1) (-1);
          PolicyJSON.mkEdge 0 SIZE_MAX epsilon_label (-1) (-1);
          PolicyJSON.mkEdge 1 SIZE_MAX epsilon_label (-1) (-1) ].
Proof. eexists _, _, _. split; by vm_compute. Qed.

(** *** The map of the blocks *)

Lemma bbMap_store_perm m BB lst :
  bb_addr BB ∉ (λ kv, bb_addr kv.1) <$> m →
  bbMap_store m BB lst ≡ₚ (BB, lst) :: m.
Proof.
  induction m as [|[B' l'] m IH]; intros Hnot; simpl; [done|].
  rewrite fmap_cons, not_elem_of_cons in Hnot. destruct Hnot as [Hne Hnot].
  simpl in Hne. destruct (bb_addr BB <? bb_addr B'); [done|].
  destruct (N.eqb_spec (bb_addr BB) (bb_addr B')) as [?|_]; [done|].
  rewrite IH by done. apply Permutation_swap.
Qed.

Lemma collect_calls_perm_aux bs : ∀ m,
  NoDup ((bb_addr <$> bs) ++ ((λ kv, bb_addr kv.1) <$> m)) →
  foldl (λ m BB, bbMap_store m BB (collected BB)) m bs
  ≡ₚ ((λ BB, (BB, collected BB)) <$> bs) ++ m.
Proof.
  induction bs as [|BB bs IH]; intros m Hnd; simpl; [done|].
  simpl in Hnd. apply NoDup_cons in Hnd as [Hnot Hnd].
  rewrite not_elem_of_app in Hnot. destruct Hnot as [Hnot1 Hnot2].
  pose proof (bbMap_store_perm m BB (collected BB) Hnot2) as Hp.
  rewrite IH.
  - rewrite Hp. by rewrite Permutation_middle.
  - rewrite Hp. simpl. rewrite <- Permutation_middle.
    apply NoDup_cons. split; [|done]. by rewrite not_elem_of_app.
Qed.

Lemma collect_calls_perm F :
  NoDup (bb_addr <$> f_blocks F) →
  collect_calls F ≡ₚ (λ BB, (BB, collected BB)) <$> f_blocks F.
Proof.
  intros Hnd. unfold collect_calls.
  rewrite (collect_calls_perm_aux (f_blocks F) []); [by rewrite app_nil_r|].
  by rewrite app_nil_r.
Qed.

Lemma site_pairs_sites bs :
  (site_pairs bs).*1
  = List.filter (λ inst, bool_decide (is_Some (lib_call inst)))
                (concat (insts <$> bs)).
Proof.
  unfold site_pairs. induction bs as [|BB bs IH]; [done|].
  rewrite !fmap_cons. cbn [concat].
  rewrite fmap_app, List.filter_app, IH. f_equal.
  clear. unfold collected. cbn [calls].
  induction (insts BB) as [|inst l IH]; [done|]. simpl.
  destruct (lib_call inst) as [c|]; simpl; [f_equal|]; exact IH.
Qed.

(** The call sites in the order of the map are those of the program, in
    another order. *)
Lemma collect_calls_sites F :
  NoDup (bb_addr <$> f_blocks F) →
  (concat ((λ kv, calls kv.2) <$> collect_calls F)).*1 ≡ₚ call_sites F.
Proof.
  intros Hnd. unfold call_sites. rewrite <- site_pairs_sites.
  unfold site_pairs. rewrite (collect_calls_perm F Hnd).
  by rewrite <- list_fmap_compose.
Qed.

(** *** The nodes and the index of the call sites *)

Lemma foldl_concat {A B C} (f : A → B → A) (g : C → list B) (l : list C) :
  ∀ a, foldl (λ st x, foldl f st (g x)) a l = foldl f a (concat (g <$> l)).
Proof.
  induction l as [|x l IH]; intros a; [done|].
  rewrite fmap_cons. cbn [concat foldl]. by rewrite foldl_app, IH.
Qed.

Lemma add_nodes_flat m G :
  add_nodes m G = foldl node_step (G, ∅) (concat ((λ kv, calls kv.2) <$> m)).
Proof.
  exact (foldl_concat node_step (λ kv, calls kv.2) m (G, ∅)).
Qed.

Lemma node_step_inv cs : ∀ G cni G' cni',
  foldl node_step (G, cni) cs = (G', cni') →
  nodes G' = nodes G ++ ((λ pr, new_node (callee_name pr.2)) <$> cs)
  ∧ adj G' = adj G ++ replicate (length cs) []
  ∧ edges G' = edges G ∧ buckets G' = buckets G
  ∧ functionName G' = functionName G ∧ mod_ G' = mod_ G
  ∧ (∀ a, a ∉ (λ pr, i_addr pr.1) <$> cs → cni' !! a = cni !! a)
  ∧ (NoDup ((λ pr, i_addr pr.1) <$> cs) →
     ∀ j pr, cs !! j = Some pr →
             cni' !! i_addr pr.1 = Some (N.of_nat (length (nodes G) + j))).
Proof.
  induction cs as [|c cs IH]; intros G cni G' cni' H.
  { simpl in H. simplify_eq. rewrite !app_nil_r. split_and!; try done. }
  cbn [foldl] in H. unfold node_step at 2 in H. simpl in H.
  destruct (IH _ _ _ _ H) as (Hn & Ha & He & Hb & Hf & Hm & Hout & Hin).
  simpl in *. rewrite length_app in Hin. simpl in Hin.
  split_and!.
  - by rewrite Hn, <- app_assoc.
  - by rewrite Ha, <- app_assoc.
  - done.
  - done.
  - done.
  - done.
  - intros a Ha'. rewrite not_elem_of_cons in Ha'. destruct Ha' as [Hne Ha'].
    rewrite (Hout a Ha'). by rewrite lookup_insert_ne.
  - intros Hnd j pr Hj. apply NoDup_cons in Hnd as [Hnot Hnd].
    destruct j as [|j]; simpl in Hj.
    + simplify_eq. rewrite (Hout _ Hnot), lookup_insert_eq. f_equal. lia.
    + rewrite (Hin Hnd j pr Hj). f_equal. lia.
Qed.

(** *** Adding edges keeps the graph well formed *)

Lemma addEdge_wf G s d l n :
  wf_graph G n → (N.to_nat s < n)%nat →
  ∃ G' id, addEdge G s d l = Some (G', id)
    ∧ wf_graph G' n
    ∧ pretty <$> nodes G' = pretty <$> nodes G
    ∧ buckets G' = buckets G ∧ mod_ G' = mod_ G
    ∧ functionName G' = functionName G.
Proof.
  intros (Hn & Ha & He) Hs. unfold addEdge.
  destruct (lookup_lt_is_Some_2 (adj G) (N.to_nat s)) as [a Hla]; [lia|].
  destruct (lookup_lt_is_Some_2 (nodes G) (N.to_nat s)) as [nd Hln]; [lia|].
  rewrite Hla, Hln. simpl. eexists _, _. split; [done|]. simpl.
  split_and!; try done.
  - split_and!; simpl; [by rewrite length_insert..|].
    intros s' eids eid Hl Hin. rewrite length_app. simpl.
    destruct (decide (N.to_nat s = s')) as [<-|Hne].
    + rewrite list_lookup_insert_eq in Hl by lia. simplify_eq.
      apply elem_of_app in Hin as [Hin|Hin].
      * specialize (He _ _ _ Hla Hin). lia.
      * apply list_elem_of_singleton in Hin. subst. lia.
    + rewrite list_lookup_insert_ne in Hl by done.
      specialize (He _ _ _ Hl Hin). lia.
  - rewrite list_fmap_insert. simpl. apply list_insert_id.
    by rewrite list_lookup_fmap, Hln.
Qed.

Section edges.
Context (cni : gmap N N) (n : nat).
Local Abbreviation edges_keep := (edges_keep n).
Local Abbreviation indexed := (indexed cni n).

Lemma edges_keep_trans G1 G2 G3 :
  edges_keep G1 G2 → edges_keep G2 G3 → edges_keep G1 G3.
Proof. unfold edges_keep. intros (?&?&?&?&?) (?&?&?&?&?). split_and!; congruence. Qed.

Lemma intra_edges_wf cs : ∀ G,
  wf_graph G n → indexed cs →
  ∃ G', intra_edges cs cni G = Some G' ∧ edges_keep G G'.
Proof.
  induction cs as [|c1 cs IH]; intros G Hwf Hix.
  { exists G. split; [done|]. by split_and!. }
  destruct cs as [|c2 cs].
  { exists G. split; [done|]. by split_and!. }
  cbn [intra_edges].
  destruct (addEdge_wf G (index_of cni c1.1) (index_of cni c2.1)
              (callee_name c1.2) n Hwf) as (G1 & id & -> & Hk1).
  { apply Hix. by left. }
  simpl. destruct (IH G1) as (G' & HG' & Hk'); [by destruct Hk1| |].
  { intros pr Hpr. apply Hix. by right. }
  exists G'. split; [done|]. by eapply edges_keep_trans.
Qed.

Lemma succ_edges_wf succs lst m : ∀ G,
  wf_graph G n → (N.to_nat (exitNode lst) < n)%nat →
  ∃ G', succ_edges succs lst m G = Some G' ∧ edges_keep G G'.
Proof.
  induction succs as [|Succ succs IH]; intros G Hwf Hex.
  { exists G. split; [done|]. by split_and!. }
  cbn [succ_edges]. destruct (bbMap_find m Succ) as [it|]; [|by apply IH].
  case_bool_decide; [by apply IH|].
  destruct (addEdge_wf G (exitNode lst) (entryNode it) epsilon_label n Hwf Hex)
    as (G1 & id & -> & Hk1).
  simpl. destruct (IH G1) as (G' & HG' & Hk'); [by destruct Hk1|done|].
  exists G'. split; [done|]. by eapply edges_keep_trans.
Qed.

Lemma add_edges_wf todo : ∀ m G,
  wf_graph G n → (∀ kv, kv ∈ todo → indexed (calls kv.2)) →
  ∃ m' G', add_edges todo m cni G = Some (m', G') ∧ edges_keep G G'.
Proof.
  induction todo as [|[BB lst0] todo IH]; intros m G Hwf Hix.
  { exists m, G. split; [done|]. by split_and!. }
  cbn [add_edges].
  assert (indexed (calls lst0)) as Hix0 by (apply (Hix (BB, lst0)); by left).
  set (lst := match calls lst0, last (calls lst0) with
              | front :: _, Some back => _
              | _, _ => lst0
              end).
  assert (calls lst = calls lst0) as Hcalls.
  { unfold lst. destruct (calls lst0) as [|front cs] eqn:Hc; [done|].
    by destruct (last (front :: cs)). }
  assert (calls lst ≠ [] → (N.to_nat (exitNode lst) < n)%nat) as Hexit.
  { unfold lst. destruct (calls lst0) as [|front cs] eqn:Hc; [done|].
    destruct (last (front :: cs)) as [back|] eqn:Hl;
      [|by apply last_None in Hl].
    intros _. simpl. apply Hix0. rewrite last_Some in Hl.
    destruct Hl as [l' ->]. apply elem_of_app. right. by left. }
  destruct (intra_edges_wf (calls lst) G Hwf) as (G1 & -> & Hk1);
    [by rewrite Hcalls|].
  simpl.
  assert (∃ G2, (if bool_decide (calls lst = []) then Some G1
                 else succ_edges (successors BB) lst (bbMap_store m BB lst) G1)
                = Some G2 ∧ edges_keep G1 G2) as (G2 & -> & Hk2).
  { case_bool_decide as Hnil.
    - exists G1. split; [done|]. destruct Hk1. by split_and!.
    - apply succ_edges_wf; [by destruct Hk1|by apply Hexit]. }
  simpl. destruct (IH (bbMap_store m BB lst) G2) as (m' & G' & -> & Hk');
    [by destruct Hk2|intros; apply Hix; by right|].
  exists m', G'. split; [done|].
  eapply edges_keep_trans; [|done]. by eapply edges_keep_trans.
Qed.
End edges.

(** *** The loop that assigns the identifiers *)

Lemma to_int_small x : x < 2 ^ 31 → to_int x = Z.of_N x.
Proof.
  intros Hx. unfold to_int, u32. rewrite N.mod_small by lia.
  by rewrite (proj2 (N.ltb_lt _ _) Hx).
Qed.

Lemma assign_loop_filter o cni Is_ : ∀ st,
  assign_loop o cni st Is_
  = assign_loop o cni st
      (List.filter (λ inst, bool_decide (is_Some (lib_call inst))) Is_).
Proof.
  induction Is_ as [|inst Is_ IH]; intros st; [done|]. simpl.
  destruct (lib_call inst) as [c|] eqn:Hc.
  - rewrite bool_decide_true by done. simpl.
    destruct (assign_ids o cni st inst); simpl; [apply IH|done].
  - rewrite bool_decide_false by (by intros [? ?]).
    unfold assign_ids. rewrite Hc. simpl. apply IH.
Qed.

Section assign.
Context (o : Options) (cni : gmap N N) (n : nat) (all : list Instruction)
        (G0 : Graph).
Hypothesis HM : 0 < HashMod o < 2 ^ 31.
Hypothesis Hlen : N.of_nat (length all) < 2 ^ 31.
Hypothesis Hcand : ∀ s, s ∈ all → is_Some (lib_call s).
Hypothesis Hidx :
  ∀ s, s ∈ all → ∃ idx, cni !! i_addr s = Some idx ∧ (N.to_nat idx < n)%nat.
Hypothesis Hinj :
  ∀ j1 j2 s1 s2, all !! j1 = Some s1 → all !! j2 = Some s2 →
                 cni !! i_addr s1 = cni !! i_addr s2 → j1 = j2.
Local Abbreviation assigned := (assigned o cni n all G0).

Lemma assign_ids_step k st s :
  assigned k st → all !! k = Some s →
  ∃ st', assign_ids o cni st s = Some st' ∧ assigned (S k) st'.
Proof.
  intros (Hu & Hd & Hn & Ha & He & Hf & Hp & Hb & Hm & Hids) Hk.
  assert (s ∈ all) as Hin by (by eapply list_elem_of_lookup_2).
  destruct (Hcand s Hin) as [c Hc].
  destruct (Hidx s Hin) as (idx & Hci & Hlt).
  pose proof (lookup_lt_Some _ _ _ Hk) as Hkl.
  assert (N.of_nat k + 1 < 2 ^ 31) as Hk31 by lia.
  unfold assign_ids. rewrite Hc.
  assert ((HashMod o =? 0) = false) as -> by (apply N.eqb_neq; lia).
  rewrite Hci.
  destruct (lookup_lt_is_Some_2 (nodes (graph st)) (N.to_nat idx))
    as [nd Hnd]; [lia|].
  rewrite Hnd. simpl. rewrite Hu, Hd.
  set (dummy := N.of_nat k mod HashMod o).
  assert (dummy < HashMod o) as Hdm by (apply N.mod_lt; lia).
  rewrite (to_int_small dummy) by lia.
  assert (u32 (N.of_nat k + 1) = N.of_nat k + 1) as Hu32
    by (unfold u32; apply N.mod_small; lia).
  rewrite Hu32. rewrite (to_int_small (N.of_nat k + 1)) by lia.
  unfold insertIntoBuckets. cbn [set_nodes mod_ buckets]. rewrite Hm.
  assert ((HashMod o =? 0) = false) as -> by (apply N.eqb_neq; lia).
  rewrite (to_int_small (HashMod o)) by lia.
  assert ((Z.of_N (HashMod o) =? 0)%Z = false) as -> by (apply Z.eqb_neq; lia).
  assert (to_size_t (Z.rem (Z.of_N dummy) (Z.of_N (HashMod o))) = dummy) as ->.
  { unfold to_size_t. rewrite Z.rem_small by lia.
    rewrite Z.mod_small by lia. apply N2Z.id. }
  destruct (lookup_lt_is_Some_2 (buckets (graph st)) (N.to_nat dummy))
    as [hd Hhd]; [lia|].
  rewrite Hhd. simpl. eexists. split; [done|].
  unfold assigned. cbn [uniqueIdCounter dummyCounter graph nodes adj edges
                        functionName buckets mod_].
  split_and!; try done.
  - lia.
  - lia.
  - by rewrite length_insert.
  - rewrite list_fmap_insert. simpl. rewrite list_insert_id; [done|].
    rewrite list_lookup_fmap, Hnd. done.
  - by rewrite length_insert.
  - intros j s' idx' Hj Hs' Hci'.
    destruct (decide (j = k)) as [->|Hne].
    + simplify_eq. rewrite list_lookup_insert_eq by lia.
      eexists. split; [done|]. simpl. split.
      * unfold dummy. rewrite N2Z.inj_mod. by rewrite nat_N_Z.
      * lia.
    + assert (idx' ≠ idx) as Hidx'.
      { intros ->. apply Hne. eapply Hinj; [done..|]. congruence. }
      rewrite list_lookup_insert_ne by lia.
      apply (Hids j s' idx'); [lia|done..].
Qed.

Lemma assign_loop_sites ss : ∀ done_ st,
  done_ ++ ss = all → assigned (length done_) st →
  ∃ st', assign_loop o cni st ss = Some st' ∧ assigned (length all) st'.
Proof.
  induction ss as [|s ss IH]; intros done_ st Hall Hinv.
  { rewrite app_nil_r in Hall. subst. by exists st. }
  destruct (assign_ids_step (length done_) st s Hinv) as (st1 & Hst1 & Hinv1).
  { rewrite <- Hall. by rewrite list_lookup_middle. }
  simpl. rewrite Hst1. simpl.
  apply (IH (done_ ++ [s])).
  - by rewrite <- app_assoc.
  - rewrite length_app. simpl. by rewrite Nat.add_1_r.
Qed.
End assign.

(** *** The export *)

Lemma export_edges_defined G n : wf_graph G n → is_Some (export_edges G).
Proof.
  intros (Hn & Ha & He). unfold export_edges.
  assert (is_Some (mapM (λ '(src, eids), mapM (export_edge G src) eids)
                        (imap pair (adj G)))) as [ess ->]; [|by eexists].
  apply mapM_is_Some, Forall_forall. intros [s eids] Hin.
  apply elem_of_lookup_imap in Hin as (i & x & [= -> ->] & Hl). simpl.
  apply mapM_is_Some, Forall_forall. intros eid Heid.
  pose proof (He _ _ _ Hl Heid) as Hlt. apply lookup_lt_Some in Hl.
  unfold export_edge, compose.
  destruct (lookup_lt_is_Some_2 (edges G) (N.to_nat eid) Hlt) as [E ->].
  destruct (lookup_lt_is_Some_2 (nodes G) i) as [nd ->]; [lia|].
  by eexists.
Qed.

(** Both match fields of an exported edge that consumes a marker are the
    identifiers of its source node. *)
Lemma export_edges_match G es e :
  export_edges G = Some es → e ∈ es →
  PolicyJSON.label e ≠ epsilon_label →
  (dummyID <$> nodes G) !! N.to_nat (PolicyJSON.src e)
    = Some (PolicyJSON.matchDummy e)
  ∧ (uniqueID <$> nodes G) !! N.to_nat (PolicyJSON.src e)
    = Some (PolicyJSON.matchUnique e).
Proof.
  unfold export_edges. intros H Hin Hl.
  destruct (mapM _ (imap pair (adj G))) as [ess|] eqn:Hm; simplify_eq/=.
  apply list_elem_of_In, in_concat in Hin as (l & Hl' & Hin).
  apply list_elem_of_In in Hl', Hin.
  apply mapM_Some in Hm.
  apply list_elem_of_lookup_1 in Hl' as [i Hi].
  destruct (Forall2_lookup_r _ _ _ _ _ Hm Hi) as ([s eids] & _ & Hrow).
  simpl in Hrow. apply mapM_Some in Hrow.
  apply list_elem_of_lookup_1 in Hin as [k Hk].
  destruct (Forall2_lookup_r _ _ _ _ _ Hrow Hk) as (eid & _ & He).
  unfold export_edge in He.
  destruct (edges G !! N.to_nat eid) as [E|]; simplify_eq/=.
  destruct (nodes G !! s) as [nd|] eqn:Hnd; simplify_eq/=.
  rewrite bool_decide_false by done.
  rewrite Nat2N.id, !list_lookup_fmap, Hnd. done.
Qed.

(** *** Both identifiers of every call site are in the artifact *)

Lemma collected_pairs F pr :
  NoDup (bb_addr <$> f_blocks F) →
  pr ∈ concat ((λ kv, calls kv.2) <$> collect_calls F) →
  lib_call pr.1 = Some pr.2.
Proof.
  intros Hnd Hin.
  apply list_elem_of_In, in_concat in Hin as (l & Hl & Hin).
  apply list_elem_of_In in Hl, Hin.
  apply list_elem_of_fmap in Hl as (kv & -> & Hkv).
  rewrite (collect_calls_perm F Hnd) in Hkv.
  apply list_elem_of_fmap in Hkv as (BB & -> & _). simpl in Hin.
  apply list_elem_of_omap in Hin as (inst & _ & Hf).
  destruct (lib_call inst) as [c|] eqn:Hc; simplify_eq/=. done.
Qed.

(** The policy of a function whose blocks and call sites are distinct
    objects, with fewer than 2^31 call sites and a modulus between 1 and
    2^31 - 1: its node arrays hold, at the node of the [k]-th call site in
    program order, the name of the callee, the dummy identifier [k mod M]
    and the unique identifier [k + 1]; distinct call sites have distinct
    nodes, and every edge that consumes a marker carries both identifiers
    of its source node. *)
Lemma ids_in_policy (o : Options) (F : Function) :
  0 < HashMod o < 2 ^ 31 →
  NoDup (bb_addr <$> f_blocks F) →
  NoDup (i_addr <$> call_sites F) →
  N.of_nat (length (call_sites F)) < 2 ^ 31 →
  ∃ fp G ms (node : nat → nat),
    run_function o F = Some (fp, G, ms)
    ∧ length (PolicyJSON.nodeDummyIDs fp) = length (call_sites F)
    ∧ length (PolicyJSON.nodeUniqueIDs fp) = length (call_sites F)
    ∧ (∀ j k, (j < length (call_sites F))%nat → (k < length (call_sites F))%nat →
              node j = node k → j = k)
    ∧ (∀ k s c, call_sites F !! k = Some s → lib_call s = Some c →
         PolicyJSON.nodeLabels fp !! node k = Some (callee_name c)
         ∧ PolicyJSON.nodeDummyIDs fp !! node k
           = Some (Z.of_nat k mod Z.of_N (HashMod o))%Z
         ∧ PolicyJSON.nodeUniqueIDs fp !! node k = Some (Z.of_nat k + 1)%Z)
    ∧ (∀ e, e ∈ PolicyJSON.edges fp → PolicyJSON.label e ≠ epsilon_label →
         PolicyJSON.nodeDummyIDs fp !! N.to_nat (PolicyJSON.src e)
           = Some (PolicyJSON.matchDummy e)
         ∧ PolicyJSON.nodeUniqueIDs fp !! N.to_nat (PolicyJSON.src e)
           = Some (PolicyJSON.matchUnique e)).
Proof.
  intros HM Hbb Hsites Hlen.
  set (all := call_sites F) in *.
  set (bbMap := collect_calls F).
  set (flat := concat ((λ kv, calls kv.2) <$> bbMap)).
  pose proof (collect_calls_sites F Hbb) as Hperm. fold bbMap flat all in Hperm.
  assert (NoDup ((λ pr, i_addr pr.1) <$> flat)) as Hndf.
  { replace ((λ pr, i_addr pr.1) <$> flat) with (i_addr <$> flat.*1)
      by (by rewrite <- list_fmap_compose).
    by rewrite Hperm. }
  assert (length flat = length all) as Hlf.
  { rewrite <- (length_fmap fst flat). by rewrite Hperm. }
  destruct (add_nodes bbMap (initial_graph o F)) as [G1 cni] eqn:Hadd.
  pose proof Hadd as Hflat. rewrite add_nodes_flat in Hflat. fold flat in Hflat.
  destruct (node_step_inv _ _ _ _ _ Hflat)
    as (Hn1 & Ha1 & He1 & Hb1 & Hf1 & Hm1 & _ & Hcni).
  specialize (Hcni Hndf). simpl in Hn1, Ha1, He1, Hb1, Hm1, Hcni.
  set (n := length flat).
  (* the index of the sites of [flat] *)
  assert (∀ j pr, flat !! j = Some pr →
            cni !! i_addr pr.1 = Some (N.of_nat j)) as Hcni'.
  { intros j pr Hj. by apply Hcni. }
  assert (∀ s, s ∈ all → ∃ j c, flat !! j = Some (s, c)) as Hpos.
  { intros s Hs. rewrite <- Hperm in Hs.
    apply list_elem_of_fmap in Hs as ([s' c] & -> & Hin).
    apply list_elem_of_lookup_1 in Hin as [j Hj]. by exists j, c. }
  assert (wf_graph G1 n) as Hwf1.
  { split_and!.
    - by rewrite Hn1, length_fmap.
    - by rewrite Ha1, length_replicate.
    - intros s eids eid Hl Hin. rewrite Ha1 in Hl.
      apply lookup_replicate in Hl as [-> _]. by apply elem_of_nil in Hin. }
  assert (∀ kv, kv ∈ bbMap → indexed cni n (calls kv.2)) as Hix.
  { intros kv Hkv pr Hpr.
    assert (pr ∈ flat) as Hin.
    { apply list_elem_of_In, in_concat. exists (calls kv.2).
      split; apply list_elem_of_In; [|done].
      apply list_elem_of_fmap. by exists kv. }
    apply list_elem_of_lookup_1 in Hin as [j Hj].
    unfold index_of. rewrite (Hcni' j pr Hj). simpl.
    apply lookup_lt_Some in Hj. unfold n. lia. }
  destruct (add_edges_wf cni n bbMap bbMap G1 Hwf1 Hix)
    as (m' & G2 & Hedges & Hwf2 & Hp2 & Hb2 & Hm2 & Hf2).
  (* the loop that assigns the identifiers *)
  set (st0 := {| uniqueIdCounter := 0; dummyCounter := 0; graph := G2;
                 sites := []; markers := [] |}).
  assert (∀ s, s ∈ all → is_Some (lib_call s)) as Hcand.
  { intros s Hs. apply list_elem_of_In, filter_In in Hs as [_ Hs].
    by apply bool_decide_eq_true in Hs. }
  assert (∀ s, s ∈ all →
            ∃ idx, cni !! i_addr s = Some idx ∧ (N.to_nat idx < n)%nat) as Hidx.
  { intros s Hs. destruct (Hpos s Hs) as (j & c & Hj).
    exists (N.of_nat j). split; [by apply (Hcni' j (s, c))|].
    apply lookup_lt_Some in Hj. unfold n. lia. }
  assert (NoDup all) as Hnda by (by eapply NoDup_fmap_1).
  assert (∀ j1 j2 s1 s2, all !! j1 = Some s1 → all !! j2 = Some s2 →
            cni !! i_addr s1 = cni !! i_addr s2 → j1 = j2) as Hinj.
  { intros j1 j2 s1 s2 H1 H2 Heq.
    destruct (Hpos s1) as (p1 & c1 & Hp1); [by eapply list_elem_of_lookup_2|].
    destruct (Hpos s2) as (p2 & c2 & Hq2); [by eapply list_elem_of_lookup_2|].
    pose proof (Hcni' p1 (s1, c1) Hp1) as E1.
    pose proof (Hcni' p2 (s2, c2) Hq2) as E2. simpl in E1, E2.
    rewrite E1, E2 in Heq.
    assert (p1 = p2) as -> by (simplify_eq; lia). simplify_eq.
    by eapply NoDup_lookup. }
  assert (assigned o cni n all G2 0 st0) as Hinv0.
  { destruct Hwf2 as (Hn2 & _). unfold assigned. simpl.
    split_and!; try done.
    - rewrite Hb2, Hb1. unfold initial_graph. simpl.
      by rewrite length_replicate.
    - by rewrite Hm2, Hm1.
    - lia. }
  destruct (assign_loop_sites o cni n all G2 HM Hlen Hcand Hidx Hinj
              all [] st0 eq_refl Hinv0) as (st & Hst & Hfin).
  assert (assign_loop o cni st0 (concat (insts <$> f_blocks F)) = Some st)
    as Hloop by (rewrite assign_loop_filter; exact Hst).
  destruct Hfin as (_ & _ & Hn & Ha & He & Hf & Hp & _ & _ & Hids).
  assert (wf_graph (graph st) n) as Hwf.
  { destruct Hwf2 as (_ & Ha2 & He2). split_and!; [done|by rewrite Ha|].
    rewrite Ha, He. done. }
  destruct (export_edges_defined _ _ Hwf) as [es Hes].
  eexists _, (graph st), (markers st), (node_of cni all).
  split.
  { unfold run_function. change (initBuckets _ (HashMod o)) with (initial_graph o F).
    fold bbMap. rewrite Hadd. rewrite Hedges. simpl. fold st0.
    rewrite Hloop. simpl. rewrite Hes. simpl. reflexivity. }
  cbn [PolicyJSON.nodeDummyIDs PolicyJSON.nodeUniqueIDs PolicyJSON.nodeLabels
       PolicyJSON.edges].
  split_and!.
  - rewrite length_fmap, Hn. done.
  - rewrite length_fmap, Hn. done.
  - intros j k Hj Hk Hjk. unfold node_of in Hjk.
    destruct (lookup_lt_is_Some_2 all j Hj) as [s1 H1].
    destruct (lookup_lt_is_Some_2 all k Hk) as [s2 H2].
    rewrite H1, H2 in Hjk.
    destruct (Hidx s1) as (i1 & Hi1 & _); [by eapply list_elem_of_lookup_2|].
    destruct (Hidx s2) as (i2 & Hi2 & _); [by eapply list_elem_of_lookup_2|].
    unfold index_of in Hjk. rewrite Hi1, Hi2 in Hjk. simpl in Hjk.
    apply (Hinj j k s1 s2 H1 H2). rewrite Hi1, Hi2. f_equal. lia.
  - intros k s c Hk Hc.
    assert (s ∈ all) as Hs by (by eapply list_elem_of_lookup_2).
    destruct (Hpos s Hs) as (j & c' & Hj).
    pose proof (Hcni' j (s, c') Hj) as Hcj. simpl in Hcj.
    assert (c' = c) as ->.
    { pose proof (collected_pairs F (s, c') Hbb) as Hpr. simpl in Hpr.
      rewrite Hpr in Hc; [by simplify_eq|].
      by eapply list_elem_of_lookup_2. }
    unfold node_of. rewrite Hk. unfold index_of. rewrite Hcj. simpl.
    rewrite Nat2N.id.
    destruct (Hids k s (N.of_nat j)) as (nd & Hnd & Hd & Hu);
      [by eapply lookup_lt_Some|done|done|].
    rewrite Nat2N.id in Hnd.
    split_and!.
    + rewrite Hp, Hp2, Hn1, <- list_fmap_compose, list_lookup_fmap, Hj. done.
    + by rewrite list_lookup_fmap, Hnd, <- Hd.
    + by rewrite list_lookup_fmap, Hnd, <- Hu.
  - intros e He' Hl. by eapply export_edges_match.
Qed.

(** The policy of a function with a body is among those that [run]
    serializes. *)
Lemma run_policies_function o M F fps r :
  run_policies o M = Some fps → F ∈ M → f_isDeclaration F = false →
  run_function o F = Some r → r.1.1 ∈ fps.
Proof.
  unfold run_policies. intros Hps HF Hbody Hr.
  apply mapM_Some in Hps.
  assert (F ∈ List.filter (λ F, negb (f_isDeclaration F)) M) as Hin.
  { apply list_elem_of_In, filter_In. split; [by apply list_elem_of_In|].
    by rewrite Hbody. }
  apply list_elem_of_lookup in Hin as [i Hi].
  destruct (Forall2_lookup_l _ _ _ _ _ Hps Hi) as (fp & Hfp & Hrun).
  rewrite Hr in Hrun. simpl in Hrun. simplify_eq.
  by eapply list_elem_of_lookup_2.
Qed.

(** C7.  For a function with a body whose blocks and call sites are
    distinct objects, with fewer than 2^31 call sites and a modulus
    between 1 and 2^31 - 1, and for every value of the id-mode option: the
    text that [run] writes for a module with this function holds the
    object of the function, and that object holds the array of the dummy
    identifiers and the array of the unique identifiers of its nodes,
    written in decimal, and an object for each edge with both match
    identifiers.  At the node of the [k]-th call site in program order the
    arrays hold the dummy identifier [k mod M] and the unique identifier
    [k + 1] (and the array of labels the name of the callee); distinct
    call sites have distinct nodes, and every edge that consumes a marker
    carries both identifiers of its source node. *)
Theorem both_ids_recorded (o : Options) (M : list Function) (F : Function)
    (text : string) :
  0 < HashMod o < 2 ^ 31 →
  NoDup (bb_addr <$> f_blocks F) →
  NoDup (i_addr <$> call_sites F) →
  N.of_nat (length (call_sites F)) < 2 ^ 31 →
  F ∈ M → f_isDeclaration F = false →
  run o M = Some text →
  ∃ fp G ms (node : nat → nat),
    run_function o F = Some (fp, G, ms)
    ∧ occurs (PolicyJSON.show_function fp) text
    ∧ occurs (id_array "nodeDummyIDs" (PolicyJSON.nodeDummyIDs fp))
             (PolicyJSON.show_function fp)
    ∧ occurs (id_array "nodeUniqueIDs" (PolicyJSON.nodeUniqueIDs fp))
             (PolicyJSON.show_function fp)
    ∧ (∀ e, e ∈ PolicyJSON.edges fp →
            occurs (edge_object e) (PolicyJSON.show_function fp))
    ∧ length (PolicyJSON.nodeDummyIDs fp) = length (call_sites F)
    ∧ length (PolicyJSON.nodeUniqueIDs fp) = length (call_sites F)
    ∧ (∀ j k, (j < length (call_sites F))%nat → (k < length (call_sites F))%nat →
              node j = node k → j = k)
    ∧ (∀ k s c, call_sites F !! k = Some s → lib_call s = Some c →
         PolicyJSON.nodeLabels fp !! node k = Some (callee_name c)
         ∧ PolicyJSON.nodeDummyIDs fp !! node k
           = Some (Z.of_nat k mod Z.of_N (HashMod o))%Z
         ∧ PolicyJSON.nodeUniqueIDs fp !! node k = Some (Z.of_nat k + 1)%Z)
    ∧ (∀ e, e ∈ PolicyJSON.edges fp → PolicyJSON.label e ≠ epsilon_label →
         PolicyJSON.nodeDummyIDs fp !! N.to_nat (PolicyJSON.src e)
           = Some (PolicyJSON.matchDummy e)
         ∧ PolicyJSON.nodeUniqueIDs fp !! N.to_nat (PolicyJSON.src e)
           = Some (PolicyJSON.matchUnique e)).
Proof.
  intros HM Hbb Hsites Hlen HF Hbody Hrun.
  destruct (ids_in_policy o F HM Hbb Hsites Hlen)
    as (fp & G & ms & node & Hrf & Hl1 & Hl2 & Hinj & Hids & Hes).
  exists fp, G, ms, node. split_and!; try done.
  - unfold run in Hrun.
    destruct (run_policies o M) as [fps|] eqn:Hps; simplify_eq/=.
    apply serialize_function.
    exact (run_policies_function o M F fps _ Hps HF Hbody Hrf).
  - apply show_function_dummy_ids.
  - apply show_function_unique_ids.
  - intros e He. by apply show_function_edge.
Qed.

Lemma both_ids_recorded_witness :
  ∃ fp G ms (node : nat → nat),
    run_function unique_mode (chain_function 3 2 1) = Some (fp, G, ms)
    ∧ occurs (PolicyJSON.show_function fp) sample_text
    ∧ occurs (id_array "nodeDummyIDs" (PolicyJSON.nodeDummyIDs fp))
             (PolicyJSON.show_function fp)
    ∧ occurs (id_array "nodeUniqueIDs" (PolicyJSON.nodeUniqueIDs fp))
             (PolicyJSON.show_function fp)
    ∧ (∀ e, e ∈ PolicyJSON.edges fp →
            occurs (edge_object e) (PolicyJSON.show_function fp))
    ∧ length (PolicyJSON.nodeDummyIDs fp) = length (call_sites (chain_function 3 2 1))
    ∧ length (PolicyJSON.nodeUniqueIDs fp) = length (call_sites (chain_function 3 2 1))
    ∧ (∀ j k, (j < length (call_sites (chain_function 3 2 1)))%nat →
              (k < length (call_sites (chain_function 3 2 1)))%nat →
              node j = node k → j = k)
    ∧ (∀ k s c, call_sites (chain_function 3 2 1) !! k = Some s →
         lib_call s = Some c →
         PolicyJSON.nodeLabels fp !! node k = Some (callee_name c)
         ∧ PolicyJSON.nodeDummyIDs fp !! node k
           = Some (Z.of_nat k mod Z.of_N (HashMod unique_mode))%Z
         ∧ PolicyJSON.nodeUniqueIDs fp !! node k = Some (Z.of_nat k + 1)%Z)
    ∧ (∀ e, e ∈ PolicyJSON.edges fp → PolicyJSON.label e ≠ epsilon_label →
         PolicyJSON.nodeDummyIDs fp !! N.to_nat (PolicyJSON.src e)
           = Some (PolicyJSON.matchDummy e)
         ∧ PolicyJSON.nodeUniqueIDs fp !! N.to_nat (PolicyJSON.src e)
           = Some (PolicyJSON.matchUnique e)).
Proof.
  apply (both_ids_recorded unique_mode sample_module (chain_function 3 2 1)
           sample_text).
  - by vm_compute.
  - apply (bool_decide_unpack _). by vm_compute.
  - apply (bool_decide_unpack _). by vm_compute.
  - by vm_compute.
  - unfold sample_module. apply list_elem_of_further, list_elem_of_here.
  - reflexivity.
  - by vm_compute.
Defined.

End PassFacts.

(** ** Properties of the loader *)

Module LoaderFacts.
Import Policy LibCallPass PassSpec StringFacts Loader LoaderSpec.

Local Open Scope nat_scope.
Local Open Scope string_scope.
Local Arguments String.append !_ _ / : simpl nomatch.

(** *** Strings *)

Lemma prefix_iff (p s : string) :
  String.prefix p s = true ↔ ∃ t, s = p ++ t.
Proof.
  revert s. induction p as [|x p IH]; intros s; simpl.
  { destruct s; split; eauto. }
  destruct s as [|y s]; simpl.
  { split; [done|]. by intros [t ?]. }
  destruct (ascii_dec x y) as [->|Hne].
  - rewrite IH. split; intros [t Ht]; exists t; congruence.
  - split; [done|]. intros [t Ht]. congruence.
Qed.

Lemma skip_nil n : skip n "" = "".
Proof. by destruct n. Qed.

Lemma skip_app (a b : string) : skip (String.length a) (a ++ b) = b.
Proof. induction a as [|x a IH]; simpl; [by destruct b|done]. Qed.

Lemma skip_add (i j : nat) (s : string) : skip (i + j) s = skip j (skip i s).
Proof.
  revert s. induction i as [|i IH]; intros s; simpl; [by destruct s|].
  destruct s; simpl; [by rewrite skip_nil|apply IH].
Qed.

Lemma skip_app_l (i : nat) (a b : string) :
  (i ≤ String.length a)%nat → skip i (a ++ b) = skip i a ++ b.
Proof.
  revert a. induction i as [|i IH]; intros a Hi; simpl.
  { by destruct a, b. }
  destruct a as [|x a]; simpl in *; [lia|]. apply IH. lia.
Qed.

Lemma skip_length (i : nat) (s : string) :
  String.length (skip i s) = String.length s - i.
Proof.
  revert s. induction i as [|i IH]; intros s; simpl; [destruct s; simpl; lia|].
  destruct s; simpl; [done|]. apply IH.
Qed.

(** A prefix of [a ++ b] that fits [a] is a prefix of [a]. *)
Lemma prefix_app_fit (p a b : string) :
  (String.length p ≤ String.length a)%nat →
  String.prefix p (a ++ b) = true → String.prefix p a = true.
Proof.
  revert a. induction p as [|x p IH]; intros a Hl; simpl; [by destruct a|].
  destruct a as [|y a]; simpl in *; [lia|].
  destruct (ascii_dec x y); [|done]. apply IH. lia.
Qed.

Lemma prefix_app_r (x p s : string) :
  String.prefix (x ++ p) s = true →
  String.prefix p (skip (String.length x) s) = true.
Proof.
  rewrite !prefix_iff. intros [t ->]. exists t.
  by rewrite append_assoc, skip_app.
Qed.

(** *** First occurrences *)

Lemma find_sub_None needle s :
  (∀ i, String.prefix needle (skip i s) = false) → find_sub needle s = None.
Proof.
  induction s as [|c s IH]; intros H.
  - pose proof (H 0) as H0. simpl in *. by rewrite H0.
  - simpl. pose proof (H 0) as H0. simpl in H0. rewrite H0.
    rewrite IH; [done|]. intros i. apply (H (S i)).
Qed.

Lemma find_sub_first needle s k :
  String.prefix needle (skip k s) = true →
  (∀ i, (i < k)%nat → String.prefix needle (skip i s) = false) →
  find_sub needle s = Some k.
Proof.
  revert s. induction k as [|k IH]; intros s Hk Hlt.
  - assert (skip 0 s = s) as E by (by destruct s). rewrite E in Hk.
    destruct s; simpl in *; by rewrite Hk.
  - assert (String.prefix needle s = false) as H0.
    { specialize (Hlt 0). assert (skip 0 s = s) as E by (by destruct s).
      rewrite E in Hlt. apply Hlt. lia. }
    destruct s as [|c s].
    + rewrite skip_nil in Hk. congruence.
    + simpl. simpl in H0. rewrite H0. simpl in Hk.
      rewrite (IH s Hk); [done|]. intros i Hi. apply (Hlt (S i)). lia.
Qed.

Lemma find_char_app c a b :
  is_Some (find_char c (a ++ String c b)).
Proof.
  induction a as [|x a IH]; simpl.
  - rewrite Ascii.eqb_refl. by eexists.
  - destruct (Ascii.eqb x c); [by eexists|]. destruct IH as [k ->]. by eexists.
Qed.

(** *** The scan *)

Lemma scan_app a b s t : ∀ h3 h2 h1,
  scan a b h3 h2 h1 (s ++ t)
  = match scan a b h3 h2 h1 s with
    | Some (x, y, z) => scan a b x y z t
    | None => None
    end.
Proof.
  induction s as [|c s IH]; intros h3 h2 h1; simpl; [done|].
  destruct (_ && _); [done|]. apply IH.
Qed.

Lemma safe_app a b s t : safe a b s → safe a b t → safe a b (s ++ t).
Proof.
  intros Hs Ht h3 h2 h1. rewrite scan_app.
  destruct (Hs h3 h2 h1) as [[[x y] z] ->]. apply Ht.
Qed.

Lemma safe_colon_free a b s : colon_free s = true → safe a b s.
Proof.
  induction s as [|c s IH]; intros H h3 h2 h1; simpl; [by eexists|].
  simpl in H. apply andb_true_iff in H as [Hc H].
  apply negb_true_iff in Hc. rewrite Hc. simpl. by apply IH.
Qed.

(** The four characters anywhere in the text stop the scan. *)
Lemma scan_quad a b t : ∀ h3 h2 h1, scan a b h3 h2 h1 (quad a b ++ t) = None.
Proof.
  intros h3 h2 h1. unfold quad. simpl.
  destruct (Ascii.eqb a ":" && _); [done|].
  destruct (Ascii.eqb b ":" && _); [done|].
  by rewrite !Ascii.eqb_refl.
Qed.

Lemma scan_complete a b s : ∀ i h3 h2 h1,
  String.prefix (quad a b) (skip i s) = true → scan a b h3 h2 h1 s = None.
Proof.
  induction s as [|c s IH]; intros i h3 h2 h1 H.
  { rewrite skip_nil in H. done. }
  destruct i as [|i].
  - change (skip 0 (String c s)) with (String c s) in H.
    apply prefix_iff in H as [t ->]. apply scan_quad.
  - simpl in H. simpl. destruct (_ && _); [done|]. by eapply IH.
Qed.

(** A key that ends in the four characters does not occur in a text that
    the scan passes. *)
Lemma find_sub_absent a b x s h3 h2 h1 :
  is_Some (scan a b h3 h2 h1 s) → find_sub (x ++ quad a b) s = None.
Proof.
  intros Hs. apply find_sub_None. intros i.
  destruct (String.prefix _ _) eqn:E; [|done]. exfalso.
  apply prefix_app_r in E. rewrite <- skip_add in E.
  apply (scan_complete a b s _ h3 h2 h1) in E. rewrite E in Hs.
  by destruct Hs.
Qed.

(** When the scan passes the text before the key and the key but for its
    colon, the key does not occur before the place where it stands. *)
Lemma find_sub_at a b x pre post h3 h2 h1 :
  is_Some (scan a b h3 h2 h1
             (pre ++ x ++ String a (String b (String dquote "")))) →
  find_sub (x ++ quad a b) (pre ++ (x ++ quad a b) ++ post)
  = Some (String.length pre).
Proof.
  intros Hs. apply find_sub_first.
  { rewrite skip_app. apply prefix_iff. by exists post. }
  intros i Hi. destruct (String.prefix _ _) eqn:E; [|done]. exfalso.
  apply prefix_app_r in E. rewrite <- skip_add in E.
  set (init := x ++ String a (String b (String dquote ""))) in *.
  assert (pre ++ (x ++ quad a b) ++ post = (pre ++ init) ++ String ":" post)
    as Htext.
  { unfold init, quad. rewrite !append_assoc. simpl. done. }
  rewrite Htext in E.
  assert (String.length (pre ++ init) = String.length pre + String.length x + 3)%nat
    as Hlen.
  { unfold init. rewrite !append_length. simpl. lia. }
  rewrite skip_app_l in E by lia.
  apply prefix_app_fit in E.
  - apply (scan_complete a b _ _ h3 h2 h1) in E. rewrite E in Hs.
    by destruct Hs.
  - rewrite skip_length, Hlen. simpl. lia.
Qed.

(** *** The text that the serializer writes *)

Lemma colon_free_app s t :
  colon_free s = true → colon_free t = true → colon_free (s ++ t) = true.
Proof.
  induction s as [|c s IH]; simpl; [done|]. intros H Ht.
  apply andb_true_iff in H as [-> H]. simpl. by apply IH.
Qed.

Lemma colon_free_uint u : colon_free (NilEmpty.string_of_uint u) = true.
Proof. induction u; simpl; done. Qed.

Lemma colon_free_show_N n : colon_free (show_N n) = true.
Proof. apply colon_free_uint. Qed.

Lemma colon_free_show_Z z : colon_free (show_Z z) = true.
Proof.
  unfold show_Z, NilEmpty.string_of_int.
  destruct (Z.to_int z); simpl; apply colon_free_uint.
Qed.

Lemma colon_free_sep_by items :
  Forall (λ x, colon_free x = true) items →
  colon_free (PolicyJSON.sep_by "," items) = true.
Proof.
  induction items as [|x items IH]; intros H; [done|].
  apply Forall_cons in H as [Hx H]. destruct items as [|y items]; [done|].
  change (PolicyJSON.sep_by "," (x :: y :: items))
    with (x ++ "," ++ PolicyJSON.sep_by "," (y :: items)).
  apply colon_free_app; [done|]. apply colon_free_app; [done|]. by apply IH.
Qed.

(** A quoted name, after a character other than [b]. *)
Lemma scan_name a b v : ∀ h3 h2 h1,
  quote_free v = true →
  Ascii.eqb h1 dquote && (Ascii.eqb h2 b && Ascii.eqb h3 a) = false →
  ∃ x y z, scan a b h3 h2 h1 v = Some (x, y, z)
           ∧ (Ascii.eqb z dquote && (Ascii.eqb y b && Ascii.eqb x a) = false).
Proof.
  induction v as [|c v IH]; intros h3 h2 h1 Hv Hg; simpl.
  { by eexists _, _, _. }
  simpl in Hv. apply andb_true_iff in Hv as [Hc Hv].
  apply negb_true_iff in Hc. rewrite Hg, andb_false_r.
  apply IH; [done|]. by rewrite Hc.
Qed.

Lemma scan_quoted a b v rest h3 h2 h1 :
  quote_free v = true → Ascii.eqb h1 b = false →
  ∃ x y, scan a b h3 h2 h1 (Q ++ v ++ Q ++ rest)
         = scan a b x y dquote rest.
Proof.
  intros Hv Hb. unfold Q. simpl.
  destruct (scan_name a b v h2 h1 dquote Hv) as (x & y & z & Hs & Hg).
  { simpl. by rewrite Hb. }
  rewrite scan_app, Hs. simpl. eauto.
Qed.

(** Steps of a scan through a printed number and through a name. *)
Ltac pass_number :=
  rewrite scan_app;
  match goal with
  | |- context [scan ?a ?b ?h3 ?h2 ?h1 (show_N ?n)] =>
    destruct (safe_colon_free a b _ (colon_free_show_N n) h3 h2 h1)
      as [[[? ?] ?] ->]
  | |- context [scan ?a ?b ?h3 ?h2 ?h1 (show_Z ?n)] =>
    destruct (safe_colon_free a b _ (colon_free_show_Z n) h3 h2 h1)
      as [[[? ?] ?] ->]
  end; simpl.

Ltac pass_name H :=
  rewrite scan_app;
  match goal with
  | |- context [scan ?a ?b ?h3 ?h2 ?h1 ?v] =>
    destruct (scan_name a b v h3 h2 h1 H eq_refl) as (? & ? & ? & -> & _)
  end; simpl.

Lemma safe_show_edge a E :
  quote_free (PolicyJSON.label E) = true → safe a "s" (PolicyJSON.show_edge E).
Proof.
  intros Hl h3 h2 h1. unfold PolicyJSON.show_edge, Q. simpl.
  pass_number. pass_number. pass_name Hl. pass_number.
  apply safe_app; apply safe_colon_free; [apply colon_free_show_Z|done].
Qed.

Lemma safe_show_site a c :
  quote_free (PolicyJSON.name c) = true →
  quote_free (PolicyJSON.irLocation c) = true →
  safe a "s" (PolicyJSON.show_site c).
Proof.
  intros Hn Hl h3 h2 h1. unfold PolicyJSON.show_site, Q. simpl.
  pass_name Hn. pass_number. pass_number. pass_number. pass_name Hl.
  by eexists.
Qed.

Lemma safe_lines_of a b items :
  Forall (safe a b) items → safe a b (PolicyJSON.lines_of items).
Proof.
  induction items as [|x items IH]; intros H.
  { intros ???. by eexists. }
  apply Forall_cons in H as [Hx H]. destruct items as [|y items].
  { apply safe_app; [done|]. by apply safe_colon_free. }
  change (PolicyJSON.lines_of (x :: y :: items))
    with (x ++ "," ++ NL ++ PolicyJSON.lines_of (y :: items)).
  apply safe_app; [done|].
  apply safe_app; [by apply safe_colon_free|].
  apply safe_app; [by apply safe_colon_free|]. by apply IH.
Qed.

Lemma scan_labels a ls : ∀ h3 h2 h1,
  Forall (λ l, quote_free l = true) ls → Ascii.eqb h1 "s" = false →
  is_Some (scan a "s" h3 h2 h1
             (PolicyJSON.sep_by "," ((λ l, Q ++ l ++ Q) <$> ls))).
Proof.
  induction ls as [|l ls IH]; intros h3 h2 h1 H Hh.
  { by eexists. }
  apply Forall_cons in H as [Hl H]. destruct ls as [|l' ls].
  - change (PolicyJSON.sep_by "," ((λ l0, Q ++ l0 ++ Q) <$> [l]))
      with (Q ++ l ++ Q).
    rewrite <- (append_nil_r Q) at 2.
    destruct (scan_quoted a "s" l "" h3 h2 h1 Hl Hh) as (x & y & ->).
    by eexists.
  - change (PolicyJSON.sep_by "," ((λ l0, Q ++ l0 ++ Q) <$> l :: l' :: ls))
      with ((Q ++ l ++ Q)
            ++ "," ++ PolicyJSON.sep_by "," ((λ l0, Q ++ l0 ++ Q) <$> l' :: ls)).
    rewrite !append_assoc.
    destruct (scan_quoted a "s" l
                ("," ++ PolicyJSON.sep_by "," ((λ l0, Q ++ l0 ++ Q) <$> l' :: ls))
                h3 h2 h1 Hl Hh) as (x & y & ->).
    simpl. by apply IH.
Qed.

(** The scan for the end of the key of the edges array passes the text
    before that key and the key but for its colon. *)
Lemma scan_before_edges f :
  plain_names f →
  is_Some (scan "e" "s" zero_char zero_char zero_char
             (before_edges f ++ (Q ++ "edg") ++ "es" ++ Q)).
Proof.
  intros (Hfn & Hid & Hsites & Hlabels & _).
  unfold before_edges.
  pose proof (scan_labels "e" (PolicyJSON.nodeLabels f)) as Hlabs.
  set (labs := PolicyJSON.sep_by "," _) in *. clearbody labs.
  unfold Q, NL. rewrite !append_assoc. simpl.
  pass_name Hfn. pass_number. pass_name Hid.
  rewrite scan_app.
  match goal with
  | |- context [scan ?a ?b ?h3 ?h2 ?h1 (PolicyJSON.lines_of ?l)] =>
    destruct (safe_lines_of a b l) with h3 h2 h1 as [[[? ?] ?] ->]
  end.
  { apply Forall_fmap. eapply Forall_impl; [exact Hsites|].
    intros c [? ?]. by apply safe_show_site. }
  simpl. rewrite scan_app.
  match goal with
  | |- context [scan ?a ?b ?h3 ?h2 ?h1 labs] =>
    destruct (Hlabs h3 h2 h1 Hlabels eq_refl) as [[[? ?] ?] ->]
  end.
  simpl.
  do 2 (rewrite scan_app;
        match goal with
        | |- context [scan ?a ?b ?h3 ?h2 ?h1 (PolicyJSON.sep_by _ ?l)] =>
          destruct (safe_colon_free a b (PolicyJSON.sep_by "," l)) with h3 h2 h1
            as [[[? ?] ?] ->];
          [apply colon_free_sep_by, Forall_fmap, Forall_forall;
           intros; apply colon_free_show_Z|]
        end; simpl).
  by eexists.
Qed.

(** The scan for the end of the key of the node labels passes the text
    after the key of the edges array. *)
Lemma scan_after_edges f :
  plain_names f →
  is_Some (scan "l" "s" zero_char zero_char zero_char (after_edges f)).
Proof.
  intros (_ & _ & _ & _ & Hedges).
  unfold after_edges, Q, NL. simpl.
  rewrite scan_app.
  match goal with
  | |- context [scan ?a ?b ?h3 ?h2 ?h1 (PolicyJSON.lines_of ?l)] =>
    destruct (safe_lines_of a b l) with h3 h2 h1 as [[[? ?] ?] ->]
  end.
  { apply Forall_fmap. eapply Forall_impl; [exact Hedges|].
    intros E ?. by apply safe_show_edge. }
  simpl. by eexists.
Qed.

Lemma serialize_single f :
  PolicyJSON.serialize [f] = before_edges f ++ edges_key ++ after_edges f.
Proof.
  unfold PolicyJSON.serialize, PolicyJSON.show_function, before_edges,
    after_edges, edges_key, Q, NL.
  repeat (progress (rewrite ?append_assoc; simpl)). reflexivity.
Qed.

Lemma skip_0 s : skip 0 s = s.
Proof. by destruct s. Qed.

(** In the artifact of one function the key of the edges array is found
    where it stands, and the key of the node labels does not occur after
    it. *)
Lemma edges_key_found f :
  plain_names f →
  find_sub edges_key (before_edges f ++ edges_key ++ after_edges f)
  = Some (String.length (before_edges f)).
Proof.
  intros Hp.
  apply (find_sub_at "e" "s" (Q ++ "edg") (before_edges f) (after_edges f)
           zero_char zero_char zero_char).
  exact (scan_before_edges f Hp).
Qed.

Lemma labels_key_absent f :
  plain_names f → find_sub labels_key (after_edges f) = None.
Proof.
  intros Hp.
  apply (find_sub_absent "l" "s" (Q ++ "nodeLabe") (after_edges f)
           zero_char zero_char zero_char).
  exact (scan_after_edges f Hp).
Qed.

Lemma find_sub_inside key : ∀ s p,
  find_sub key s = Some p → (p + String.length key ≤ String.length s)%nat.
Proof.
  induction s as [|c s IH]; intros p H; cbn [find_sub] in H.
  - destruct key; simpl in H; simplify_eq. simpl. lia.
  - destruct (String.prefix key (String c s)) eqn:Hpre.
    + simplify_eq. apply prefix_iff in Hpre as [t Ht]. rewrite Ht.
      rewrite append_length. lia.
    + destruct (find_sub key s) as [q|] eqn:Hq; simplify_eq/=.
      specialize (IH q eq_refl). lia.
Qed.

Lemma find_sub_app_l key x : ∀ s p,
  find_sub key s = Some p → find_sub key (s ++ x) = Some p.
Proof.
  induction s as [|c s IH]; intros p H.
  - destruct key; simpl in H; simplify_eq. by destruct x.
  - pose proof (find_sub_inside _ _ _ H) as Hin. cbn [find_sub] in H.
    change (String c s ++ x) with (String c (s ++ x)). cbn [find_sub].
    destruct (String.prefix key (String c s)) eqn:Hpre.
    + simplify_eq.
      assert (String.prefix key (String c (s ++ x)) = true) as ->; [|done].
      apply prefix_iff in Hpre as [t Ht]. apply prefix_iff. exists (t ++ x).
      change (String c (s ++ x)) with (String c s ++ x).
      by rewrite Ht, append_assoc.
    + destruct (find_sub key s) as [q|] eqn:Hq; simpl in H; simplify_eq.
      assert (String.prefix key (String c (s ++ x)) = false) as ->.
      { destruct (String.prefix key (String c (s ++ x))) eqn:Hpx; [|done].
        apply (prefix_app_fit key (String c s) x) in Hpx; [congruence|].
        simpl in *. lia. }
      by rewrite (IH q eq_refl).
Qed.

(** *** The C string of a buffer *)

Lemma c_str_split s :
  ∃ r, s = c_str s ++ r ∧ (r = "" ∨ ∃ r', r = String Ascii.zero r').
Proof.
  induction s as [|c s (r & Hr & Hz)]; [by exists ""; split; [|left]|].
  unfold c_str in *. cbn [take_until].
  destruct (Ascii.eqb_spec c Ascii.zero) as [->|Hne].
  - exists (String Ascii.zero s). split; [done|]. right. by eexists.
  - exists r. split; [|done]. simpl. by rewrite <- Hr.
Qed.

(** The path of [extract_graph_edges] that returns -1 because the key of
    the node labels is not found. *)
Lemma extract_fails_no_labels ok json mode p0 start k :
  strstr json 0 edges_key = Some p0 →
  strchr json (p0 + 8) "[" = Some start →
  strchr json start "]" = Some (start + S k)%nat →
  strstr json (p0 + 8) labels_key = None →
  extract_graph_edges ok json 0 mode = Some Failed.
Proof.
  intros H1 H2 H3 H4. unfold extract_graph_edges.
  change (Z.to_nat (0 + 1)) with 1%nat. unfold seek_edges.
  change (Q ++ "edges" ++ Q ++ ":") with edges_key.
  change (Q ++ "nodeLabels" ++ Q ++ ":") with labels_key.
  rewrite H1. cbn [mbind option_bind]. rewrite H2. cbn [mbind option_bind].
  rewrite H3.
  assert ((start + S k <=? start)%nat = false) as -> by (apply Nat.leb_gt; lia).
  by rewrite H4.
Qed.

Lemma find_bracket_after_edges f :
  find_char "[" (after_edges f) = Some 1%nat
  ∧ ∃ k, find_char "]" (skip 1 (after_edges f)) = Some (S k).
Proof.
  unfold after_edges, NL.
  set (lines := PolicyJSON.lines_of _). clearbody lines.
  split; [reflexivity|].
  destruct (find_char_app "]" (lines ++ "      ")
              (String linefeed
                 ("    }" ++ String linefeed
                    ("  ]" ++ String linefeed ("}" ++ String linefeed "")))))
    as [k Hk].
  rewrite append_assoc in Hk. exists (S k).
  simpl in Hk. simpl. rewrite Hk. reflexivity.
Qed.

Lemma extract_single_fails ok f mode :
  plain_names f →
  extract_graph_edges ok (PolicyJSON.serialize [f]) 0 mode = Some Failed.
Proof.
  intros Hp. rewrite serialize_single.
  pose proof (edges_key_found f Hp) as Hkey.
  pose proof (labels_key_absent f Hp) as Hlab.
  destruct (find_bracket_after_edges f) as (Hopen & k & Hclose).
  set (pre := before_edges f) in *. set (post := after_edges f) in *.
  clearbody pre post.
  assert (skip (String.length pre + 8) (pre ++ edges_key ++ post) = post)
    as Hskip.
  { rewrite skip_add, skip_app. exact (skip_app edges_key post). }
  apply (extract_fails_no_labels ok _ mode (String.length pre)
           (String.length pre + 8 + 1) k).
  - unfold strstr. rewrite skip_0, Hkey. reflexivity.
  - unfold strchr. rewrite Hskip, Hopen. reflexivity.
  - unfold strchr. rewrite skip_add, Hskip, Hclose. reflexivity.
  - unfold strstr. rewrite Hskip, Hlab. reflexivity.
Qed.

(** The same holds for the C string of the artifact, which ends early when
    a name holds a zero byte: either the key of the edges array is cut off,
    or the text after it is, and then the key of the node labels still does
    not occur there. *)
Lemma extract_single_c_str_fails ok f mode :
  plain_names f →
  extract_graph_edges ok (c_str (PolicyJSON.serialize [f])) 0 mode = Some Failed.
Proof.
  intros Hp. rewrite serialize_single.
  pose proof (edges_key_found f Hp) as Hkey.
  pose proof (labels_key_absent f Hp) as Hlab.
  assert (∃ rest, after_edges f = String " " (String "[" rest)) as [rest Hpost].
  { unfold after_edges. by eexists. }
  set (pre := before_edges f) in *. set (post := after_edges f) in *.
  clearbody pre post.
  destruct (c_str_split (pre ++ edges_key ++ post)) as (r & Hr & Hz).
  set (t := c_str (pre ++ edges_key ++ post)) in *. clearbody t.
  unfold extract_graph_edges.
  change (Z.to_nat (0 + 1)) with 1%nat. unfold seek_edges.
  change (Q ++ "edges" ++ Q ++ ":") with edges_key.
  change (Q ++ "nodeLabels" ++ Q ++ ":") with labels_key.
  unfold strstr at 1. rewrite skip_0.
  destruct (find_sub edges_key t) as [p|] eqn:Hp0; [|done].
  pose proof (find_sub_inside _ _ _ Hp0) as Hin.
  change (String.length edges_key) with 8%nat in Hin.
  pose proof (find_sub_app_l edges_key r _ _ Hp0) as Hfull.
  rewrite <- Hr, Hkey in Hfull. injection Hfull as <-.
  assert (post = skip (String.length pre + 8) t ++ r) as Hcut.
  { rewrite <- (skip_app_l _ t r) by lia. rewrite <- Hr.
    rewrite skip_add, skip_app. symmetry. exact (skip_app edges_key post). }
  set (t' := skip (String.length pre + 8) t) in *.
  cbn [fmap option_fmap option_map mbind option_bind].
  change (0 + String.length pre + 8)%nat with (String.length pre + 8)%nat.
  assert (∃ t'', t' = String " " (String "[" t'')) as [t'' Ht'].
  { rewrite Hpost in Hcut. destruct t' as [|c1 [|c2 t'']].
    - simpl in Hcut. destruct Hz as [->|[r' ->]]; discriminate.
    - simpl in Hcut. injection Hcut as <- Hcut.
      destruct Hz as [->|[r' ->]]; discriminate.
    - simpl in Hcut. injection Hcut as <- <- _. by eexists. }
  assert (strchr t (String.length pre + 8) "["
          = Some (String.length pre + 8 + 1)%nat) as ->.
  { unfold strchr. fold t'. by rewrite Ht'. }
  cbn [mbind option_bind].
  destruct (strchr t (String.length pre + 8 + 1) "]") as [end_|]; [|done].
  destruct (end_ <=? String.length pre + 8 + 1)%nat; [done|].
  unfold strstr. fold t'.
  destruct (find_sub labels_key t') as [q|] eqn:Hq; [|done].
  apply (find_sub_app_l labels_key r) in Hq. rewrite <- Hcut in Hq. congruence.
Qed.

(** C10.  For the artifact that the serializer writes for one function
    whose names hold no double quote, and function index 0, the edge
    extraction returns -1 (the key of the node labels is sought after the
    key of the edges array, where it does not occur) and the loader exits
    with status 1, whatever the pid, the id mode and the device. *)
Theorem single_function_artifact_rejected
    (argv : list string) (w : world) (o : options) (path : string)
    (f : PolicyJSON.FuncPolicy) :
  plain_names f →
  parse_args argv (mkOptions (-1) None 0 0) = Some o →
  func_index o = 0%Z → json_path o = Some path →
  files w path = Some (PolicyJSON.serialize [f]) →
  extract_graph_edges (calloc_ok w) (PolicyJSON.serialize [f])
    (func_index o) (opt_id_mode o) = Some Failed
  ∧ main argv w = Some 1%Z.
Proof.
  intros Hp Hargs Hidx Hpath Hfile.
  pose proof (extract_single_fails (calloc_ok w) f (opt_id_mode o) Hp) as Hx.
  pose proof (extract_single_c_str_fails (calloc_ok w) f (opt_id_mode o) Hp)
    as Hc.
  rewrite Hidx. split; [done|].
  unfold main. rewrite Hargs, Hpath.
  destruct (opt_pid o <=? 0)%Z; [done|].
  by rewrite Hfile, Hidx, Hc.
Qed.

Lemma single_function_artifact_rejected_witness :
  plain_names linear_policy_json
  ∧ extract_graph_edges true (PolicyJSON.serialize [linear_policy_json]) 0 0
    = Some Failed
  ∧ main sample_argv sample_world = Some 1%Z.
Proof.
  assert (plain_names linear_policy_json) as Hp.
  { unfold plain_names. split_and!; [done..| | |]; repeat constructor. }
  split; [exact Hp|].
  exact (single_function_artifact_rejected sample_argv sample_world
           (mkOptions 7 (Some "policy.json") 0 0) "policy.json"
           linear_policy_json Hp eq_refl eq_refl eq_refl eq_refl).
Defined.

(** The artifact of the sample policy is the text that [run] writes. *)
Example run_linear_artifact :
  run dummy_mode [linear_function]
  = Some (PolicyJSON.serialize [linear_policy_json]).
Proof. by vm_compute. Qed.

(** C8.  White space between the tokens of the artifact changes what the
    loader extracts: with two spaces inside an empty array of node labels
    the node count goes from 0 to 1, and with a space before the colon of
    the first edges key the extraction fails. *)
Lemma whitespace_changes_blob :
  same_up_to_whitespace sample_artifact spaced_array_artifact
  ∧ same_up_to_whitespace sample_artifact spaced_key_artifact
  ∧ extract_graph_edges true sample_artifact 0 1
    = Some (Parsed [mkEdge 0 1 1 0; mkEdge 1 2 2 0] 2 0)
  ∧ extract_graph_edges true spaced_array_artifact 0 1
    = Some (Parsed [mkEdge 0 1 1 0; mkEdge 1 2 2 0] 2 1)
  ∧ extract_graph_edges true spaced_key_artifact 0 1 = Some Failed.
Proof. split_and!; by vm_compute. Qed.

End LoaderFacts.

(** ** Further properties of the enforcement engine *)

Module EngineMoreFacts.
Import Engine EngineSpec EngineFacts EngineMore EngineMoreSpec.

(** *** The policy table *)

Lemma lookup_ppid_elem tbl p pp : lookup_ppid tbl p = Some pp → pp ∈ tbl.
Proof.
  unfold lookup_ppid. intros H. apply find_some in H as [H _].
  by apply list_elem_of_In.
Qed.

Lemma lookup_ppid_absent tbl p :
  lookup_ppid tbl p = None ↔ p ∉ pid <$> tbl.
Proof.
  unfold lookup_ppid. induction tbl as [|pp tbl IH]; simpl.
  { split; [intros _ H%elem_of_nil; done|done]. }
  destruct (N.eqb_spec (pid pp) p) as [<-|Hne].
  - split; [done|]. intros H. exfalso. apply H. left.
  - rewrite IH, not_elem_of_cons.
    split; [intros ?; split; [congruence|done]|by intros [_ ?]].
Qed.

Lemma lookup_hash_del_ne tbl p q :
  p ≠ q → lookup_ppid (hash_del tbl p) q = lookup_ppid tbl q.
Proof.
  intros Hne. unfold lookup_ppid.
  induction tbl as [|pp tbl IH]; simpl; [done|].
  destruct (N.eqb_spec (pid pp) p) as [Hp|Hp].
  - destruct (N.eqb_spec (pid pp) q) as [Hq|Hq]; [congruence|done].
  - simpl. by rewrite IH.
Qed.

Lemma hash_del_pids tbl p :
  pid <$> hash_del tbl p `sublist_of` pid <$> tbl.
Proof.
  induction tbl as [|pp tbl IH]; simpl; [constructor|].
  destruct (pid pp =? p); simpl.
  - by apply sublist_cons.
  - by apply sublist_skip.
Qed.

Lemma hash_del_gone tbl p :
  one_per_pid tbl → lookup_ppid (hash_del tbl p) p = None.
Proof.
  unfold one_per_pid. intros Hnd. apply lookup_ppid_absent.
  induction tbl as [|pp tbl IH]; simpl; [by intros H%elem_of_nil|].
  simpl in Hnd. apply NoDup_cons in Hnd as [Hnot Hnd].
  destruct (N.eqb_spec (pid pp) p) as [<-|Hne]; [done|].
  simpl. rewrite not_elem_of_cons. split; [done|by apply IH].
Qed.

Lemma hash_del_one_per_pid tbl p : one_per_pid tbl → one_per_pid (hash_del tbl p).
Proof.
  unfold one_per_pid. intros H.
  eapply sublist_NoDup; [done|apply hash_del_pids].
Qed.

Lemma tbl_store_pids tbl pp' : pid <$> tbl_store tbl pp' = pid <$> tbl.
Proof.
  induction tbl as [|pp tbl IH]; simpl; [done|].
  destruct (N.eqb_spec (pid pp) (pid pp')) as [Heq|Hne]; simpl.
  - by rewrite Heq.
  - by f_equal.
Qed.

Lemma lookup_tbl_store_ne tbl pp' q :
  pid pp' ≠ q → lookup_ppid (tbl_store tbl pp') q = lookup_ppid tbl q.
Proof.
  intros Hne. unfold lookup_ppid.
  induction tbl as [|pp tbl IH]; simpl; [done|].
  destruct (N.eqb_spec (pid pp) (pid pp')) as [Hp|Hp]; simpl.
  - destruct (N.eqb_spec (pid pp') q) as [?|_]; [done|].
    destruct (N.eqb_spec (pid pp) q) as [?|_]; [congruence|done].
  - destruct (pid pp =? q); [done|apply IH].
Qed.

(** *** Emptiness *)

Lemma words_zero_true bm : ∀ n i,
  words_zero bm i n = Some true →
  ∀ k, (i ≤ k < i + n)%nat → bm !! k = Some 0.
Proof.
  induction n as [|n IH]; intros i H k Hk; [lia|]. simpl in H.
  destruct (bm !! i) as [w|] eqn:Hw; simpl in H; [|done].
  destruct (N.eqb_spec w 0) as [->|Hne]; simpl in H; [|done].
  destruct (decide (k = i)) as [->|Hki]; [done|].
  apply (IH _ H). lia.
Qed.

Lemma frontier_empty_idle f j :
  wf_frontier f → frontier_empty f = Some true → ¬ active f j.
Proof.
  intros (bm & Hbm & Hlen) He. unfold active, frontier_test, test_bit.
  unfold frontier_empty in He. rewrite Hbm in *. simpl in *.
  destruct (bm !! N.to_nat (j / BITS_PER_LONG)) as [w|] eqn:Hw; simpl; [|done].
  pose proof (lookup_lt_Some _ _ _ Hw) as Hlt.
  pose proof (words_zero_true _ _ _ He (N.to_nat (j / BITS_PER_LONG))) as Hz.
  revert Hw Hlt Hz. generalize (N.to_nat (j / BITS_PER_LONG)).
  intros k Hw Hlt Hz. rewrite Hz in Hw by lia. simplify_eq.
  by rewrite N.bits_0.
Qed.

(** *** Words read by the automaton *)

Lemma nfa_path_eps es i k w j :
  eps_path es i k → nfa_path es k w j → nfa_path es i w j.
Proof.
  intros Hp. revert j. induction Hp as [|e _ IH Hin Heps]; intros j Hk; [done|].
  apply IH. by eapply path_eps.
Qed.

Lemma nfa_path_nil es i j : nfa_path es i [] j ↔ eps_path es i j.
Proof.
  split.
  - intros H. remember [] as w eqn:Hw.
    induction H as [i|e w j Hin Heps _ IH|]; [constructor| |done].
    eapply eps_path_trans; [|by apply IH].
    eapply eps_next; [constructor|done..].
  - intros H. eapply nfa_path_eps; [done|constructor].
Qed.

Lemma nfa_path_read es (f : frontier) v w :
  eps_closed es f → ∀ i u j,
  nfa_path es i u j → u = v :: w → active f i →
  ∃ e, e ∈ es ∧ fires f v e ∧ nfa_path es (dst e) w j.
Proof.
  intros Hcl i u j H.
  induction H as [i|e u j Hin Heps _ IH|e u j Hin Heps Hp _]; intros Hu Hi.
  - done.
  - apply IH; [done|]. by apply Hcl.
  - simplify_eq. by exists e.
Qed.

Lemma advance_all_spec vs : ∀ pp,
  wf_policy pp → eps_closed (edges pp) (fr pp) →
  ∃ pp', advance_all pp vs = Some pp' ∧ wf_policy pp'
    ∧ edges pp' = edges pp ∧ pid pp' = pid pp
    ∧ eps_closed (edges pp) (fr pp')
    ∧ ∀ j, active (fr pp') j ↔
           ∃ i, active (fr pp) i ∧ nfa_path (edges pp) i vs j.
Proof.
  induction vs as [|v vs IH]; intros pp Hwf Hcl.
  - exists pp. split_and!; try done. intros j. split.
    + intros Hj. exists j. split; [done|constructor].
    + intros (i & Hi & Hp). apply nfa_path_nil in Hp.
      by eapply eps_closed_path.
  - destruct (advance_frontier_spec pp v Hwf)
      as (moved & pp1 & Hadv & Hwf1 & Hmoved & _ & Hact1 & Hcl1 & _).
    destruct (advance_frontier_fields _ _ _ _ Hadv) as (Hpid & _ & _ & _ & Hes).
    rewrite <- Hes in Hcl1.
    destruct (IH pp1 Hwf1 Hcl1) as (pp' & Hall & Hwf' & Hes' & Hpid' & Hcl' & Hact').
    exists pp'. simpl. rewrite Hadv. simpl.
    rewrite Hes in Hes', Hcl', Hact'. split_and!; try done; [congruence|].
    intros j. rewrite Hact'. split.
    + intros (k & Hk & Hp). apply Hact1 in Hk as (m & Hm & Hmk).
      apply Hmoved in Hm as (e & Hin & Hf & <-).
      exists (src e). split; [apply Hf|].
      destruct Hf as (Hne & <- & _). apply path_read; [done..|].
      by eapply nfa_path_eps.
    + intros (i & Hi & Hp).
      destruct (nfa_path_read _ _ _ _ Hcl _ _ _ Hp eq_refl Hi)
        as (e & Hin & Hf & Hp').
      exists (dst e). split; [|done]. apply Hact1. exists (dst e).
      split; [|constructor]. apply Hmoved. by exists e.
Qed.

(** *** Installation *)

Lemma install_result (a : install_allocs) (ub : user_blob) (tbl : table) :
  let hdr := u_hdr ub in
  let es := take (N.to_nat (b_num_edges hdr)) (u_edges ub) in
  b_num_nodes hdr ≠ 0 → b_num_edges hdr ≤ 2 ^ 20 →
  (N.to_nat (b_num_edges hdr) ≤ length (u_edges ub))%nat →
  in_range (b_num_nodes hdr) es →
  edges_ok a = true → pp_ok a = true → bitmap_ok a = true →
  ∃ start pp,
    sandbox_ioctl a IOCTL_LOAD_POLICY (Some ub) tbl
    = Some (pp :: match lookup_ppid tbl (b_pid hdr) with
                  | Some _ => hash_del tbl (b_pid hdr)
                  | None => tbl
                  end, Success)
    ∧ pid pp = b_pid hdr ∧ edges pp = es ∧ num_nodes pp = b_num_nodes hdr
    ∧ wf_policy pp
    ∧ (∀ n, active start n ↔
            if indeg_ok a then n < b_num_nodes hdr ∧ indegree es n = 0%nat
            else n = 0)
    ∧ (∀ j, active (fr pp) j ↔ ∃ i, active start i ∧ eps_path es i j)
    ∧ eps_closed es (fr pp).
Proof.
  intros hdr es Hnz Hne Hlen Hr Hae Hap Hab.
  assert (N.of_nat (length es) ≤ 2 ^ 20) as Hcap.
  { unfold es. rewrite length_take. lia. }
  destruct (init_start_set_inv (indeg_ok a) hdr es
              (frontier_init true (b_num_nodes hdr)) Hnz Hcap Hr eq_refl)
    as (start & Hstart & Hn & Hwf & Hact).
  destruct (epsilon_closure_fr_defined es start Hwf) as [f' Hf'];
    [by rewrite Hn|].
  destruct (epsilon_closure_fr_inv _ _ _ Hf')
    as (Hn' & _ & Hwf' & Hact' & Hcl & _).
  exists start.
  exists {| pid := b_pid hdr; num_nodes := b_num_nodes hdr;
            num_edges := b_num_edges hdr; id_mode := b_id_mode hdr;
            edges := es; fr := f' |}.
  split_and!; try done.
  - unfold sandbox_ioctl. rewrite N.eqb_refl. fold hdr.
    destruct (N.eqb_spec (b_num_nodes hdr) 0) as [|_]; [done|].
    destruct (N.ltb_spec (2 ^ 20) (b_num_edges hdr)) as [|_]; [lia|].
    simpl. rewrite Hae, Hap, Hab. simpl.
    rewrite decide_False by lia. fold es. rewrite Hstart. simpl.
    unfold epsilon_closure. simpl. by rewrite Hf'.
  - split_and!; simpl; [congruence|by apply Hwf'|done].
Qed.

(** *** Properties *)

(** X1.  Over a graph whose edges join valid nodes, [epsilon_closure]
    returns the frontier that holds exactly the nodes reached from an
    active node along epsilon edges; that frontier is closed under epsilon
    edges and is contained in every closed frontier that contains the one
    given. *)
Theorem epsilon_closure_reachable (pp : proc_policy) :
  wf_frontier (fr pp) → in_range (fr_num_nodes (fr pp)) (edges pp) →
  ∃ pp', epsilon_closure pp = Some pp'
    ∧ (∀ j, active (fr pp') j ↔
            ∃ i, active (fr pp) i ∧ eps_path (edges pp) i j)
    ∧ eps_closed (edges pp) (fr pp')
    ∧ ∀ g, eps_closed (edges pp) g →
           (∀ i, active (fr pp) i → active g i) →
           ∀ j, active (fr pp') j → active g j.
Proof.
  intros Hwf Hr.
  destruct (epsilon_closure_fr_defined _ _ Hwf Hr) as [f' Hf'].
  destruct (epsilon_closure_fr_inv _ _ _ Hf') as (_ & _ & _ & Hact & Hcl & _).
  exists (set_fr pp f'). unfold epsilon_closure. rewrite Hf'. simpl.
  split_and!; try done.
  intros g Hg Hsub j (i & Hi & Hp)%Hact.
  eapply eps_closed_path; [done|by apply Hsub|done].
Qed.

Lemma epsilon_closure_reachable_witness :
  ∃ pp', epsilon_closure branch_policy = Some pp'
    ∧ (∀ j, active (fr pp') j ↔
            ∃ i, active (fr branch_policy) i
                 ∧ eps_path (edges branch_policy) i j)
    ∧ eps_closed (edges branch_policy) (fr pp')
    ∧ ∀ g, eps_closed (edges branch_policy) g →
           (∀ i, active (fr branch_policy) i → active g i) →
           ∀ j, active (fr pp') j → active g j.
Proof.
  apply (epsilon_closure_reachable branch_policy).
  - by exists [1].
  - unfold in_range. simpl. repeat constructor.
Defined.

(** X2.  [epsilon_closure] is monotone: of two frontiers over the same
    edges, the closure of the smaller one is contained in the closure of
    the larger one. *)
Theorem epsilon_closure_monotone (es : list edge) (f g f' g' : frontier) :
  epsilon_closure_fr es f = Some f' → epsilon_closure_fr es g = Some g' →
  (∀ i, active f i → active g i) →
  ∀ j, active f' j → active g' j.
Proof.
  intros Hf Hg Hsub j.
  destruct (epsilon_closure_fr_inv _ _ _ Hf) as (_ & _ & _ & Hactf & _).
  destruct (epsilon_closure_fr_inv _ _ _ Hg) as (_ & _ & _ & Hactg & _).
  rewrite Hactf, Hactg. intros (i & Hi & Hp). exists i. split; [by apply Hsub|done].
Qed.

Lemma epsilon_closure_monotone_witness :
  epsilon_closure_fr branch_edges {| fr_num_nodes := 3; fr_bitmap := Some [1] |}
  = Some {| fr_num_nodes := 3; fr_bitmap := Some [7] |}
  ∧ ∀ j, active {| fr_num_nodes := 3; fr_bitmap := Some [7] |} j →
         active {| fr_num_nodes := 3; fr_bitmap := Some [7] |} j.
Proof.
  split; [reflexivity|].
  apply (epsilon_closure_monotone branch_edges
           {| fr_num_nodes := 3; fr_bitmap := Some [1] |}
           {| fr_num_nodes := 3; fr_bitmap := Some [3] |}).
  - reflexivity.
  - reflexivity.
  - intros i Hi. assert (i = 0) as ->; [|done].
    pose proof (frontier_test_capacity _ _ _ Hi) as Hc.
    unfold capacity in Hc. simpl in Hc.
    unfold active, frontier_test, test_bit, BITS_PER_LONG in Hi. simpl in Hi.
    rewrite N.div_small, N.mod_small in Hi by lia. simpl in Hi.
    injection Hi as Hb. by destruct i.
Defined.

(** X3.  The [do ... while] loop of [epsilon_closure] ends: every pass but
    the last sets a bit that was clear, so any number of passes above the
    number of clear bits of the bitmap gives the result of the function. *)
Theorem epsilon_closure_passes (es : list edge) (f : frontier) (fuel : nat) :
  (clear_bits f < fuel)%nat →
  closure_loop fuel es f = Some (epsilon_closure_fr es f).
Proof.
  intros Hlt. destruct (closure_loop_total fuel es f Hlt) as [r Hr].
  rewrite Hr. f_equal. unfold epsilon_closure_fr.
  destruct (decide (fuel ≤ S (capacity f))%nat) as [Hle|Hgt].
  - by rewrite (closure_loop_fuel _ _ _ _ _ Hr Hle).
  - destruct (closure_loop_total (S (capacity f)) es f) as [r' Hr'].
    { pose proof (clear_bits_capacity f). lia. }
    rewrite Hr'. simpl.
    rewrite (closure_loop_fuel _ fuel _ _ _ Hr') in Hr by lia. congruence.
Qed.

Lemma epsilon_closure_passes_witness :
  closure_loop 64 branch_edges (fr branch_policy)
  = Some (epsilon_closure_fr branch_edges (fr branch_policy)).
Proof.
  apply (epsilon_closure_passes branch_edges (fr branch_policy) 64).
  vm_compute. lia.
Defined.

(** X4.  The frontier follows the automaton: from a well-formed policy
    whose frontier is closed under epsilon edges, observing the markers
    [vs] one after the other leaves active exactly the nodes that the
    automaton reaches from an active node while reading [vs]. *)
Theorem observe_word (pp : proc_policy) (vs : list Z) :
  wf_policy pp → eps_closed (edges pp) (fr pp) →
  ∃ pp', advance_all pp vs = Some pp' ∧ wf_policy pp'
    ∧ edges pp' = edges pp
    ∧ ∀ j, active (fr pp') j ↔
           ∃ i, active (fr pp) i ∧ nfa_path (edges pp) i vs j.
Proof.
  intros Hwf Hcl.
  destruct (advance_all_spec vs pp Hwf Hcl) as (pp' & ? & ? & ? & _ & _ & ?).
  by exists pp'.
Qed.

Lemma linear_policy_wf p : wf_policy (linear_policy p).
Proof.
  split_and!; [done|by exists [1]|].
  unfold in_range. simpl. repeat constructor.
Qed.

Lemma linear_policy_closed p :
  eps_closed (edges (linear_policy p)) (fr (linear_policy p)).
Proof.
  intros e He Heps. simpl in He.
  apply elem_of_cons in He as [->|He]; [done|].
  apply elem_of_cons in He as [->|He]; [done|].
  by apply elem_of_nil in He.
Qed.

Lemma observe_word_witness :
  ∃ pp', advance_all (linear_policy 7) [0%Z; 1%Z] = Some pp'
    ∧ wf_policy pp' ∧ edges pp' = edges (linear_policy 7)
    ∧ ∀ j, active (fr pp') j ↔
           ∃ i, active (fr (linear_policy 7)) i
                ∧ nfa_path (edges (linear_policy 7)) i [0%Z; 1%Z] j.
Proof.
  apply (observe_word (linear_policy 7) [0%Z; 1%Z]).
  - apply linear_policy_wf.
  - apply linear_policy_closed.
Defined.

(** X5.  The marker kills exactly when no edge consumes it: with the
    scratch bitset obtained, [handler_pre] sends SIGKILL if and only if no
    non-epsilon edge that carries the marker leaves an active node. *)
Theorem killed_iff_no_edge_fires (tbl : table) (p : N) (pp : proc_policy) (v : Z) :
  lookup_ppid tbl p = Some pp → wf_policy pp →
  ∃ tbl' killed,
    handler_pre true v p tbl = Some (tbl', killed)
    ∧ (killed = true ↔ ∀ e, e ∈ edges pp → ¬ fires (fr pp) v e).
Proof.
  intros Hl Hwf.
  destruct (advance_frontier_spec pp v Hwf)
    as (moved & pp' & Hadv & Hwf' & Hmoved & _ & Hact & _ & Hempty).
  destruct (frontier_empty_defined (fr pp')) as [k Hk]; [apply Hwf'|].
  exists (tbl_store tbl pp'), k. unfold handler_pre.
  rewrite Hl, Hadv. simpl. rewrite Hk. simpl. split; [done|]. split.
  - intros -> e Hin Hf.
    apply (frontier_empty_idle (fr pp') (dst e)); [apply Hwf'|done|].
    apply Hact. exists (dst e). split; [|constructor].
    apply Hmoved. by exists e.
  - intros Hno. specialize (Hempty Hno). congruence.
Qed.

Lemma killed_iff_no_edge_fires_witness :
  ∃ tbl' killed,
    handler_pre true 5 7 [linear_policy 7] = Some (tbl', killed)
    ∧ (killed = true ↔
       ∀ e, e ∈ edges (linear_policy 7) → ¬ fires (fr (linear_policy 7)) 5 e).
Proof.
  apply (killed_iff_no_edge_fires [linear_policy 7] 7 (linear_policy 7) 5).
  - reflexivity.
  - apply linear_policy_wf.
Defined.

(** X6.  An empty frontier stays empty: once no node is active, every
    further marker leaves the frontier empty, whatever its value. *)
Theorem empty_frontier_absorbs (pp : proc_policy) (v : Z) :
  wf_policy pp → frontier_empty (fr pp) = Some true →
  ∃ pp', advance_frontier true pp v = Some pp'
         ∧ frontier_empty (fr pp') = Some true.
Proof.
  intros Hwf He.
  destruct (advance_frontier_spec pp v Hwf)
    as (moved & pp' & Hadv & _ & _ & _ & _ & _ & Hempty).
  exists pp'. split; [done|]. apply Hempty.
  intros e _ (_ & _ & Hact).
  by apply (frontier_empty_idle (fr pp) (src e)); [apply Hwf|..].
Qed.

Lemma empty_frontier_absorbs_witness :
  ∃ pp', advance_frontier true (set_fr (linear_policy 7) (frontier_init true 3)) 0
         = Some pp'
         ∧ frontier_empty (fr pp') = Some true.
Proof.
  apply (empty_frontier_absorbs
           (set_fr (linear_policy 7) (frontier_init true 3)) 0).
  - split_and!; [done|apply frontier_init_wf|].
    unfold in_range. simpl. repeat constructor.
  - reflexivity.
Defined.

(** X7.  Only nodes of the graph become active: after a step of a
    well-formed policy every active node has an index below [num_nodes]. *)
Theorem frontier_within_graph (pp : proc_policy) (v : Z) :
  wf_policy pp →
  ∃ pp', advance_frontier true pp v = Some pp'
         ∧ ∀ j, active (fr pp') j → j < num_nodes pp'.
Proof.
  intros Hwf.
  destruct (advance_frontier_spec pp v Hwf)
    as (moved & pp' & Hadv & _ & Hmoved & _ & Hact & _ & _).
  destruct (advance_frontier_fields _ _ _ _ Hadv) as (_ & Hn & _).
  exists pp'. split; [done|]. intros j (i & Hi & Hp)%Hact. rewrite Hn.
  destruct Hwf as (_ & _ & Hr). unfold in_range in Hr.
  rewrite Forall_forall in Hr.
  apply Hmoved in Hi as (e & Hin & _ & <-).
  induction Hp as [|e' _ IH Hin' _]; [by apply Hr|by apply Hr].
Qed.

Lemma frontier_within_graph_witness :
  ∃ pp', advance_frontier true (linear_policy 7) 0 = Some pp'
         ∧ ∀ j, active (fr pp') j → j < num_nodes pp'.
Proof.
  apply (frontier_within_graph (linear_policy 7) 0), linear_policy_wf.
Defined.

(** X8.  A marker of one process does not touch the policy of another:
    whatever [handler_pre] does for pid [p], the table holds the same pids
    afterwards, a lookup of any other pid gives what it gave before, and
    the policy of [p] keeps its graph. *)
Theorem handler_pre_isolation (ok : bool) (v : Z) (p : N) (tbl tbl' : table)
    (killed : bool) :
  handler_pre ok v p tbl = Some (tbl', killed) →
  pid <$> tbl' = pid <$> tbl
  ∧ (∀ q, q ≠ p → lookup_ppid tbl' q = lookup_ppid tbl q)
  ∧ ∀ pp, lookup_ppid tbl p = Some pp →
          ∃ pp', lookup_ppid tbl' p = Some pp'
                 ∧ edges pp' = edges pp ∧ num_nodes pp' = num_nodes pp
                 ∧ id_mode pp' = id_mode pp.
Proof.
  unfold handler_pre. intros H.
  destruct (lookup_ppid tbl p) as [pp|] eqn:Hl; [|by simplify_eq].
  destruct (advance_frontier ok pp v) as [pp'|] eqn:Hadv; simpl in H; [|done].
  destruct (frontier_empty (fr pp')) as [k|]; simplify_eq/=.
  destruct (advance_frontier_fields _ _ _ _ Hadv) as (Hpid & Hn & _ & Hm & Hes).
  pose proof (lookup_ppid_pid _ _ _ Hl) as Hp.
  split_and!.
  - apply tbl_store_pids.
  - intros q Hq. apply lookup_tbl_store_ne. congruence.
  - intros ? [= <-]. exists pp'. split; [|done].
    rewrite <- Hp, <- Hpid. eapply lookup_tbl_store_eq. by rewrite Hpid, Hp.
Qed.

Lemma handler_pre_isolation_witness :
  ∃ tbl',
    pid <$> tbl' = pid <$> [linear_policy 7; linear_policy 8]
    ∧ (∀ q, q ≠ 7 →
         lookup_ppid tbl' q = lookup_ppid [linear_policy 7; linear_policy 8] q)
    ∧ ∀ pp, lookup_ppid [linear_policy 7; linear_policy 8] 7 = Some pp →
            ∃ pp', lookup_ppid tbl' 7 = Some pp'
                   ∧ edges pp' = edges pp ∧ num_nodes pp' = num_nodes pp
                   ∧ id_mode pp' = id_mode pp.
Proof.
  eexists.
  apply (handler_pre_isolation true 0 7 [linear_policy 7; linear_policy 8] _ false).
  reflexivity.
Defined.

(** X9.  A request for one pid does not touch the policy of another:
    whatever [sandbox_ioctl] returns, a lookup of a pid other than the one
    named in the request gives what it gave before. *)
Theorem sandbox_ioctl_isolation (a : install_allocs) (cmd : N)
    (arg : option user_blob) (tbl tbl' : table) (r : retval) (q : N) :
  sandbox_ioctl a cmd arg tbl = Some (tbl', r) →
  (∀ ub, arg = Some ub → b_pid (u_hdr ub) ≠ q) →
  lookup_ppid tbl' q = lookup_ppid tbl q.
Proof.
  unfold sandbox_ioctl. intros H Hq.
  destruct (cmd =? IOCTL_LOAD_POLICY); [|by simplify_eq].
  destruct arg as [ub|]; [|by simplify_eq].
  specialize (Hq ub eq_refl).
  destruct (_ || _); [by simplify_eq|].
  destruct (negb (edges_ok a)); [by simplify_eq|].
  destruct (decide _); [by simplify_eq|].
  assert (lookup_ppid
            match lookup_ppid tbl (b_pid (u_hdr ub)) with
            | Some _ => hash_del tbl (b_pid (u_hdr ub))
            | None => tbl
            end q = lookup_ppid tbl q) as Hdel.
  { destruct (lookup_ppid tbl (b_pid (u_hdr ub))); [|done].
    by apply lookup_hash_del_ne. }
  destruct (negb (pp_ok a)); [by simplify_eq|].
  destruct (init_start_set _ _ _ _) as [f|]; simpl in H; [|done].
  unfold epsilon_closure in H. simpl in H.
  destruct (epsilon_closure_fr _ _) as [f'|]; simplify_eq/=.
  unfold lookup_ppid at 1. simpl.
  destruct (N.eqb_spec (b_pid (u_hdr ub)) q) as [|_]; [done|]. apply Hdel.
Qed.

Lemma sandbox_ioctl_isolation_witness :
  ∃ tbl',
    lookup_ppid tbl' 8 = lookup_ppid [linear_policy 7; linear_policy 8] 8.
Proof.
  eexists.
  apply (sandbox_ioctl_isolation all_allocated IOCTL_LOAD_POLICY
           (Some (linear_request 7)) [linear_policy 7; linear_policy 8] _
           Success 8).
  - reflexivity.
  - intros ub [= <-]. simpl. lia.
Defined.

(** X10.  A request that succeeds installs what it was given: the lookup
    of the pid returns a policy with the header's node count and id mode
    and the first [num_edges] edge records, and a table that held at most
    one policy for each pid still does. *)
Theorem install_then_lookup (a : install_allocs) (cmd : N)
    (arg : option user_blob) (tbl tbl' : table) :
  sandbox_ioctl a cmd arg tbl = Some (tbl', Success) →
  one_per_pid tbl →
  ∃ ub pp, arg = Some ub
    ∧ lookup_ppid tbl' (b_pid (u_hdr ub)) = Some pp
    ∧ pid pp = b_pid (u_hdr ub)
    ∧ num_nodes pp = b_num_nodes (u_hdr ub)
    ∧ id_mode pp = b_id_mode (u_hdr ub)
    ∧ edges pp = take (N.to_nat (b_num_edges (u_hdr ub))) (u_edges ub)
    ∧ length (edges pp) = N.to_nat (num_edges pp)
    ∧ one_per_pid tbl'.
Proof.
  unfold sandbox_ioctl. intros H Hnd.
  destruct (cmd =? IOCTL_LOAD_POLICY); [|by simplify_eq].
  destruct arg as [ub|]; [|by simplify_eq].
  destruct (_ || _); [by simplify_eq|].
  destruct (negb (edges_ok a)); [by simplify_eq|].
  destruct (decide _) as [|Hlen]; [by simplify_eq|].
  destruct (negb (pp_ok a)); [by simplify_eq|].
  destruct (init_start_set _ _ _ _) as [f|]; simpl in H; [|done].
  unfold epsilon_closure in H. simpl in H.
  destruct (epsilon_closure_fr _ _) as [f'|]; simplify_eq/=.
  eexists ub, _. split; [done|].
  split; [unfold lookup_ppid; simpl; by rewrite N.eqb_refl|].
  simpl. split_and!; try done.
  - rewrite length_take. lia.
  - unfold one_per_pid, hash_add. simpl. apply NoDup_cons. split.
    + apply lookup_ppid_absent.
      destruct (lookup_ppid tbl (b_pid (u_hdr ub))) eqn:Hl; [|done].
      by apply hash_del_gone.
    + destruct (lookup_ppid tbl (b_pid (u_hdr ub))); [|done].
      by apply hash_del_one_per_pid.
Qed.

Lemma install_then_lookup_witness :
  ∃ tbl' ub pp, Some (linear_request 7) = Some ub
    ∧ lookup_ppid tbl' (b_pid (u_hdr ub)) = Some pp
    ∧ pid pp = b_pid (u_hdr ub)
    ∧ num_nodes pp = b_num_nodes (u_hdr ub)
    ∧ id_mode pp = b_id_mode (u_hdr ub)
    ∧ edges pp = take (N.to_nat (b_num_edges (u_hdr ub))) (u_edges ub)
    ∧ length (edges pp) = N.to_nat (num_edges pp)
    ∧ one_per_pid tbl'.
Proof.
  eexists.
  apply (install_then_lookup all_allocated IOCTL_LOAD_POLICY
           (Some (linear_request 7)) [branch_policy; linear_policy 8]).
  - reflexivity.
  - unfold one_per_pid. simpl. apply NoDup_cons. split.
    + rewrite list_elem_of_singleton. lia.
    + apply NoDup_singleton.
Defined.

(** X11.  Only the failed allocation of the policy changes the table of a
    request that fails: when that allocation succeeds, a request that
    returns an error leaves the table as it was. *)
Theorem failed_request_keeps_table (a : install_allocs) (cmd : N)
    (arg : option user_blob) (tbl tbl' : table) (e : errno) :
  pp_ok a = true →
  sandbox_ioctl a cmd arg tbl = Some (tbl', Failure e) → tbl' = tbl.
Proof.
  unfold sandbox_ioctl. intros Hpp H. rewrite Hpp in H. simpl in H.
  destruct (cmd =? IOCTL_LOAD_POLICY); [|by simplify_eq].
  destruct arg as [ub|]; [|by simplify_eq].
  destruct (_ || _); [by simplify_eq|].
  destruct (negb (edges_ok a)); [by simplify_eq|].
  destruct (decide _); [by simplify_eq|].
  destruct (init_start_set _ _ _ _) as [f|]; simpl in H; [|done].
  unfold epsilon_closure in H. simpl in H.
  by destruct (epsilon_closure_fr _ _) as [f'|]; simplify_eq/=.
Qed.

Lemma failed_request_keeps_table_witness :
  [branch_policy] = [branch_policy].
Proof.
  apply (failed_request_keeps_table
           {| edges_ok := false; pp_ok := true; bitmap_ok := true;
              indeg_ok := true |}
           IOCTL_LOAD_POLICY (Some (linear_request 7))
           [branch_policy] [branch_policy] ENOMEM).
  - reflexivity.
  - reflexivity.
Defined.

(** X12.  The result of [frontier_init] is not looked at: when the bitmap
    of a new policy cannot be allocated, a request that passed the checks
    never returns [-ENOMEM]; it stops on a NULL dereference, or it installs
    a policy without a bitmap, and then the next marker of that process
    stops on the NULL dereference, with or without its scratch bitset. *)
Theorem bitmap_failure_unreported (a : install_allocs) (ub : user_blob)
    (tbl : table) :
  b_num_nodes (u_hdr ub) ≠ 0 → b_num_edges (u_hdr ub) ≤ 2 ^ 20 →
  (N.to_nat (b_num_edges (u_hdr ub)) ≤ length (u_edges ub))%nat →
  edges_ok a = true → pp_ok a = true → bitmap_ok a = false →
  sandbox_ioctl a IOCTL_LOAD_POLICY (Some ub) tbl = None
  ∨ ∃ pp tbl1,
      sandbox_ioctl a IOCTL_LOAD_POLICY (Some ub) tbl
      = Some (pp :: tbl1, Success)
      ∧ pid pp = b_pid (u_hdr ub) ∧ fr_bitmap (fr pp) = None
      ∧ ∀ ok v, handler_pre ok v (b_pid (u_hdr ub)) (pp :: tbl1) = None.
Proof.
  intros Hnz Hne Hlen Hae Hap Hab. unfold sandbox_ioctl.
  rewrite N.eqb_refl.
  destruct (N.eqb_spec (b_num_nodes (u_hdr ub)) 0) as [|_]; [done|].
  destruct (N.ltb_spec (2 ^ 20) (b_num_edges (u_hdr ub))) as [|_]; [lia|].
  simpl. rewrite Hae, Hap, Hab. simpl. rewrite decide_False by lia.
  destruct (init_start_set _ _ _ _) as [f|] eqn:Hf; simpl; [|by left].
  unfold epsilon_closure. simpl.
  destruct (epsilon_closure_fr _ f) as [f'|] eqn:Hf'; simpl; [|by left].
  right. eexists _, _. split; [done|]. simpl.
  assert (fr_bitmap f = None) as Hnull.
  { unfold init_start_set in Hf. destruct (indeg_ok a); simpl in Hf.
    - destruct (count_indeg _ _) as [indeg|]; simpl in Hf; [|done].
      revert Hf. generalize 0. generalize (N.to_nat (b_num_nodes (u_hdr ub))).
      intros todo. induction todo as [|todo IH]; intros n Hf; simpl in Hf.
      + by simplify_eq.
      + destruct (indeg !! N.to_nat n) as [c|]; simpl in Hf; [|done].
        destruct (c =? 0); [done|by eapply IH].
    - done. }
  assert (fr_bitmap f' = None) as Hnull'.
  { destruct (epsilon_closure_fr_inv _ _ _ Hf') as (_ & Hcap & _).
    unfold capacity in Hcap. rewrite Hnull in Hcap.
    destruct (fr_bitmap f') as [bm|] eqn:Hbm; [|done].
    destruct (epsilon_closure_fr_total
                (take (N.to_nat (b_num_edges (u_hdr ub))) (u_edges ub)) f)
      as (r & Hr & Heq).
    rewrite Hf' in Heq. subst r. clear -Hr Hnull Hbm. exfalso.
    revert Hr. generalize (S (capacity f)). intros fuel. revert f Hnull.
    induction fuel as [|fuel IH]; intros f Hnull Hr; [done|]. simpl in Hr.
    destruct (closure_pass _ f false) as [[f1 b]|] eqn:Hp; [|done].
    assert (fr_bitmap f1 = None) as Hnull1.
    { clear -Hp Hnull. revert Hp. generalize false.
      generalize (take (N.to_nat (b_num_edges (u_hdr ub))) (u_edges ub)).
      intros es. induction es as [|e es IH]; intros c Hp; simpl in Hp.
      - by simplify_eq.
      - destruct (is_epsilon e =? 0); [by eapply IH|].
        assert (frontier_test f (src e) = None) as Ht
          by (unfold frontier_test; by rewrite Hnull).
        by rewrite Ht in Hp. }
    destruct b; [by eapply IH|]. by simplify_eq. }
  split_and!; [done|done|]. intros ok v. unfold handler_pre, lookup_ppid.
  simpl. rewrite N.eqb_refl.
  destruct ok; unfold advance_frontier; simpl.
  - rewrite Hnull'. by destruct (move_pass _ _ _ _).
  - unfold frontier_empty. by rewrite Hnull'.
Qed.

Lemma bitmap_failure_unreported_witness :
  sandbox_ioctl
    {| edges_ok := true; pp_ok := true; bitmap_ok := false; indeg_ok := true |}
    IOCTL_LOAD_POLICY (Some cycle_request) [] = None
  ∨ ∃ pp tbl1,
      sandbox_ioctl
        {| edges_ok := true; pp_ok := true; bitmap_ok := false;
           indeg_ok := true |}
        IOCTL_LOAD_POLICY (Some cycle_request) []
      = Some (pp :: tbl1, Success)
      ∧ pid pp = b_pid (u_hdr cycle_request) ∧ fr_bitmap (fr pp) = None
      ∧ ∀ ok v, handler_pre ok v (b_pid (u_hdr cycle_request)) (pp :: tbl1) = None.
Proof.
  apply (bitmap_failure_unreported
           {| edges_ok := true; pp_ok := true; bitmap_ok := false;
              indeg_ok := true |} cycle_request []);
    try reflexivity; simpl; lia.
Defined.

(** X13.  What the engine accepts: after a request that passes the checks
    and whose edges join valid nodes, the markers [vs] leave active exactly
    the nodes that the automaton reaches while reading [vs] from a node of
    the start set (the nodes without incoming non-epsilon edge). *)
Theorem install_then_observe (a : install_allocs) (ub : user_blob)
    (tbl : table) (vs : list Z) :
  let hdr := u_hdr ub in
  let es := take (N.to_nat (b_num_edges hdr)) (u_edges ub) in
  b_num_nodes hdr ≠ 0 → b_num_edges hdr ≤ 2 ^ 20 →
  (N.to_nat (b_num_edges hdr) ≤ length (u_edges ub))%nat →
  in_range (b_num_nodes hdr) es →
  edges_ok a = true → pp_ok a = true → bitmap_ok a = true →
  indeg_ok a = true →
  ∃ pp tbl' pp',
    sandbox_ioctl a IOCTL_LOAD_POLICY (Some ub) tbl = Some (pp :: tbl', Success)
    ∧ advance_all pp vs = Some pp'
    ∧ ∀ j, active (fr pp') j ↔
           ∃ s, s < b_num_nodes hdr ∧ indegree es s = 0%nat
                ∧ nfa_path es s vs j.
Proof.
  intros hdr es Hnz Hne Hlen Hr Hae Hap Hab Hai.
  destruct (install_result a ub tbl Hnz Hne Hlen Hr Hae Hap Hab)
    as (start & pp & Hio & _ & Hes & _ & Hwf & Hstart & Hact & Hcl).
  fold hdr es in Hes, Hstart, Hact, Hcl. rewrite Hai in Hstart.
  rewrite <- Hes in Hcl.
  destruct (advance_all_spec vs pp Hwf Hcl) as (pp' & Hall & _ & _ & _ & _ & Hact').
  eexists pp, _, pp'. split; [exact Hio|]. split; [done|].
  intros j. rewrite Hact', Hes. split.
  - intros (i & (s & Hs & Hp)%Hact & Hpath). exists s.
    apply Hstart in Hs as [? ?]. split_and!; [done..|].
    by eapply nfa_path_eps.
  - intros (s & Hs & Hdeg & Hpath). exists s. split; [|done].
    apply Hact. exists s. split; [|constructor]. by apply Hstart.
Qed.

Lemma install_then_observe_witness :
  ∃ pp tbl' pp',
    sandbox_ioctl all_allocated IOCTL_LOAD_POLICY (Some (linear_request 7)) []
    = Some (pp :: tbl', Success)
    ∧ advance_all pp [0%Z] = Some pp'
    ∧ ∀ j, active (fr pp') j ↔
           ∃ s, s < 3 ∧ indegree linear_edges s = 0%nat
                ∧ nfa_path linear_edges s [0%Z] j.
Proof.
  apply (install_then_observe all_allocated (linear_request 7) [] [0%Z]);
    try reflexivity; try (simpl; lia).
  unfold in_range. simpl. repeat constructor.
Defined.

(** X14.  [frontier_clear_all] empties a frontier: afterwards no node is
    active and [frontier_empty] answers yes. *)
Theorem frontier_clear_all_empties (f : frontier) :
  wf_frontier f →
  ∃ f', frontier_clear_all f = Some f'
        ∧ fr_num_nodes f' = fr_num_nodes f ∧ wf_frontier f'
        ∧ frontier_empty f' = Some true
        ∧ ∀ j, ¬ active f' j.
Proof.
  intros (bm & Hbm & Hlen). unfold frontier_clear_all. rewrite Hbm. simpl.
  rewrite memcpy_words_same_length by (by rewrite zeroed_length). simpl.
  eexists. split; [done|]. split; [done|].
  assert (wf_frontier
            {| fr_num_nodes := fr_num_nodes f;
               fr_bitmap := Some (zeroed (BITS_TO_LONGS (fr_num_nodes f))) |})
    as Hwf by (eexists; split; [done|apply zeroed_length]).
  assert (frontier_empty
            {| fr_num_nodes := fr_num_nodes f;
               fr_bitmap := Some (zeroed (BITS_TO_LONGS (fr_num_nodes f))) |}
          = Some true) as He.
  { unfold frontier_empty. simpl. apply words_zero_zeroed. lia. }
  split_and!; [done..|]. intros j. by apply frontier_empty_idle.
Qed.

Lemma frontier_clear_all_empties_witness :
  ∃ f', frontier_clear_all (fr branch_policy) = Some f'
        ∧ fr_num_nodes f' = fr_num_nodes (fr branch_policy) ∧ wf_frontier f'
        ∧ frontier_empty f' = Some true
        ∧ ∀ j, ¬ active f' j.
Proof.
  apply (frontier_clear_all_empties (fr branch_policy)). by exists [1].
Defined.

End EngineMoreFacts.

(** ** Further properties of the extractor *)

Module PassMoreFacts.
Import Policy LibCallPass PassSpec PassFacts PassMoreSpec.

(** *** The run of the pass on one function, step by step *)

Lemma run_function_trace (o : Options) (F : Function) :
  0 < HashMod o < 2 ^ 31 →
  NoDup (bb_addr <$> f_blocks F) →
  NoDup (i_addr <$> call_sites F) →
  N.of_nat (length (call_sites F)) < 2 ^ 31 →
  let all := call_sites F in
  let bbMap := collect_calls F in
  let flat := concat ((λ kv, calls kv.2) <$> bbMap) in
  let n := length flat in
  ∃ G1 cni m' G2 st es,
    add_nodes bbMap (initial_graph o F) = (G1, cni)
    ∧ add_edges bbMap bbMap cni G1 = Some (m', G2)
    ∧ assign_loop o cni (assign_start G2) all = Some st
    ∧ export_edges (graph st) = Some es
    ∧ run_function o F = Some (policy_of o st es, graph st, markers st)
    ∧ flat.*1 ≡ₚ all ∧ n = length all
    ∧ (∀ j pr, flat !! j = Some pr → cni !! i_addr pr.1 = Some (N.of_nat j))
    ∧ nodes G1 = (λ pr, new_node (callee_name pr.2)) <$> flat
    ∧ edges_keep n G1 G2
    ∧ assigned o cni n all G2 (length all) st
    ∧ functionName G1 = f_name F.
Proof.
  intros HM Hbb Hsites Hlen all bbMap flat n.
  pose proof (collect_calls_sites F Hbb) as Hperm. fold bbMap flat all in Hperm.
  assert (NoDup ((λ pr, i_addr pr.1) <$> flat)) as Hndf.
  { replace ((λ pr, i_addr pr.1) <$> flat) with (i_addr <$> flat.*1)
      by (by rewrite <- list_fmap_compose).
    by rewrite Hperm. }
  assert (length flat = length all) as Hlf.
  { rewrite <- (length_fmap fst flat). by rewrite Hperm. }
  destruct (add_nodes bbMap (initial_graph o F)) as [G1 cni] eqn:Hadd.
  pose proof Hadd as Hflat. rewrite add_nodes_flat in Hflat. fold flat in Hflat.
  destruct (node_step_inv _ _ _ _ _ Hflat)
    as (Hn1 & Ha1 & He1 & Hb1 & Hf1 & Hm1 & _ & Hcni).
  specialize (Hcni Hndf). simpl in Hn1, Ha1, He1, Hb1, Hm1, Hcni.
  assert (∀ j pr, flat !! j = Some pr →
            cni !! i_addr pr.1 = Some (N.of_nat j)) as Hcni'.
  { intros j pr Hj. by apply Hcni. }
  assert (∀ s, s ∈ all → ∃ j c, flat !! j = Some (s, c)) as Hpos.
  { intros s Hs. rewrite <- Hperm in Hs.
    apply list_elem_of_fmap in Hs as ([s' c] & -> & Hin).
    apply list_elem_of_lookup_1 in Hin as [j Hj]. by exists j, c. }
  assert (wf_graph G1 n) as Hwf1.
  { split_and!.
    - by rewrite Hn1, length_fmap.
    - by rewrite Ha1, length_replicate.
    - intros s eids eid Hl Hin. rewrite Ha1 in Hl.
      apply lookup_replicate in Hl as [-> _]. by apply elem_of_nil in Hin. }
  assert (∀ kv, kv ∈ bbMap → indexed cni n (calls kv.2)) as Hix.
  { intros kv Hkv pr Hpr.
    assert (pr ∈ flat) as Hin.
    { apply list_elem_of_In, in_concat. exists (calls kv.2).
      split; apply list_elem_of_In; [|done].
      apply list_elem_of_fmap. by exists kv. }
    apply list_elem_of_lookup_1 in Hin as [j Hj].
    unfold index_of. rewrite (Hcni' j pr Hj). simpl.
    apply lookup_lt_Some in Hj. unfold n. lia. }
  destruct (add_edges_wf cni n bbMap bbMap G1 Hwf1 Hix)
    as (m' & G2 & Hedges & Hkeep).
  pose proof Hkeep as (Hwf2 & Hp2 & Hb2 & Hm2 & Hf2).
  assert (∀ s, s ∈ all → is_Some (lib_call s)) as Hcand.
  { intros s Hs. apply list_elem_of_In, filter_In in Hs as [_ Hs].
    by apply bool_decide_eq_true in Hs. }
  assert (∀ s, s ∈ all →
            ∃ idx, cni !! i_addr s = Some idx ∧ (N.to_nat idx < n)%nat) as Hidx.
  { intros s Hs. destruct (Hpos s Hs) as (j & c & Hj).
    exists (N.of_nat j). split; [by apply (Hcni' j (s, c))|].
    apply lookup_lt_Some in Hj. unfold n. lia. }
  assert (NoDup all) as Hnda by (by eapply NoDup_fmap_1).
  assert (∀ j1 j2 s1 s2, all !! j1 = Some s1 → all !! j2 = Some s2 →
            cni !! i_addr s1 = cni !! i_addr s2 → j1 = j2) as Hinj.
  { intros j1 j2 s1 s2 H1 H2 Heq.
    destruct (Hpos s1) as (p1 & c1 & Hp1); [by eapply list_elem_of_lookup_2|].
    destruct (Hpos s2) as (p2 & c2 & Hq2); [by eapply list_elem_of_lookup_2|].
    pose proof (Hcni' p1 (s1, c1) Hp1) as E1.
    pose proof (Hcni' p2 (s2, c2) Hq2) as E2. simpl in E1, E2.
    rewrite E1, E2 in Heq.
    assert (p1 = p2) as -> by (simplify_eq; lia). simplify_eq.
    by eapply NoDup_lookup. }
  assert (assigned o cni n all G2 0 (assign_start G2)) as Hinv0.
  { destruct Hwf2 as (Hn2 & _). unfold assigned. simpl.
    split_and!; try done.
    - rewrite Hb2, Hb1. unfold initial_graph. simpl.
      by rewrite length_replicate.
    - by rewrite Hm2, Hm1.
    - lia. }
  destruct (assign_loop_sites o cni n all G2 HM Hlen Hcand Hidx Hinj
              all [] (assign_start G2) eq_refl Hinv0) as (st & Hst & Hfin).
  assert (assign_loop o cni (assign_start G2) (concat (insts <$> f_blocks F))
          = Some st)
    as Hloop by (rewrite assign_loop_filter; exact Hst).
  pose proof Hfin as (_ & _ & Hn & Ha & He & Hf & Hp & _ & _ & Hids).
  assert (wf_graph (graph st) n) as Hwf.
  { destruct Hwf2 as (_ & Ha2 & He2). split_and!; [done|by rewrite Ha|].
    rewrite Ha, He. done. }
  destruct (export_edges_defined _ _ Hwf) as [es Hes].
  exists G1, cni, m', G2, st, es. split_and!; try done.
  unfold run_function.
  change (initBuckets _ (HashMod o)) with (initial_graph o F).
  fold bbMap. rewrite Hadd. rewrite Hedges. simpl.
  change {| uniqueIdCounter := 0; dummyCounter := 0; graph := G2;
            sites := []; markers := [] |} with (assign_start G2).
  rewrite Hloop. simpl. rewrite Hes. done.
Qed.

(** *** The record of the call sites and the marker arguments *)

Lemma assign_loop_log o cni ss : ∀ k st st',
  assign_loop o cni st ss = Some st' →
  0 < HashMod o < 2 ^ 31 →
  N.of_nat (k + length ss) < 2 ^ 31 →
  (∀ s, s ∈ ss → is_Some (lib_call s)) →
  uniqueIdCounter st = N.of_nat k → dummyCounter st = N.of_nat k →
  sites st' = sites st ++ imap (λ i, site_entry o (k + i)) ss
  ∧ markers st' = markers st ++ imap (λ i _, marker_arg o (k + i)) ss.
Proof.
  induction ss as [|s ss IH]; intros k st st' H HM Hlen Hcand Hu Hd.
  { simpl in H. simplify_eq. by rewrite !app_nil_r. }
  simpl in H.
  destruct (assign_ids o cni st s) as [st1|] eqn:H1; simpl in H; [|done].
  destruct (Hcand s) as [c Hc]; [by left|].
  simpl in Hlen. unfold assign_ids in H1. rewrite Hc in H1.
  assert ((HashMod o =? 0) = false) as Hz by (apply N.eqb_neq; lia).
  rewrite Hz in H1.
  destruct (match cni !! i_addr s with Some _ => _ | None => _ end)
    as [G'|]; simpl in H1; [|done].
  rewrite Hu, Hd in H1.
  assert (u32 (N.of_nat k + 1) = N.of_nat k + 1) as Hu32
    by (unfold u32; apply N.mod_small; lia).
  assert (N.of_nat k mod HashMod o < HashMod o) as Hdm
    by (apply N.mod_lt; lia).
  assert (N.of_nat k / HashMod o ≤ N.of_nat k) as Hdv.
  { apply N.Div0.div_le_upper_bound. nia. }
  rewrite Hu32 in H1.
  rewrite (to_int_small (N.of_nat k + 1)) in H1 by lia.
  rewrite (to_int_small (N.of_nat k mod HashMod o)) in H1 by lia.
  rewrite (to_int_small (N.of_nat k / HashMod o)) in H1 by lia.
  injection H1 as <-.
  destruct (IH (S k) _ _ H HM) as [Hs Hm]; [lia| |simpl; lia|simpl; lia|].
  { intros s' Hs'. apply Hcand. by right. }
  simpl in Hs, Hm. rewrite Hs, Hm, <- !app_assoc. simpl.
  rewrite Nat.add_0_r. split; f_equal; f_equal.
  - unfold site_entry, site_name. rewrite Hc. simpl.
    rewrite N2Z.inj_mod, N2Z.inj_div, N2Z.inj_add, nat_N_Z.
    by case_bool_decide.
  - apply imap_ext. intros i x _. simpl. f_equal. lia.
  - unfold marker_arg. case_bool_decide.
    + rewrite to_int_small by lia. lia.
    + rewrite to_int_small by lia. by rewrite N2Z.inj_mod, nat_N_Z.
  - apply imap_ext. intros i x _. simpl. f_equal. lia.
Qed.

(** *** Edges that the loops add *)

Lemma addEdge_has_edge G s d l G' id :
  addEdge G s d l = Some (G', id) →
  has_edge G' (N.to_nat s) d l
  ∧ ∀ s' d' l', has_edge G s' d' l' → has_edge G' s' d' l'.
Proof.
  unfold addEdge. intros H.
  destruct (adj G !! N.to_nat s) as [a|] eqn:Ha; simpl in H; [|done].
  destruct (nodes G !! N.to_nat s) as [nd|] eqn:Hn; simplify_eq/=.
  pose proof (lookup_lt_Some _ _ _ Ha) as Hlt. split.
  - exists (a ++ [N.of_nat (length (edges G))]), (N.of_nat (length (edges G))).
    simpl. split_and!.
    + by rewrite list_lookup_insert_eq.
    + apply elem_of_app. right. by left.
    + rewrite Nat2N.id. by rewrite list_lookup_middle.
  - intros s' d' l' (eids & eid & Hl & Hin & He). simpl.
    destruct (decide (s' = N.to_nat s)) as [->|Hne].
    + exists (a ++ [N.of_nat (length (edges G))]), eid. split_and!; simpl.
      * by rewrite list_lookup_insert_eq.
      * simplify_eq. apply elem_of_app. by left.
      * by apply lookup_app_l_Some.
    + exists eids, eid. split_and!; simpl; [|done|by apply lookup_app_l_Some].
      by rewrite list_lookup_insert_ne.
Qed.

Lemma intra_edges_has cni cs : ∀ G G',
  intra_edges cs cni G = Some G' →
  (∀ s d l, has_edge G s d l → has_edge G' s d l)
  ∧ ∀ i c1 c2, cs !! i = Some c1 → cs !! S i = Some c2 →
      has_edge G' (N.to_nat (index_of cni c1.1)) (index_of cni c2.1)
               (callee_name c1.2).
Proof.
  induction cs as [|c1 cs IH]; intros G G' H.
  { simpl in H. simplify_eq. split; [done|]. by intros []. }
  destruct cs as [|c2 cs].
  { simpl in H. simplify_eq. split; [done|]. by intros [|[]]. }
  cbn [intra_edges] in H.
  destruct (addEdge G (index_of cni c1.1) (index_of cni c2.1)
              (callee_name c1.2)) as [[G1 id]|] eqn:Hadd; simpl in H; [|done].
  destruct (addEdge_has_edge _ _ _ _ _ _ Hadd) as [Hnew Hold].
  destruct (IH _ _ H) as [Hkeep Hrest]. split.
  - intros s d l Hs. by apply Hkeep, Hold.
  - intros [|i] a b Ha Hb.
    + simpl in Ha, Hb. simplify_eq. by apply Hkeep.
    + by apply (Hrest i).
Qed.

Lemma succ_edges_has succs lst m : ∀ G G',
  succ_edges succs lst m G = Some G' →
  ∀ s d l, has_edge G s d l → has_edge G' s d l.
Proof.
  induction succs as [|Succ succs IH]; intros G G' H; [by simplify_eq/=|].
  cbn [succ_edges] in H.
  destruct (bbMap_find m Succ) as [it|]; [|by apply IH].
  case_bool_decide; [by apply IH|].
  destruct (addEdge G (exitNode lst) (entryNode it) epsilon_label)
    as [[G1 id]|] eqn:Hadd; simpl in H; [|done].
  destruct (addEdge_has_edge _ _ _ _ _ _ Hadd) as [_ Hold].
  intros s d l Hs. by apply (IH _ _ H), Hold.
Qed.

Lemma add_edges_has cni todo : ∀ m G m' G',
  add_edges todo m cni G = Some (m', G') →
  (∀ s d l, has_edge G s d l → has_edge G' s d l)
  ∧ ∀ BB lst0 i c1 c2, (BB, lst0) ∈ todo →
      calls lst0 !! i = Some c1 → calls lst0 !! S i = Some c2 →
      has_edge G' (N.to_nat (index_of cni c1.1)) (index_of cni c2.1)
               (callee_name c1.2).
Proof.
  induction todo as [|[BB lst0] todo IH]; intros m G m' G' H.
  { simpl in H. simplify_eq. split; [done|].
    intros ????? Hin. by apply elem_of_nil in Hin. }
  cbn [add_edges] in H.
  set (lst := match calls lst0, last (calls lst0) with
              | front :: _, Some back => _
              | _, _ => lst0
              end) in H.
  assert (calls lst = calls lst0) as Hcalls.
  { unfold lst. destruct (calls lst0) as [|front cs] eqn:Hc; [done|].
    by destruct (last (front :: cs)). }
  destruct (intra_edges (calls lst) cni G) as [G1|] eqn:H1; simpl in H; [|done].
  destruct (intra_edges_has _ _ _ _ H1) as [Hk1 Hnew].
  destruct (if bool_decide (calls lst = []) then Some G1
            else succ_edges (successors BB) lst (bbMap_store m BB lst) G1)
    as [G2|] eqn:H2; simpl in H; [|done].
  assert (∀ s d l, has_edge G1 s d l → has_edge G2 s d l) as Hk2.
  { case_bool_decide; [by simplify_eq|]. by eapply succ_edges_has. }
  destruct (IH _ _ _ _ H) as [Hk3 Hrest]. split.
  - intros s d l Hs. by apply Hk3, Hk2, Hk1.
  - intros B l0 i c1 c2 Hin Hi HSi.
    apply elem_of_cons in Hin as [[= -> ->]|Hin].
    + apply Hk3, Hk2. apply (Hnew i); by rewrite Hcalls.
    + by eapply Hrest.
Qed.

Lemma export_edges_has G es s d l :
  export_edges G = Some es → has_edge G s d l →
  ∃ e, e ∈ es ∧ PolicyJSON.src e = N.of_nat s ∧ PolicyJSON.dst e = d
       ∧ PolicyJSON.label e = l.
Proof.
  unfold export_edges. intros H (eids & eid & Ha & Hin & He).
  destruct (mapM _ (imap pair (adj G))) as [ess|] eqn:Hm; simplify_eq/=.
  apply mapM_Some in Hm.
  assert (imap pair (adj G) !! s = Some (s, eids)) as Hrow
    by (by rewrite list_lookup_imap, Ha).
  destruct (Forall2_lookup_l _ _ _ _ _ Hm Hrow) as (row & Hr & Hmap).
  simpl in Hmap. apply mapM_Some in Hmap.
  apply list_elem_of_lookup_1 in Hin as [k Hk].
  destruct (Forall2_lookup_l _ _ _ _ _ Hmap Hk) as (e & Hek & Hexp).
  unfold export_edge in Hexp. rewrite He in Hexp. simpl in Hexp.
  destruct (nodes G !! s) as [nd|]; simplify_eq/=.
  eexists. split.
  { apply list_elem_of_In, in_concat. exists row.
    split; apply list_elem_of_In;
      [by eapply list_elem_of_lookup_2
      |exact (list_elem_of_lookup_2 _ _ _ Hek)]. }
  done.
Qed.

Lemma export_edges_src G es e n :
  export_edges G = Some es → length (nodes G) = n → e ∈ es →
  PolicyJSON.src e < N.of_nat n
  ∧ (PolicyJSON.label e = epsilon_label →
     PolicyJSON.matchDummy e = (-1)%Z ∧ PolicyJSON.matchUnique e = (-1)%Z).
Proof.
  unfold export_edges. intros H Hn Hin.
  destruct (mapM _ (imap pair (adj G))) as [ess|] eqn:Hm; simplify_eq/=.
  apply list_elem_of_In, in_concat in Hin as (l & Hl' & Hin).
  apply list_elem_of_In in Hl', Hin.
  apply mapM_Some in Hm.
  apply list_elem_of_lookup_1 in Hl' as [i Hi].
  destruct (Forall2_lookup_r _ _ _ _ _ Hm Hi) as ([s eids] & _ & Hrow).
  simpl in Hrow. apply mapM_Some in Hrow.
  apply list_elem_of_lookup_1 in Hin as [k Hk].
  destruct (Forall2_lookup_r _ _ _ _ _ Hrow Hk) as (eid & _ & He).
  unfold export_edge in He.
  destruct (edges G !! N.to_nat eid) as [E|]; simplify_eq/=.
  destruct (nodes G !! s) as [nd|] eqn:Hnd; simplify_eq/=.
  apply lookup_lt_Some in Hnd. split; [lia|].
  intros Heps. by rewrite bool_decide_true by done.
Qed.

(** *** Functions without call sites *)

Lemma bbMap_store_quiet m BB lst :
  Forall (λ kv, calls kv.2 = []) m → calls lst = [] →
  Forall (λ kv, calls kv.2 = []) (bbMap_store m BB lst).
Proof.
  intros Hm Hl. induction m as [|[B' l'] m IH]; simpl.
  { by constructor. }
  apply Forall_cons in Hm as [H1 Hm].
  destruct (bb_addr BB <? bb_addr B'); [by repeat constructor|].
  destruct (bb_addr BB =? bb_addr B'); constructor; auto.
Qed.

Lemma collect_calls_quiet F :
  call_sites F = [] → Forall (λ kv, calls kv.2 = []) (collect_calls F).
Proof.
  intros H.
  assert (Forall (λ BB, calls (collected BB) = []) (f_blocks F)) as Hb.
  { unfold call_sites in H. rewrite <- site_pairs_sites in H.
    apply fmap_nil_inv in H. unfold site_pairs in H.
    apply Forall_forall. intros BB HBB.
    destruct (calls (collected BB)) as [|pr l] eqn:Hc; [done|]. exfalso.
    assert (pr ∈ concat ((λ BB, calls (collected BB)) <$> f_blocks F)) as Hin.
    { apply list_elem_of_In, in_concat. exists (calls (collected BB)).
      split; apply list_elem_of_In; [|rewrite Hc; by left].
      apply list_elem_of_fmap. by exists BB. }
    rewrite H in Hin. by apply elem_of_nil in Hin. }
  unfold collect_calls.
  assert (∀ bs m, Forall (λ BB, calls (collected BB) = []) bs →
            Forall (λ kv, calls kv.2 = []) m →
            Forall (λ kv, calls kv.2 = [])
              (foldl (λ m BB, bbMap_store m BB (collected BB)) m bs)) as Hfold.
  { induction bs as [|BB bs IH]; intros m Hbs Hm; [done|]. simpl.
    apply Forall_cons in Hbs as [H1 Hbs].
    apply IH; [done|]. by apply bbMap_store_quiet. }
  apply (Hfold (f_blocks F) []); [done|constructor].
Qed.

Lemma add_edges_quiet cni todo : ∀ m G,
  Forall (λ kv, calls kv.2 = []) todo →
  ∃ m', add_edges todo m cni G = Some (m', G).
Proof.
  induction todo as [|[BB lst0] todo IH]; intros m G Hq.
  { by exists m. }
  apply Forall_cons in Hq as [H1 Hq]. simpl in H1.
  cbn [add_edges]. rewrite H1. simpl. rewrite H1. simpl. apply IH, Hq.
Qed.

(** *** The map of the blocks is ordered by address *)

Lemma bbMap_store_sorted BB : ∀ bs,
  by_address bs →
  bb_addr BB ∉ bb_addr <$> bs →
  ∃ bs', bbMap_store ((λ B, (B, collected B)) <$> bs) BB (collected BB)
         = (λ B, (B, collected B)) <$> bs'
         ∧ bs' ≡ₚ BB :: bs
         ∧ by_address bs'.
Proof.
  induction bs as [|B' bs IH]; intros Hs Hnot.
  { exists [BB]. split_and!; [done|done|by repeat constructor]. }
  destruct Hs as [Hall Hs].
  rewrite fmap_cons, not_elem_of_cons in Hnot. destruct Hnot as [Hne Hnot].
  cbn [fmap list_fmap bbMap_store].
  destruct (N.ltb_spec (bb_addr BB) (bb_addr B')) as [Hlt|Hge].
  - exists (BB :: B' :: bs). split_and!; [done|done|].
    split; [|by split]. constructor; [done|].
    eapply Forall_impl; [exact Hall|]. simpl. intros x Hx. lia.
  - destruct (N.eqb_spec (bb_addr BB) (bb_addr B')) as [?|_]; [done|].
    destruct (IH Hs Hnot) as (bs' & -> & Hperm & Hs').
    exists (B' :: bs'). split_and!; [done| |].
    + rewrite Hperm. apply Permutation_swap.
    + split; [|done]. rewrite Hperm. constructor; [lia|done].
Qed.

Lemma collect_calls_sorted F :
  NoDup (bb_addr <$> f_blocks F) →
  ∃ bs, collect_calls F = (λ B, (B, collected B)) <$> bs
        ∧ bs ≡ₚ f_blocks F
        ∧ by_address bs.
Proof.
  intros Hnd. unfold collect_calls.
  assert (∀ todo bs,
            NoDup ((bb_addr <$> todo) ++ (bb_addr <$> bs)) →
            by_address bs →
            ∃ bs', foldl (λ m BB, bbMap_store m BB (collected BB))
                     ((λ B, (B, collected B)) <$> bs) todo
                   = (λ B, (B, collected B)) <$> bs'
                   ∧ bs' ≡ₚ todo ++ bs
                   ∧ by_address bs')
    as Hfold.
  { induction todo as [|BB todo IH]; intros bs Hn Hs.
    { by exists bs. }
    simpl in Hn. apply NoDup_cons in Hn as [Hnot Hn].
    rewrite not_elem_of_app in Hnot. destruct Hnot as [Hnot1 Hnot2].
    destruct (bbMap_store_sorted BB bs Hs Hnot2) as (bs1 & E & Hp1 & Hs1).
    simpl. rewrite E.
    destruct (IH bs1) as (bs' & E' & Hp' & Hs'); [|done|].
    { rewrite Hp1. simpl. rewrite <- Permutation_middle.
      apply NoDup_cons. split; [|done]. by rewrite not_elem_of_app. }
    exists bs'. split_and!; [done| |done].
    rewrite Hp', Hp1. by rewrite <- Permutation_middle. }
  destruct (Hfold (f_blocks F) []) as (bs & E & Hp & Hs);
    [by rewrite app_nil_r|done|].
  exists bs. split_and!; [done| |done]. by rewrite app_nil_r in Hp.
Qed.

(** *** The edges to the successors *)

Lemma by_address_app l1 l2 :
  by_address (l1 ++ l2) ↔
  by_address l1 ∧ by_address l2
  ∧ ∀ a b, a ∈ l1 → b ∈ l2 → bb_addr a < bb_addr b.
Proof.
  induction l1 as [|x l1 IH]; simpl.
  { split; [intros H|by intros (_ & H & _)]. split_and!; [done|done|].
    intros a b Ha. by apply elem_of_nil in Ha. }
  rewrite IH, Forall_app, !Forall_forall. split.
  - intros ((H1 & H2) & H3 & H4 & H5). split_and!; try done.
    intros a b [->|Ha]%elem_of_cons Hb; [by apply H2|by apply H5].
  - intros ((H1 & H2) & H3 & H4). split_and!; try done.
    + intros b Hb. apply H4; [by left|done].
    + intros a b Ha Hb. apply H4; [by right|done].
Qed.

Lemma bbMap_store_replace A x lst post : ∀ pre,
  Forall (λ kv : BasicBlock * BBCallList, bb_addr kv.1 < bb_addr A) pre →
  bbMap_store (pre ++ (A, x) :: post) A lst = pre ++ (A, lst) :: post.
Proof.
  induction pre as [|[B' l'] pre IH]; intros Hpre; simpl.
  - assert ((bb_addr A <? bb_addr A) = false) as -> by (apply N.ltb_ge; lia).
    by rewrite N.eqb_refl.
  - apply Forall_cons in Hpre as [Hlt Hpre]. simpl in Hlt.
    assert ((bb_addr A <? bb_addr B') = false) as -> by (apply N.ltb_ge; lia).
    assert ((bb_addr A =? bb_addr B') = false) as -> by (apply N.eqb_neq; lia).
    by rewrite IH.
Qed.

Lemma bbMap_find_sorted (val : BasicBlock → BBCallList) S : ∀ bs,
  by_address bs → S ∈ bs →
  bbMap_find ((λ B, (B, val B)) <$> bs) (bb_addr S) = Some (val S).
Proof.
  unfold bbMap_find. induction bs as [|B bs IH]; intros Hs Hin.
  { by apply elem_of_nil in Hin. }
  destruct Hs as [Hall Hs]. simpl.
  apply elem_of_cons in Hin as [->|Hin].
  - by rewrite N.eqb_refl.
  - rewrite Forall_forall in Hall. specialize (Hall S Hin).
    assert ((bb_addr B =? bb_addr S) = false) as -> by (apply N.eqb_neq; lia).
    by apply IH.
Qed.

Lemma succ_edges_adds succs lst m : ∀ G G',
  succ_edges succs lst m G = Some G' →
  ∀ Succ it, Succ ∈ succs → bbMap_find m Succ = Some it → calls it ≠ [] →
    has_edge G' (N.to_nat (exitNode lst)) (entryNode it) epsilon_label.
Proof.
  induction succs as [|X succs IH]; intros G G' H Succ it Hin Hfind Hne.
  { by apply elem_of_nil in Hin. }
  cbn [succ_edges] in H.
  apply elem_of_cons in Hin as [->|Hin].
  - rewrite Hfind in H. rewrite bool_decide_false in H by done.
    destruct (addEdge G (exitNode lst) (entryNode it) epsilon_label)
      as [[G1 id]|] eqn:Hadd; simpl in H; [|done].
    destruct (addEdge_has_edge _ _ _ _ _ _ Hadd) as [Hnew _].
    by apply (succ_edges_has _ _ _ _ _ H).
  - destruct (bbMap_find m X) as [it'|]; [|by eapply IH].
    case_bool_decide; [by eapply IH|].
    destruct (addEdge G (exitNode lst) (entryNode it') epsilon_label)
      as [[G1 id]|]; simpl in H; [|done].
    by eapply IH.
Qed.

Lemma visited_calls cni B : calls (visited cni B) = calls (collected B).
Proof.
  unfold visited. destruct (calls (collected B)) as [|front cs] eqn:Hc; [done|].
  by destruct (last (front :: cs)).
Qed.

Lemma add_edges_successors cni : ∀ rest done_ G m' G',
  by_address (done_ ++ rest) →
  add_edges ((λ B, (B, collected B)) <$> rest)
            (((λ B, (B, visited cni B)) <$> done_)
             ++ ((λ B, (B, collected B)) <$> rest)) cni G = Some (m', G') →
  ∀ A S, A ∈ rest → S ∈ done_ ++ rest →
    bb_addr S ∈ successors A →
    calls (collected A) ≠ [] → calls (collected S) ≠ [] →
    has_edge G' (N.to_nat (exitNode (visited cni A)))
             (entryNode (entry_at cni A S)) epsilon_label.
Proof.
  induction rest as [|B rest IH]; intros done_ G m' G' Hs H A S HA HS Hsucc HcA HcS.
  { by apply elem_of_nil in HA. }
  rewrite fmap_cons in H. cbn [add_edges] in H.
  change (match calls (collected B), last (calls (collected B)) with
          | front :: _, Some back =>
            {| calls := calls (collected B);
               entryNode := index_of cni front.1;
               exitNode := index_of cni back.1 |}
          | _, _ => collected B
          end) with (visited cni B) in H.
  pose proof Hs as (Hd & (HB & Hr) & Hlt)%by_address_app.
  rewrite bbMap_store_replace in H.
  2:{ apply Forall_fmap, Forall_forall. intros x Hx. simpl.
      apply Hlt; [done|by left]. }
  destruct (intra_edges (calls (visited cni B)) cni G) as [G1|] eqn:H1;
    simpl in H; [|done].
  destruct (if bool_decide (calls (visited cni B) = []) then Some G1
            else succ_edges (successors B) (visited cni B)
                   (((λ B, (B, visited cni B)) <$> done_)
                    ++ (B, visited cni B) :: ((λ B, (B, collected B)) <$> rest))
                   G1) as [G2|] eqn:H2; simpl in H; [|done].
  assert (((λ B0, (B0, visited cni B0)) <$> done_)
          ++ (B, visited cni B) :: ((λ B0, (B0, collected B0)) <$> rest)
          = ((λ B0, (B0, visited cni B0)) <$> (done_ ++ [B]))
            ++ ((λ B0, (B0, collected B0)) <$> rest)) as Em.
  { rewrite fmap_app, <- app_assoc. done. }
  rewrite Em in H.
  assert (by_address ((done_ ++ [B]) ++ rest)) as Hs'
    by (by rewrite <- app_assoc).
  destruct (add_edges_has _ _ _ _ _ _ H) as [Hkeep _].
  apply elem_of_cons in HA as [->|HA].
  - apply Hkeep. rewrite bool_decide_false in H2
      by (by rewrite visited_calls).
    assert (((λ B0, (B0, visited cni B0)) <$> done_)
            ++ (B, visited cni B) :: ((λ B0, (B0, collected B0)) <$> rest)
            = (λ B0, (B0, entry_at cni B B0)) <$> (done_ ++ B :: rest)) as Ev.
    { rewrite fmap_app, fmap_cons. f_equal; [|f_equal].
      - apply list_fmap_ext. intros i x Hx. unfold entry_at.
        rewrite decide_True; [done|].
        apply list_elem_of_lookup_2 in Hx.
        assert (bb_addr x < bb_addr B); [|lia]. apply Hlt; [done|by left].
      - unfold entry_at. by rewrite decide_True by lia.
      - apply list_fmap_ext. intros i x Hx. unfold entry_at.
        rewrite decide_False; [done|].
        apply list_elem_of_lookup_2 in Hx. rewrite Forall_forall in HB.
        specialize (HB x Hx). lia. }
    rewrite Ev in H2.
    eapply succ_edges_adds; [exact H2|exact Hsucc| |].
    + by apply bbMap_find_sorted.
    + unfold entry_at. destruct (decide _); [by rewrite visited_calls|done].
  - eapply (IH (done_ ++ [B])); try done. by rewrite <- app_assoc.
Qed.

(** *** Properties *)

(** X15.  The record of the call sites: for a function whose blocks and
    call sites are distinct objects, with fewer than 2^31 call sites and a
    modulus between 1 and 2^31 - 1, [callsInOrder] holds one entry for each
    call site, in program order; the entry of the [k]-th call site has the
    callee's name, the dummy identifier [k mod M], the reset count [k / M],
    and the unique identifier [k + 1] in unique mode and -1 otherwise. *)
Theorem calls_in_order_law (o : Options) (F : Function) :
  0 < HashMod o < 2 ^ 31 →
  NoDup (bb_addr <$> f_blocks F) →
  NoDup (i_addr <$> call_sites F) →
  N.of_nat (length (call_sites F)) < 2 ^ 31 →
  ∃ fp G ms,
    run_function o F = Some (fp, G, ms)
    ∧ PolicyJSON.callsInOrder fp = imap (site_entry o) (call_sites F).
Proof.
  intros HM Hbb Hsites Hlen.
  destruct (run_function_trace o F HM Hbb Hsites Hlen)
    as (G1 & cni & m' & G2 & st & es & _ & _ & Hloop & _ & Hrun & _).
  eexists _, _, _. split; [exact Hrun|]. simpl.
  destruct (assign_loop_log o cni (call_sites F) 0 _ _ Hloop HM) as [Hs _];
    [done| |done|done|done].
  intros s Hs. apply list_elem_of_In, filter_In in Hs as [_ Hs].
  by apply bool_decide_eq_true in Hs.
Qed.

Lemma calls_in_order_law_witness :
  ∃ fp G ms,
    run_function dummy_mode linear_function = Some (fp, G, ms)
    ∧ PolicyJSON.callsInOrder fp
      = imap (site_entry dummy_mode) (call_sites linear_function).
Proof.
  apply (calls_in_order_law dummy_mode linear_function).
  - by vm_compute.
  - apply (bool_decide_unpack _). by vm_compute.
  - apply (bool_decide_unpack _). by vm_compute.
  - by vm_compute.
Defined.

(** X16.  The markers: for a function whose blocks and call sites are
    distinct objects, with fewer than 2^31 call sites and a modulus [M]
    between 1 and 2^31 - 1, the pass inserts one marker call for each call
    site, in program order, and the argument of the [k]-th one is [k + 1]
    in unique mode and [k mod M] otherwise. *)
Theorem marker_arguments (o : Options) (F : Function) :
  0 < HashMod o < 2 ^ 31 →
  NoDup (bb_addr <$> f_blocks F) →
  NoDup (i_addr <$> call_sites F) →
  N.of_nat (length (call_sites F)) < 2 ^ 31 →
  ∃ fp G ms,
    run_function o F = Some (fp, G, ms)
    ∧ ms = imap (λ k _, marker_arg o k) (call_sites F).
Proof.
  intros HM Hbb Hsites Hlen.
  destruct (run_function_trace o F HM Hbb Hsites Hlen)
    as (G1 & cni & m' & G2 & st & es & _ & _ & Hloop & _ & Hrun & _).
  eexists _, _, _. split; [exact Hrun|].
  destruct (assign_loop_log o cni (call_sites F) 0 _ _ Hloop HM) as [_ Hm];
    [done| |done|done|done].
  intros s Hs. apply list_elem_of_In, filter_In in Hs as [_ Hs].
  by apply bool_decide_eq_true in Hs.
Qed.

Lemma marker_arguments_witness :
  ∃ fp G ms,
    run_function unique_mode linear_function = Some (fp, G, ms)
    ∧ ms = imap (λ k _, marker_arg unique_mode k) (call_sites linear_function).
Proof.
  apply (marker_arguments unique_mode linear_function).
  - by vm_compute.
  - apply (bool_decide_unpack _). by vm_compute.
  - apply (bool_decide_unpack _). by vm_compute.
  - by vm_compute.
Defined.

(** X17.  Two call sites that follow one another in a block are linked:
    for a function whose blocks and call sites are distinct objects, with
    fewer than 2^31 call sites and a modulus between 1 and 2^31 - 1, the
    artifact has an edge from the node of
    the first to the node of the second (the nodes being told by their
    unique identifiers, [k + 1] for the [k]-th call site of the function),
    labelled with the callee of the first; unless that name is the epsilon
    label, the edge carries both identifiers of the first call site. *)
Theorem consecutive_sites_linked (o : Options) (F : Function) :
  0 < HashMod o < 2 ^ 31 →
  NoDup (bb_addr <$> f_blocks F) →
  NoDup (i_addr <$> call_sites F) →
  N.of_nat (length (call_sites F)) < 2 ^ 31 →
  ∃ fp G ms,
    run_function o F = Some (fp, G, ms)
    ∧ ∀ BB i s1 c1 s2 c2 k1 k2,
        BB ∈ f_blocks F →
        calls (collected BB) !! i = Some (s1, c1) →
        calls (collected BB) !! S i = Some (s2, c2) →
        call_sites F !! k1 = Some s1 → call_sites F !! k2 = Some s2 →
        ∃ e, e ∈ PolicyJSON.edges fp
          ∧ PolicyJSON.label e = callee_name c1
          ∧ PolicyJSON.nodeUniqueIDs fp !! N.to_nat (PolicyJSON.src e)
            = Some (Z.of_nat k1 + 1)%Z
          ∧ PolicyJSON.nodeUniqueIDs fp !! N.to_nat (PolicyJSON.dst e)
            = Some (Z.of_nat k2 + 1)%Z
          ∧ (callee_name c1 ≠ epsilon_label →
             PolicyJSON.matchDummy e = (Z.of_nat k1 mod Z.of_N (HashMod o))%Z
             ∧ PolicyJSON.matchUnique e = (Z.of_nat k1 + 1)%Z).
Proof.
  intros HM Hbb Hsites Hlen.
  destruct (run_function_trace o F HM Hbb Hsites Hlen)
    as (G1 & cni & m' & G2 & st & es & _ & Hedges & _ & Hes & Hrun
        & Hperm & Hn & Hcni & _ & _ & Hfin & _).
  eexists _, _, _. split; [exact Hrun|].
  intros BB i s1 c1 s2 c2 k1 k2 HBB H1 H2 Hk1 Hk2.
  destruct (add_edges_has _ _ _ _ _ _ Hedges) as [_ Hhas].
  assert ((BB, collected BB) ∈ collect_calls F) as Hin.
  { rewrite (collect_calls_perm F Hbb). apply list_elem_of_fmap. by exists BB. }
  specialize (Hhas BB (collected BB) i (s1, c1) (s2, c2) Hin H1 H2).
  simpl in Hhas.
  destruct Hfin as (_ & _ & _ & Ha & He & _ & _ & _ & _ & Hids).
  assert (has_edge (graph st) (N.to_nat (index_of cni s1)) (index_of cni s2)
            (callee_name c1)) as Hhas'.
  { destruct Hhas as (eids & eid & ? & ? & ?). exists eids, eid.
    by rewrite Ha, He. }
  destruct (export_edges_has _ _ _ _ _ Hes Hhas') as (e & Hine & Hsrc & Hdst & Hl).
  assert (∀ s c j, (BB, collected BB) ∈ collect_calls F →
            calls (collected BB) !! j = Some (s, c) →
            ∃ p, cni !! i_addr s = Some (N.of_nat p)) as Hnode.
  { intros s c j _ Hj.
    assert ((s, c) ∈ concat ((λ kv, calls kv.2) <$> collect_calls F)) as Hf.
    { apply list_elem_of_In, in_concat. exists (calls (collected BB)).
      split; apply list_elem_of_In; [|by eapply list_elem_of_lookup_2].
      apply list_elem_of_fmap. by exists (BB, collected BB). }
    apply list_elem_of_lookup_1 in Hf as [p Hp]. exists p.
    by apply (Hcni p (s, c)). }
  destruct (Hnode s1 c1 i Hin H1) as (p1 & Hp1).
  destruct (Hnode s2 c2 (S i) Hin H2) as (p2 & Hp2).
  destruct (Hids k1 s1 _ (lookup_lt_Some _ _ _ Hk1) Hk1 Hp1)
    as (nd1 & Hnd1 & Hd1 & Hu1).
  destruct (Hids k2 s2 _ (lookup_lt_Some _ _ _ Hk2) Hk2 Hp2)
    as (nd2 & Hnd2 & Hd2 & Hu2).
  unfold index_of in Hsrc, Hdst. rewrite Hp1 in Hsrc. rewrite Hp2 in Hdst.
  simpl in Hsrc, Hdst.
  exists e. simpl. split_and!; [done|done| | |].
  - rewrite Hsrc, N2Nat.id, list_lookup_fmap, Hnd1. simpl. by rewrite Hu1.
  - rewrite Hdst, list_lookup_fmap, Hnd2. simpl. by rewrite Hu2.
  - intros Hne.
    destruct (export_edges_match _ _ _ Hes Hine) as [Hmd Hmu]; [by rewrite Hl|].
    rewrite Hsrc, N2Nat.id, list_lookup_fmap, Hnd1 in Hmd, Hmu.
    simpl in Hmd, Hmu. simplify_eq. by rewrite <- Hd1, <- Hu1.
Qed.

Lemma consecutive_sites_linked_witness :
  ∃ fp G ms,
    run_function dummy_mode linear_function = Some (fp, G, ms)
    ∧ ∀ BB i s1 c1 s2 c2 k1 k2,
        BB ∈ f_blocks linear_function →
        calls (collected BB) !! i = Some (s1, c1) →
        calls (collected BB) !! S i = Some (s2, c2) →
        call_sites linear_function !! k1 = Some s1 →
        call_sites linear_function !! k2 = Some s2 →
        ∃ e, e ∈ PolicyJSON.edges fp
          ∧ PolicyJSON.label e = callee_name c1
          ∧ PolicyJSON.nodeUniqueIDs fp !! N.to_nat (PolicyJSON.src e)
            = Some (Z.of_nat k1 + 1)%Z
          ∧ PolicyJSON.nodeUniqueIDs fp !! N.to_nat (PolicyJSON.dst e)
            = Some (Z.of_nat k2 + 1)%Z
          ∧ (callee_name c1 ≠ epsilon_label →
             PolicyJSON.matchDummy e
             = (Z.of_nat k1 mod Z.of_N (HashMod dummy_mode))%Z
             ∧ PolicyJSON.matchUnique e = (Z.of_nat k1 + 1)%Z).
Proof.
  apply (consecutive_sites_linked dummy_mode linear_function).
  - by vm_compute.
  - apply (bool_decide_unpack _). by vm_compute.
  - apply (bool_decide_unpack _). by vm_compute.
  - by vm_compute.
Defined.

(** X18.  The source of every edge is a node: for a function whose
    blocks and call sites are distinct objects, with fewer than 2^31 call
    sites and a modulus between 1 and 2^31 - 1, every edge of the artifact
    leaves a node whose index is below the
    number of nodes, which is the number of call sites; an edge with the
    epsilon label has -1 in both match fields. *)
Theorem exported_edges_leave_nodes (o : Options) (F : Function) :
  0 < HashMod o < 2 ^ 31 →
  NoDup (bb_addr <$> f_blocks F) →
  NoDup (i_addr <$> call_sites F) →
  N.of_nat (length (call_sites F)) < 2 ^ 31 →
  ∃ fp G ms,
    run_function o F = Some (fp, G, ms)
    ∧ length (PolicyJSON.nodeLabels fp) = length (call_sites F)
    ∧ ∀ e, e ∈ PolicyJSON.edges fp →
        PolicyJSON.src e < N.of_nat (length (PolicyJSON.nodeLabels fp))
        ∧ (PolicyJSON.label e = epsilon_label →
           PolicyJSON.matchDummy e = (-1)%Z
           ∧ PolicyJSON.matchUnique e = (-1)%Z).
Proof.
  intros HM Hbb Hsites Hlen.
  destruct (run_function_trace o F HM Hbb Hsites Hlen)
    as (G1 & cni & m' & G2 & st & es & _ & _ & _ & Hes & Hrun
        & _ & Hn & _ & _ & _ & Hfin & _).
  destruct Hfin as (_ & _ & Hnodes & _).
  eexists _, _, _. split; [exact Hrun|]. simpl. rewrite length_fmap.
  split; [congruence|]. intros e He. by eapply export_edges_src.
Qed.

Lemma exported_edges_leave_nodes_witness :
  ∃ fp G ms,
    run_function dummy_mode (readme_function 1 2 3) = Some (fp, G, ms)
    ∧ length (PolicyJSON.nodeLabels fp)
      = length (call_sites (readme_function 1 2 3))
    ∧ ∀ e, e ∈ PolicyJSON.edges fp →
        PolicyJSON.src e < N.of_nat (length (PolicyJSON.nodeLabels fp))
        ∧ (PolicyJSON.label e = epsilon_label →
           PolicyJSON.matchDummy e = (-1)%Z
           ∧ PolicyJSON.matchUnique e = (-1)%Z).
Proof.
  apply (exported_edges_leave_nodes dummy_mode (readme_function 1 2 3)).
  - by vm_compute.
  - apply (bool_decide_unpack _). by vm_compute.
  - apply (bool_decide_unpack _). by vm_compute.
  - by vm_compute.
Defined.

(** X26.  A function without call sites gets an empty policy, whatever the
    options: no entry in [callsInOrder], no node, no edge and no marker;
    the modulus is not used, so even a modulus of zero does no harm. *)
Theorem no_call_sites_empty_policy (o : Options) (F : Function) :
  call_sites F = [] →
  run_function o F
  = Some ({| PolicyJSON.functionName := f_name F;
             PolicyJSON.callsInOrder := [];
             PolicyJSON.mod_ := HashMod o;
             PolicyJSON.idMode := IdModeOpt o;
             PolicyJSON.nodeLabels := [];
             PolicyJSON.nodeDummyIDs := [];
             PolicyJSON.nodeUniqueIDs := [];
             PolicyJSON.edges := [] |}, initial_graph o F, []).
Proof.
  intros Hq. pose proof (collect_calls_quiet F Hq) as Hall.
  unfold run_function.
  change (initBuckets _ (HashMod o)) with (initial_graph o F).
  assert (add_nodes (collect_calls F) (initial_graph o F)
          = (initial_graph o F, ∅)) as ->.
  { rewrite add_nodes_flat.
    assert (concat ((λ kv, calls kv.2) <$> collect_calls F) = []) as ->; [|done].
    induction Hall as [|kv m Hkv _ IH]; [done|].
    rewrite fmap_cons. cbn [concat]. by rewrite Hkv, IH. }
  destruct (add_edges_quiet ∅ (collect_calls F) (collect_calls F)
              (initial_graph o F) Hall) as [m' ->].
  cbn [mbind option_bind]. rewrite assign_loop_filter.
  fold (call_sites F). rewrite Hq. done.
Qed.

Lemma no_call_sites_empty_policy_witness :
  run_function (mkOptions 0 "dummy") quiet_function
  = Some ({| PolicyJSON.functionName := f_name quiet_function;
             PolicyJSON.callsInOrder := [];
             PolicyJSON.mod_ := 0;
             PolicyJSON.idMode := "dummy";
             PolicyJSON.nodeLabels := [];
             PolicyJSON.nodeDummyIDs := [];
             PolicyJSON.nodeUniqueIDs := [];
             PolicyJSON.edges := [] |},
          initial_graph (mkOptions 0 "dummy") quiet_function, []).
Proof.
  apply (no_call_sites_empty_policy (mkOptions 0 "dummy") quiet_function).
  reflexivity.
Defined.

(** X27.  One policy for each function with a body: when the modulus is
    between 1 and 2^31 - 1 and every function with a body has distinct
    blocks, distinct call sites and fewer than 2^31 of them, [run] writes
    the serialization of one
    policy per function that is not a declaration, in module order; each
    carries the name of its function, the modulus and the id mode of the
    options, and as many entries in [callsInOrder] as the function has
    call sites. *)
Theorem one_policy_per_function (o : Options) (M : list Function) :
  0 < HashMod o < 2 ^ 31 →
  Forall (λ F, f_isDeclaration F = false →
               NoDup (bb_addr <$> f_blocks F)
               ∧ NoDup (i_addr <$> call_sites F)
               ∧ N.of_nat (length (call_sites F)) < 2 ^ 31) M →
  ∃ fps,
    run_policies o M = Some fps
    ∧ run o M = Some (PolicyJSON.serialize fps)
    ∧ Forall2 (λ F fp,
                 PolicyJSON.functionName fp = f_name F
                 ∧ PolicyJSON.mod_ fp = HashMod o
                 ∧ PolicyJSON.idMode fp = IdModeOpt o
                 ∧ length (PolicyJSON.callsInOrder fp) = length (call_sites F))
              (List.filter (λ F, negb (f_isDeclaration F)) M) fps.
Proof.
  intros HM Hall. unfold run, run_policies.
  assert (∃ fps,
            Forall2 (λ F fp,
                       (r ← run_function o F; Some r.1.1) = Some fp
                       ∧ PolicyJSON.functionName fp = f_name F
                       ∧ PolicyJSON.mod_ fp = HashMod o
                       ∧ PolicyJSON.idMode fp = IdModeOpt o
                       ∧ length (PolicyJSON.callsInOrder fp)
                         = length (call_sites F))
                    (List.filter (λ F, negb (f_isDeclaration F)) M) fps)
    as [fps Hfps].
  { induction Hall as [|F M HF _ IH]; [by exists []|]. simpl.
    destruct IH as [fps IH].
    destruct (f_isDeclaration F) eqn:Hd; simpl; [by exists fps|].
    destruct (HF eq_refl) as (Hbb & Hsites & Hlen).
    destruct (run_function_trace o F HM Hbb Hsites Hlen)
      as (G1 & cni & m' & G2 & st & es & _ & _ & Hloop & _ & Hrun
          & _ & _ & _ & _ & Hkeep & Hfin & Hname).
    exists (policy_of o st es :: fps). constructor; [|done].
    rewrite Hrun. simpl. split_and!; try done.
    - destruct Hfin as (_ & _ & _ & _ & _ & -> & _).
      destruct Hkeep as (_ & _ & _ & _ & ->). done.
    - destruct (assign_loop_log o cni (call_sites F) 0 _ _ Hloop HM)
        as [-> _]; [done| |done|done|].
      + intros s Hs. apply list_elem_of_In, filter_In in Hs as [_ Hs].
        by apply bool_decide_eq_true in Hs.
      + simpl. by rewrite length_imap. }
  exists fps.
  assert (mapM (λ F, r ← run_function o F; Some r.1.1)
               (List.filter (λ F, negb (f_isDeclaration F)) M) = Some fps) as E.
  { apply mapM_Some. eapply Forall2_impl; [exact Hfps|]. by intros ?? [? _]. }
  rewrite E. split_and!; [done|done|].
  eapply Forall2_impl; [exact Hfps|]. by intros ?? [_ ?].
Qed.

Lemma one_policy_per_function_witness :
  ∃ fps,
    run_policies dummy_mode sample_module = Some fps
    ∧ run dummy_mode sample_module = Some (PolicyJSON.serialize fps)
    ∧ Forall2 (λ F fp,
                 PolicyJSON.functionName fp = f_name F
                 ∧ PolicyJSON.mod_ fp = HashMod dummy_mode
                 ∧ PolicyJSON.idMode fp = IdModeOpt dummy_mode
                 ∧ length (PolicyJSON.callsInOrder fp) = length (call_sites F))
              (List.filter (λ F, negb (f_isDeclaration F)) sample_module) fps.
Proof.
  apply (one_policy_per_function dummy_mode sample_module).
  - by vm_compute.
  - repeat constructor; try done; try (apply (bool_decide_unpack _); by vm_compute).
Defined.

(** X28.  The nodes are numbered in the order of the addresses of the
    blocks: for a function whose blocks and call sites are distinct
    objects, with fewer than 2^31 call sites and a modulus between 1 and
    2^31 - 1, the node labels are the callees of
    the call sites taken block by block, the blocks in increasing order of
    their addresses (the order of the map keyed by block pointers), and
    inside a block in program order. *)
Theorem nodes_follow_block_addresses (o : Options) (F : Function) :
  0 < HashMod o < 2 ^ 31 →
  NoDup (bb_addr <$> f_blocks F) →
  NoDup (i_addr <$> call_sites F) →
  N.of_nat (length (call_sites F)) < 2 ^ 31 →
  ∃ fp G ms bs,
    run_function o F = Some (fp, G, ms)
    ∧ bs ≡ₚ f_blocks F
    ∧ by_address bs
    ∧ PolicyJSON.nodeLabels fp = (λ pr, callee_name pr.2) <$> site_pairs bs.
Proof.
  intros HM Hbb Hsites Hlen.
  destruct (run_function_trace o F HM Hbb Hsites Hlen)
    as (G1 & cni & m' & G2 & st & es & _ & _ & _ & _ & Hrun
        & _ & _ & _ & Hnodes & Hkeep & Hfin & _).
  destruct (collect_calls_sorted F Hbb) as (bs & E & Hperm & Hsorted).
  eexists _, _, _, bs. split; [exact Hrun|]. split_and!; [done|done|].
  simpl. destruct Hfin as (_ & _ & _ & _ & _ & _ & -> & _).
  destruct Hkeep as (_ & -> & _). rewrite Hnodes, E.
  rewrite <- list_fmap_compose. unfold site_pairs.
  by rewrite <- list_fmap_compose.
Qed.

Lemma nodes_follow_block_addresses_witness :
  ∃ fp G ms bs,
    run_function dummy_mode (readme_function 3 2 1) = Some (fp, G, ms)
    ∧ bs ≡ₚ f_blocks (readme_function 3 2 1)
    ∧ by_address bs
    ∧ PolicyJSON.nodeLabels fp = (λ pr, callee_name pr.2) <$> site_pairs bs.
Proof.
  apply (nodes_follow_block_addresses dummy_mode (readme_function 3 2 1)).
  - by vm_compute.
  - apply (bool_decide_unpack _). by vm_compute.
  - apply (bool_decide_unpack _). by vm_compute.
  - by vm_compute.
Defined.

(** X29.  The edges to the successors: for a function whose blocks and
    call sites are distinct objects, with fewer than 2^31 call sites and a
    modulus between 1 and 2^31 - 1, and for a block [A] with call sites
    and a successor [S] of [A] with call sites,
    the artifact has an edge with the epsilon label, -1 in both match
    fields, that leaves the node of the last call site of [A]; it enters
    the node of the first call site of [S] when the address of [S] is not
    above that of [A], and otherwise its target is [SIZE_MAX], the value
    that [entryNode] has before the loop has visited [S]. *)
Theorem successor_edges (o : Options) (F : Function) :
  0 < HashMod o < 2 ^ 31 →
  NoDup (bb_addr <$> f_blocks F) →
  NoDup (i_addr <$> call_sites F) →
  N.of_nat (length (call_sites F)) < 2 ^ 31 →
  ∃ fp G ms,
    run_function o F = Some (fp, G, ms)
    ∧ ∀ A S sa ca ss cs ka ks,
        A ∈ f_blocks F → S ∈ f_blocks F → bb_addr S ∈ successors A →
        last (calls (collected A)) = Some (sa, ca) →
        head (calls (collected S)) = Some (ss, cs) →
        call_sites F !! ka = Some sa → call_sites F !! ks = Some ss →
        ∃ e, e ∈ PolicyJSON.edges fp
          ∧ PolicyJSON.label e = epsilon_label
          ∧ PolicyJSON.matchDummy e = (-1)%Z
          ∧ PolicyJSON.matchUnique e = (-1)%Z
          ∧ PolicyJSON.nodeUniqueIDs fp !! N.to_nat (PolicyJSON.src e)
            = Some (Z.of_nat ka + 1)%Z
          ∧ if decide (bb_addr S ≤ bb_addr A)
            then PolicyJSON.nodeUniqueIDs fp !! N.to_nat (PolicyJSON.dst e)
                 = Some (Z.of_nat ks + 1)%Z
            else PolicyJSON.dst e = SIZE_MAX.
Proof.
  intros HM Hbb Hsites Hlen.
  destruct (run_function_trace o F HM Hbb Hsites Hlen)
    as (G1 & cni & m' & G2 & st & es & _ & Hedges & _ & Hes & Hrun
        & Hperm & Hn & Hcni & _ & _ & Hfin & _).
  destruct (collect_calls_sorted F Hbb) as (bs & E & Hpb & Hsorted).
  eexists _, _, _. split; [exact Hrun|].
  intros A S sa ca ss cs ka ks HA HS Hsucc Hlast Hhead Hka Hks.
  rewrite E in Hedges.
  assert (calls (collected A) ≠ []) as HcA by (by intros Hnil; rewrite Hnil in Hlast).
  assert (calls (collected S) ≠ []) as HcS by (by intros Hnil; rewrite Hnil in Hhead).
  rewrite <- Hpb in HA, HS.
  pose proof (add_edges_successors cni bs [] G1 m' G2 Hsorted Hedges
                A S HA HS Hsucc HcA HcS) as Hhas.
  assert (exitNode (visited cni A) = index_of cni sa) as Hexit.
  { unfold visited. destruct (calls (collected A)) as [|front rest]; [done|].
    by rewrite Hlast. }
  assert (entryNode (visited cni S) = index_of cni ss) as Hentry.
  { unfold visited.
    destruct (calls (collected S)) as [|front rest] eqn:Hc; [done|].
    destruct (last (front :: rest)) as [back|] eqn:Hb;
      [|by apply last_None in Hb].
    simpl in Hhead. by simplify_eq. }
  rewrite Hexit in Hhas.
  destruct Hfin as (_ & _ & Hnodes & Ha & He & _ & _ & _ & _ & Hids).
  assert (has_edge (graph st) (N.to_nat (index_of cni sa))
            (entryNode (entry_at cni A S)) epsilon_label) as Hhas'.
  { destruct Hhas as (eids & eid & ? & ? & ?). exists eids, eid.
    by rewrite Ha, He. }
  destruct (export_edges_has _ _ _ _ _ Hes Hhas') as (e & Hine & Hsrc & Hdst & Hl).
  destruct (export_edges_src _ _ _ _ Hes Hnodes Hine) as [_ Heps].
  destruct (Heps Hl) as [Hmd Hmu].
  assert (∀ B s c, B ∈ bs → (s, c) ∈ calls (collected B) →
            ∃ p, cni !! i_addr s = Some (N.of_nat p)) as Hnode.
  { intros B s c HB Hin.
    assert ((s, c) ∈ concat ((λ kv, calls kv.2) <$> collect_calls F)) as Hf.
    { apply list_elem_of_In, in_concat. exists (calls (collected B)).
      split; apply list_elem_of_In; [|done].
      apply list_elem_of_fmap. exists (B, collected B). split; [done|].
      rewrite E. apply list_elem_of_fmap. by exists B. }
    apply list_elem_of_lookup_1 in Hf as [p Hp]. exists p.
    by apply (Hcni p (s, c)). }
  destruct (Hnode A sa ca HA) as (pa & Hpa).
  { apply last_Some in Hlast as [l' ->]. apply elem_of_app. right. by left. }
  destruct (Hids ka sa _ (lookup_lt_Some _ _ _ Hka) Hka Hpa)
    as (nda & Hnda & _ & Hua).
  unfold index_of in Hsrc. rewrite Hpa in Hsrc. simpl in Hsrc.
  exists e. simpl. split_and!; [done|done|done|done| |].
  - rewrite Hsrc, N2Nat.id, list_lookup_fmap, Hnda. simpl. by rewrite Hua.
  - unfold entry_at in Hdst. destruct (decide (bb_addr S ≤ bb_addr A)).
    + rewrite Hentry in Hdst.
      destruct (Hnode S ss cs HS) as (ps & Hps).
      { destruct (calls (collected S)) as [|front rest]; [done|].
        simpl in Hhead. simplify_eq. by left. }
      destruct (Hids ks ss _ (lookup_lt_Some _ _ _ Hks) Hks Hps)
        as (nds & Hnds & _ & Hus).
      unfold index_of in Hdst. rewrite Hps in Hdst. simpl in Hdst.
      rewrite Hdst, list_lookup_fmap, Hnds. simpl. by rewrite Hus.
    + done.
Qed.

Lemma successor_edges_witness :
  ∃ fp G ms,
    run_function dummy_mode (readme_function 1 2 3) = Some (fp, G, ms)
    ∧ ∀ A S sa ca ss cs ka ks,
        A ∈ f_blocks (readme_function 1 2 3) →
        S ∈ f_blocks (readme_function 1 2 3) →
        bb_addr S ∈ successors A →
        last (calls (collected A)) = Some (sa, ca) →
        head (calls (collected S)) = Some (ss, cs) →
        call_sites (readme_function 1 2 3) !! ka = Some sa →
        call_sites (readme_function 1 2 3) !! ks = Some ss →
        ∃ e, e ∈ PolicyJSON.edges fp
          ∧ PolicyJSON.label e = epsilon_label
          ∧ PolicyJSON.matchDummy e = (-1)%Z
          ∧ PolicyJSON.matchUnique e = (-1)%Z
          ∧ PolicyJSON.nodeUniqueIDs fp !! N.to_nat (PolicyJSON.src e)
            = Some (Z.of_nat ka + 1)%Z
          ∧ if decide (bb_addr S ≤ bb_addr A)
            then PolicyJSON.nodeUniqueIDs fp !! N.to_nat (PolicyJSON.dst e)
                 = Some (Z.of_nat ks + 1)%Z
            else PolicyJSON.dst e = SIZE_MAX.
Proof.
  apply (successor_edges dummy_mode (readme_function 1 2 3)).
  - by vm_compute.
  - apply (bool_decide_unpack _). by vm_compute.
  - apply (bool_decide_unpack _). by vm_compute.
  - by vm_compute.
Defined.

End PassMoreFacts.

(** ** Further properties of the loader *)

Module LoaderMoreFacts.
Import Policy LibCallPass PassSpec StringFacts Loader LoaderSpec LoaderFacts
  LoaderMoreSpec.

Local Open Scope string_scope.
Local Open Scope nat_scope.
Local Arguments String.append !_ _ / : simpl nomatch.

(** *** Strings as lists of characters *)

Lemma chars_skip n : ∀ s, chars (skip n s) = drop n (chars s).
Proof.
  induction n as [|n IH]; intros [|c s]; simpl; done.
Qed.

Lemma chars_take_str n : ∀ s, chars (take_str n s) = take n (chars s).
Proof.
  induction n as [|n IH]; intros [|c s]; simpl; try done.
  unfold chars in *. simpl. by rewrite IH.
Qed.

Lemma chars_length s : length (chars s) = String.length s.
Proof. induction s as [|c s IH]; simpl; [done|]. unfold chars in *. simpl. by rewrite IH. Qed.

Lemma count_char_occurrences c text a b :
  count_char c text a b = N.of_nat (occurrences c (chars text) a b).
Proof.
  unfold count_char, occurrences. f_equal. f_equal. f_equal.
  fold (chars (take_str (b - a) (skip a text))).
  by rewrite chars_take_str, chars_skip.
Qed.

Lemma find_char_hit c : ∀ s k,
  find_char c s = Some k → chars s !! k = Some c.
Proof.
  induction s as [|a s IH]; intros k H; simpl in H; [done|].
  destruct (Ascii.eqb_spec a c) as [->|Hne].
  - by simplify_eq.
  - destruct (find_char c s) as [k'|]; simplify_eq/=. by apply IH.
Qed.

Lemma strchr_hit text p c q :
  strchr text p c = Some q → p ≤ q ∧ chars text !! q = Some c.
Proof.
  unfold strchr. intros H.
  destruct (find_char c (skip p text)) as [k|] eqn:Hk; simplify_eq/=.
  split; [lia|]. apply find_char_hit in Hk.
  by rewrite chars_skip, lookup_drop in Hk.
Qed.

(** *** Counting the opening braces *)

Lemma occurrences_step c l a b :
  occurrences c l (S a) b ≤ occurrences c l a b.
Proof.
  unfold occurrences. destruct (l !! a) as [x|] eqn:Hx.
  - rewrite (drop_S _ _ _ Hx). destruct (decide (b ≤ a)) as [Hle|Hgt].
    + replace (b - a) with 0 by lia. replace (b - S a) with 0 by lia. done.
    + replace (b - a) with (S (b - S a)) by lia. simpl.
      destruct (Ascii.eqb x c); simpl; lia.
  - apply lookup_ge_None in Hx. rewrite !drop_ge by lia. by rewrite !take_nil.
Qed.

Lemma occurrences_mono c l a a' b :
  a ≤ a' → occurrences c l a' b ≤ occurrences c l a b.
Proof.
  induction 1 as [|a' _ IH]; [done|].
  etrans; [apply occurrences_step|done].
Qed.

Lemma occurrences_hit c l q b :
  l !! q = Some c → q < b →
  S (occurrences c l (S q) b) ≤ occurrences c l q b.
Proof.
  intros Hq Hlt. unfold occurrences. rewrite (drop_S _ _ _ Hq).
  replace (b - q) with (S (b - S q)) by lia. simpl.
  by rewrite Ascii.eqb_refl.
Qed.

Lemma parse_loop_bound text end_ mode : ∀ fuel cur,
  occurrences "{" (chars text) cur end_ < fuel →
  ∃ parsed, parse_loop fuel text cur end_ mode = Some parsed
            ∧ length parsed ≤ occurrences "{" (chars text) cur end_.
Proof.
  induction fuel as [|fuel IH]; intros cur Hlt; [lia|]. simpl.
  destruct (cur <? end_); [|exists []; split; [done|simpl; lia]].
  destruct (strchr text cur "{") as [es|] eqn:Hes;
    [|exists []; split; [done|simpl; lia]].
  destruct (Nat.leb_spec end_ es) as [|Hlt'];
    [exists []; split; [done|simpl; lia]|].
  destruct (strchr text es "}") as [ee|] eqn:Hee;
    [|exists []; split; [done|simpl; lia]].
  apply strchr_hit in Hes as [Hle Hc]. apply strchr_hit in Hee as [Hle' _].
  pose proof (occurrences_hit "{" _ es end_ Hc Hlt') as H1.
  pose proof (occurrences_mono "{" (chars text) cur es end_ Hle) as H2.
  pose proof (occurrences_mono "{" (chars text) (S es) (ee + 1) end_) as H3.
  destruct (IH (ee + 1)) as (rest & -> & Hrest); [lia|].
  eexists. split; [done|]. simpl. lia.
Qed.

Lemma parse_loop_within_array_aux text start end_ mode :
  ∃ parsed,
    parse_loop (S (N.to_nat (count_char "{" text start end_)))
               text start end_ mode = Some parsed
    ∧ length parsed ≤ N.to_nat (count_char "{" text start end_).
Proof.
  rewrite count_char_occurrences, Nat2N.id.
  apply parse_loop_bound. lia.
Qed.

(** *** Values *)

Lemma take_str_length n : ∀ s, String.length (take_str n s) ≤ n.
Proof.
  induction n as [|n IH]; intros [|c s]; simpl; try lia.
  specialize (IH s). lia.
Qed.

Lemma find_sub_prefix key rest : find_sub key (key ++ rest) = Some 0.
Proof.
  apply find_sub_first; [|lia]. rewrite skip_0. apply prefix_iff. by exists rest.
Qed.

Lemma find_char_colon a b :
  colon_free a = true → find_char ":" (a ++ String ":" b) = Some (String.length a).
Proof.
  induction a as [|x a IH]; simpl; [done|].
  intros [Hx Ha]%andb_true_iff. apply negb_true_iff in Hx. rewrite Hx.
  by rewrite (IH Ha).
Qed.

Lemma skip_spaces_blank ws rest :
  blank ws = true → skip_spaces (ws ++ rest) = skip_spaces rest.
Proof.
  induction ws as [|c ws IH]; simpl; [done|].
  intros [Hc Hws]%andb_true_iff. rewrite Hc. by apply IH.
Qed.

(** *** The argument loop *)

Lemma parse_args_id_mode : ∀ n args o o',
  length args ≤ n → parse_args args o = Some o' →
  opt_id_mode o' = opt_id_mode o ∨ opt_id_mode o' = 1%Z.
Proof.
  induction n as [|n IH]; intros args o o' Hn H.
  { destruct args; [|simpl in Hn; lia]. simpl in H. simplify_eq. by left. }
  destruct args as [|a rest]; [simpl in H; simplify_eq; by left|].
  simpl in Hn. cbn [parse_args] in H. destruct rest as [|v rest'].
  - destruct (String.eqb a "--unique");
      [|destruct (String.eqb a "-h" || String.eqb a "--help"); [done|]];
      simpl in H; simplify_eq; [by right|by left].
  - simpl in Hn.
    repeat match type of H with
           | (if ?c then _ else _) = _ => destruct c
           end; try done;
      (apply IH in H; [|simpl; lia]); simpl in H; destruct H; auto.
Qed.

Lemma seek_edges_None n : ∀ json p d,
  seek_edges n json p = None → seek_edges (n + d) json p = None.
Proof.
  induction n as [|n IH]; intros json p d H; [done|]. simpl in *.
  destruct (strstr json p _) as [p'|]; simpl in *; [|done]. by apply IH.
Qed.

(** *** Decimal numbers *)

Lemma digits_uint d : ∀ acc,
  digits acc (NilEmpty.string_of_uint d) = uint_acc d acc.
Proof.
  induction d; intros acc; simpl; try done; by rewrite IHd.
Qed.

Lemma uint_acc_value d : ∀ acc,
  uint_acc d acc
  = (Z.of_N (DecimalPos.Unsigned.of_lu (Decimal.rev d))
     + acc * 10 ^ Z.of_N (DecimalPos.Unsigned.usize d))%Z.
Proof.
  induction d; intros acc; [simpl; lia|..]; simpl uint_acc; rewrite IHd;
    match goal with
    | |- context [Decimal.rev (?D d)] =>
      change (Decimal.rev (D d)) with (Decimal.revapp d (D Decimal.Nil));
      rewrite (DecimalPos.Unsigned.of_lu_revapp d (D Decimal.Nil))
    end;
    simpl DecimalPos.Unsigned.usize; simpl DecimalPos.Unsigned.of_lu;
    rewrite N2Z.inj_succ, Z.pow_succ_r by lia;
    rewrite N2Z.inj_add, N2Z.inj_mul, N2Z.inj_pow;
    set (P := (Z.of_N 10 ^ Z.of_N (DecimalPos.Unsigned.usize d))%Z);
    change (10 ^ Z.of_N (DecimalPos.Unsigned.usize d))%Z with P;
    simpl Z.of_N; ring.
Qed.

Lemma digits_show_N n : digits 0 (show_N n) = Z.of_N n.
Proof.
  unfold show_N. rewrite digits_uint, uint_acc_value.
  rewrite <- DecimalPos.Unsigned.of_uint_alt.
  change (Pos.of_uint (N.to_uint n)) with (N.of_uint (N.to_uint n)).
  rewrite DecimalN.Unsigned.of_to. lia.
Qed.

Lemma all_chars_impl (P R : ascii → bool) s :
  (∀ x, P x = true → R x = true) → all_chars P s = true → all_chars R s = true.
Proof.
  intros H. induction s as [|c s IH]; simpl; [done|].
  intros [Hc Hs]%andb_true_iff. by rewrite (H c Hc), IH.
Qed.

Lemma all_chars_app P s t :
  all_chars P (s ++ t) = all_chars P s && all_chars P t.
Proof. induction s as [|c s IH]; simpl; [done|]. by rewrite IH, andb_assoc. Qed.

Lemma digits_only_uint d : all_chars isdigit (NilEmpty.string_of_uint d) = true.
Proof. induction d; simpl; done. Qed.

Lemma uint_nonempty n : ∃ c s, show_N n = String c s.
Proof.
  unfold show_N. destruct n as [|p]; [by eexists _, _|]. simpl.
  pose proof (DecimalPos.Unsigned.to_uint_nonnil p) as Hn.
  destruct (Pos.to_uint p); simpl; try done; by eexists _, _.
Qed.

Lemma number_text_show_N n : number_text (show_N n).
Proof.
  destruct (uint_nonempty n) as (c & s & E).
  pose proof (digits_only_uint (N.to_uint n)) as Hd.
  fold (show_N n) in Hd. rewrite E in Hd. simpl in Hd.
  apply andb_true_iff in Hd as [Hc Hs].
  exists c, s. by rewrite Hc.
Qed.

Lemma number_text_show_Z z : number_text (show_Z z).
Proof.
  unfold show_Z. destruct z as [|p|p]; simpl.
  - by eexists _, _.
  - apply (number_text_show_N (N.pos p)).
  - eexists _, _. split; [done|]. split; [done|]. apply digits_only_uint.
Qed.

Lemma isdigit_not c x :
  isdigit c = false → isdigit x = true → negb (Ascii.eqb x c) = true.
Proof.
  intros Hc Hx. destruct (Ascii.eqb_spec x c) as [->|]; [congruence|done].
Qed.

Lemma number_text_lacks c s :
  isdigit c = false → c ≠ "-"%char → number_text s → lacks c s = true.
Proof.
  intros Hc Hm (a & s' & -> & Ha & Hs). unfold lacks. simpl.
  apply andb_true_iff. split.
  - apply orb_true_iff in Ha as [Ha|Ha]; [by apply isdigit_not|].
    apply Ascii.eqb_eq in Ha as ->.
    destruct (Ascii.eqb_spec "-" c); [congruence|done].
  - eapply all_chars_impl; [|exact Hs]. intros x. by apply isdigit_not.
Qed.

Lemma atoi_show_N n : atoi (show_N n) = c_int (Z.of_N n).
Proof.
  rewrite <- digits_show_N.
  destruct (number_text_show_N n) as (c & s & E & Hc & Hs).
  pose proof (digits_only_uint (N.to_uint n)) as Hd.
  fold (show_N n) in Hd. rewrite E in *. simpl in Hd.
  apply andb_true_iff in Hd as [Hd _].
  unfold atoi, strtol, c_int. do 3 f_equal. cbn [skip_spaces].
  assert (isspace c = false) as ->.
  { destruct (isspace c) eqn:Hsp; [|done]. exfalso.
    unfold isspace, isdigit in *.
    repeat match goal with
           | H : _ && _ = true |- _ => apply andb_true_iff in H as [? ?]
           | H : _ || _ = true |- _ => apply orb_true_iff in H as [?|?]
           | H : (_ =? _) = true |- _ => apply Nat.eqb_eq in H
           | H : (_ <=? _) = true |- _ => apply Nat.leb_le in H
           end; lia. }
  destruct (Ascii.eqb_spec c "-") as [->|_]; [done|].
  destruct (Ascii.eqb_spec c "+") as [->|_]; [done|]. done.
Qed.

Lemma atoi_show_Z z : atoi (show_Z z) = c_int z.
Proof.
  destruct z as [|p|p]; [done|apply (atoi_show_N (N.pos p))|].
  unfold show_Z. simpl. unfold atoi, strtol, c_int. do 3 f_equal.
  cbn [skip_spaces isspace]. simpl.
  change (NilEmpty.string_of_uint (Pos.to_uint p)) with (show_N (N.pos p)).
  by rewrite digits_show_N.
Qed.

(** Numbers that fit the fields of the record come back as they are. *)
Lemma c_int_small z : (- 2 ^ 31 ≤ z < 2 ^ 31)%Z → c_int z = z.
Proof.
  intros H. unfold c_int, int_of_long, LONG_MIN, LONG_MAX.
  rewrite Z.min_r, Z.max_r by lia.
  rewrite Z.mod_small by lia. lia.
Qed.

Lemma to_u32_c_int n : (n < 2 ^ 32)%N → to_u32 (c_int (Z.of_N n)) = n.
Proof.
  intros H. unfold to_u32, c_int, int_of_long, LONG_MIN, LONG_MAX.
  rewrite Z.min_r, Z.max_r by lia.
  rewrite Zminus_mod_idemp_l.
  replace (Z.of_N n + 2 ^ 31 - 2 ^ 31)%Z with (Z.of_N n) by lia.
  rewrite Z.mod_small by lia. lia.
Qed.

(** Numbers outside the range of an [int]: [strtol] stops at the ends of
    the range of a [long], and the conversion keeps the low 32 bits. *)
Example atoi_out_of_range :
  atoi "2147483648" = (-2147483648)%Z
  ∧ atoi "-4294967289" = 7%Z
  ∧ atoi "9223372036854775808" = (-1)%Z
  ∧ to_u32 (atoi "9223372036854775808") = 4294967295%N.
Proof. by vm_compute. Qed.

(** A pid beyond the range of an [int] is taken modulo 2^32. *)
Example pid_wraps :
  opt_pid <$> parse_args ["-p"; "-4294967289"] (mkOptions (-1) None 0 0)
  = Some 7%Z.
Proof. by vm_compute. Qed.

(** The loader reads a file up to its first zero byte. *)
Example zero_byte_ends_text :
  c_str ("ab" ++ String Ascii.zero "cd") = "ab"
  ∧ main sample_argv (willing_world "policy.json" sample_artifact) = Some 0%Z
  ∧ main sample_argv
      (willing_world "policy.json" (String Ascii.zero sample_artifact))
    = Some 1%Z.
Proof. by vm_compute. Qed.

(** *** Searches that pass over a text *)

Lemma find_sub_here needle s :
  String.prefix needle s = true → find_sub needle s = Some 0.
Proof. intros H. destruct s; simpl in *; by rewrite H. Qed.

Lemma find_sub_next needle c s :
  String.prefix needle (String c s) = false →
  find_sub needle (String c s) = S <$> find_sub needle s.
Proof. intros H. simpl in *. by rewrite H. Qed.

Lemma find_sub_lacks h n a s :
  lacks h a = true →
  find_sub (String h n) (a ++ s)
  = (λ k, String.length a + k) <$> find_sub (String h n) s.
Proof.
  unfold lacks. induction a as [|x a IH]; simpl.
  { intros _. by destruct (find_sub _ s). }
  intros [Hx Ha]%andb_true_iff. apply negb_true_iff, Ascii.eqb_neq in Hx.
  destruct (ascii_dec h x) as [->|_]; [done|].
  rewrite (IH Ha). by destruct (find_sub _ s).
Qed.

Lemma find_char_next c x s :
  Ascii.eqb x c = false → find_char c (String x s) = S <$> find_char c s.
Proof. intros H. simpl. by rewrite H. Qed.

Lemma find_char_lacks c a s :
  lacks c a = true →
  find_char c (a ++ s) = (λ k, String.length a + k) <$> find_char c s.
Proof.
  unfold lacks. induction a as [|x a IH]; simpl.
  { intros _. by destruct (find_char c s). }
  intros [Hx Ha]%andb_true_iff. apply negb_true_iff in Hx. rewrite Hx.
  rewrite (IH Ha). by destruct (find_char c s).
Qed.

Lemma skip_len_app a s k : skip (String.length a + k) (a ++ s) = skip k s.
Proof. by rewrite skip_add, skip_app. Qed.

Lemma take_str_all s : ∀ n, String.length s ≤ n → take_str n s = s.
Proof.
  induction s as [|c s IH]; intros [|n] H; simpl in *; try done; [lia|].
  rewrite IH; [done|lia].
Qed.

Lemma take_str_short n : ∀ s,
  String.length (take_str n s) < n → take_str n s = s.
Proof.
  induction n as [|n IH]; intros [|c s] H; simpl in *; try done; [lia|].
  rewrite IH; [done|lia].
Qed.

Lemma all_chars_take_str P n : ∀ s,
  all_chars P s = true → all_chars P (take_str n s) = true.
Proof.
  induction n as [|n IH]; intros [|c s]; simpl; try done.
  intros [-> Hs]%andb_true_iff. by apply IH.
Qed.

Lemma take_until_stop stop a c s :
  all_chars (λ x, negb (stop x)) a = true → stop c = true →
  take_until stop (a ++ String c s) = a.
Proof.
  intros Ha Hc. induction a as [|x a IH]; simpl in *; [by rewrite Hc|].
  apply andb_true_iff in Ha as [Hx Ha]. apply negb_true_iff in Hx.
  by rewrite Hx, IH.
Qed.

(** *** The values that [find_value] reads *)

Lemma find_value_raw X key n p c :
  find_sub key X = Some p → find_char ":" (skip p X) = Some c →
  find_value X key n
  = Some (take_str (n - 1) (raw_value (skip_spaces (skip (S c) (skip p X))))).
Proof. intros Hp Hc. unfold find_value. rewrite Hp. simpl. rewrite Hc. done. Qed.

Lemma raw_value_number v c rest :
  number_text v → (c = "," ∨ c = "}")%char →
  raw_value (skip_spaces (v ++ String c rest)) = v.
Proof.
  intros (a & s & -> & Ha & Hs) Hc. simpl.
  assert (isspace a = false) as ->.
  { destruct (isspace a) eqn:Hsp; [|done]. exfalso.
    apply orb_true_iff in Ha as [Ha|Ha];
      [|apply Ascii.eqb_eq in Ha as ->; done].
    unfold isspace, isdigit in *.
    repeat match goal with
           | H : _ && _ = true |- _ => apply andb_true_iff in H as [? ?]
           | H : _ || _ = true |- _ => apply orb_true_iff in H as [?|?]
           | H : (_ =? _) = true |- _ => apply Nat.eqb_eq in H
           | H : (_ <=? _) = true |- _ => apply Nat.leb_le in H
           end; lia. }
  unfold raw_value.
  assert (∀ x, (isdigit x || Ascii.eqb x "-") = true →
            (Ascii.eqb x dquote = false)
            ∧ (Ascii.eqb x "," || Ascii.eqb x "]" || Ascii.eqb x "}") = false)
    as Hplain.
  { intros x [Hx|Hx]%orb_true_iff.
    - split; [by destruct (Ascii.eqb_spec x dquote) as [->|]|].
      destruct (Ascii.eqb_spec x ",") as [->|]; [done|].
      destruct (Ascii.eqb_spec x "]") as [->|]; [done|].
      by destruct (Ascii.eqb_spec x "}") as [->|].
    - apply Ascii.eqb_eq in Hx as ->. done. }
  destruct (Hplain a Ha) as [-> Hd]. simpl. rewrite Hd. f_equal.
  apply take_until_stop.
  - eapply all_chars_impl; [|exact Hs]. intros x Hx.
    destruct (Hplain x) as [_ ->]; [by rewrite Hx|done].
  - by destruct Hc as [-> | ->].
Qed.

Lemma quote_free_lacks s : quote_free s = true → lacks dquote s = true.
Proof. unfold lacks. induction s as [|c s IH]; simpl; [done|]. intros [-> Hs]%andb_true_iff. by apply IH. Qed.

Lemma raw_value_string v rest :
  quote_free v = true →
  raw_value (skip_spaces (String dquote (v ++ String dquote rest))) = v.
Proof.
  intros Hq. simpl. apply take_until_stop; [|done].
  apply quote_free_lacks in Hq. unfold lacks in Hq.
  eapply all_chars_impl; [|exact Hq]. done.
Qed.

(** Two texts that agree up to their first double quote. *)
Lemma first_quote_split a b x y :
  quote_free a = true → quote_free b = true →
  a ++ String dquote x = b ++ String dquote y → a = b.
Proof.
  revert b. induction a as [|c a IH]; intros [|d b] Ha Hb E; simpl in *.
  - done.
  - injection E as <- _. by rewrite Ascii.eqb_refl in Hb.
  - injection E as -> _. by rewrite Ascii.eqb_refl in Ha.
  - injection E as -> E.
    apply andb_true_iff in Ha as [_ Ha]. apply andb_true_iff in Hb as [_ Hb].
    f_equal. by apply IH.
Qed.

Lemma prefix_quoted_other k lab r s :
  quote_free k = true → quote_free lab = true → lab ≠ k →
  String.prefix (String dquote (k ++ String dquote r))
                (String dquote (lab ++ String dquote s)) = false.
Proof.
  intros Hk Hl Hne.
  destruct (String.prefix _ _) eqn:Hp; [|done]. exfalso.
  apply prefix_iff in Hp as [t Ht]. simpl in Ht. injection Ht as Ht.
  rewrite append_assoc in Ht. simpl in Ht.
  apply Hne. by eapply first_quote_split.
Qed.

(** *** The fields of an edge object *)

Lemma edge_field_shift pre T ee key :
  edge_field (pre ++ T) (String.length pre) ee key
  = k ← find_sub (Q ++ key ++ Q) T;
    if String.length pre + k <? ee then find_value (skip k T) key 64 else None.
Proof.
  unfold edge_field, strstr. rewrite skip_app.
  destruct (find_sub _ T) as [k|]; simpl; [|done].
  by rewrite skip_len_app.
Qed.

Ltac hunt :=
  repeat first
    [ rewrite find_sub_here by reflexivity
    | rewrite find_sub_next by reflexivity
    | rewrite find_sub_lacks by assumption
    | rewrite find_char_next by reflexivity
    | rewrite find_char_lacks by assumption ].

Ltac feed H :=
  repeat match type of H with
         | ?P → _ =>
           let h := fresh in
           assert P as h by assumption; specialize (H h); clear h
         end.

Ltac walk := repeat first [ progress simpl skip | rewrite skip_len_app ].

Section object.
Context (n1 n2 lab z1 z2 post : string).
Hypothesis Hn1 : number_text n1.
Hypothesis Hn2 : number_text n2.
Hypothesis Hz1 : number_text z1.
Hypothesis Hz2 : number_text z2.
Hypothesis Hlab : quote_free lab = true.
Hypothesis Hbrace : lacks "}" lab = true.
Hypothesis Hkey1 : lab ≠ "matchDummy".
Hypothesis Hkey2 : lab ≠ "matchUnique".
Hypothesis Hs1 : String.length n1 < 64.
Hypothesis Hs2 : String.length n2 < 64.
Hypothesis Hs3 : String.length z1 < 64.
Hypothesis Hs4 : String.length z2 < 64.

Local Abbreviation T := (edge_text n1 n2 lab z1 z2 post).

Ltac hunt_label :=
  repeat first
    [ progress hunt
    | rewrite find_sub_next
        by (exact (prefix_quoted_other "matchDummy" lab "" _ eq_refl Hlab Hkey1))
    | rewrite find_sub_next
        by (exact (prefix_quoted_other "matchUnique" lab "" _ eq_refl Hlab Hkey2)) ].

Lemma object_lacks :
  lacks dquote n1 = true ∧ lacks dquote n2 = true ∧ lacks dquote z1 = true
  ∧ lacks dquote z2 = true ∧ lacks dquote lab = true
  ∧ lacks "}" n1 = true ∧ lacks "}" n2 = true ∧ lacks "}" z1 = true
  ∧ lacks "}" z2 = true.
Proof.
  split_and!; try (by apply number_text_lacks); by apply quote_free_lacks.
Qed.

Lemma object_src :
  ∃ k, find_sub (Q ++ "src" ++ Q) T = Some k
       ∧ find_value (skip k T) "src" 64 = Some n1
       ∧ k = 1.
Proof.
  destruct object_lacks as (Hq1 & Hq2 & Hq3 & Hq4 & Hq5 & _).
  unfold edge_text, Q. simpl. eexists. split; [|split].
  - hunt. simpl. reflexivity.
  - walk. erewrite find_value_raw; [|hunt; simpl; reflexivity|reflexivity].
    walk. rewrite raw_value_number by auto.
    rewrite take_str_all by (simpl; lia). done.
  - done.
Qed.

Lemma object_dst :
  ∃ k, find_sub (Q ++ "dst" ++ Q) T = Some k
       ∧ find_value (skip k T) "dst" 64 = Some n2
       ∧ k = String.length n1 + 8.
Proof.
  destruct object_lacks as (Hq1 & Hq2 & Hq3 & Hq4 & Hq5 & _).
  unfold edge_text, Q. simpl. eexists. split; [|split].
  - hunt. simpl. reflexivity.
  - walk. erewrite find_value_raw; [|hunt; simpl; reflexivity|reflexivity].
    walk. rewrite raw_value_number by auto.
    rewrite take_str_all by (simpl; lia). done.
  - lia.
Qed.

Lemma object_label :
  ∃ k, find_sub (Q ++ "label" ++ Q) T = Some k
       ∧ find_value (skip k T) "label" 64 = Some (take_str 63 lab)
       ∧ k = String.length n1 + String.length n2 + 15.
Proof.
  destruct object_lacks as (Hq1 & Hq2 & Hq3 & Hq4 & Hq5 & _).
  unfold edge_text, Q. simpl. eexists. split; [|split].
  - hunt. simpl. reflexivity.
  - walk. erewrite find_value_raw; [|hunt; simpl; reflexivity|reflexivity].
    walk. by rewrite raw_value_string.
  - lia.
Qed.

Lemma object_dummy :
  ∃ k, find_sub (Q ++ "matchDummy" ++ Q) T = Some k
       ∧ find_value (skip k T) "matchDummy" 64 = Some z1
       ∧ k = String.length n1 + String.length n2 + String.length lab + 26.
Proof.
  destruct object_lacks as (Hq1 & Hq2 & Hq3 & Hq4 & Hq5 & _).
  unfold edge_text, Q. simpl. eexists. split; [|split].
  - hunt_label. simpl. reflexivity.
  - walk. erewrite find_value_raw; [|hunt; simpl; reflexivity|reflexivity].
    walk. rewrite raw_value_number by auto.
    rewrite take_str_all by (simpl; lia). done.
  - lia.
Qed.

Lemma object_unique :
  ∃ k, find_sub (Q ++ "matchUnique" ++ Q) T = Some k
       ∧ find_value (skip k T) "matchUnique" 64 = Some z2
       ∧ k = String.length n1 + String.length n2 + String.length lab
             + String.length z1 + 40.
Proof.
  destruct object_lacks as (Hq1 & Hq2 & Hq3 & Hq4 & Hq5 & _).
  unfold edge_text, Q. simpl. eexists. split; [|split].
  - hunt_label. simpl. reflexivity.
  - walk. erewrite find_value_raw; [|hunt; simpl; reflexivity|reflexivity].
    walk. rewrite raw_value_number by auto.
    rewrite take_str_all by (simpl; lia). done.
  - lia.
Qed.

Lemma object_brace :
  find_char "}" T
  = Some (String.length n1 + String.length n2 + String.length lab
          + String.length z1 + String.length z2 + 54).
Proof.
  destruct object_lacks as (_ & _ & _ & _ & _ & Hb1 & Hb2 & Hb3 & Hb4).
  unfold edge_text, Q. simpl. hunt. simpl. f_equal. lia.
Qed.

End object.
Lemma show_edge_text pre E post :
  pre ++ PolicyJSON.show_edge E ++ post
  = (pre ++ "        ")
    ++ edge_text (show_N (PolicyJSON.src E)) (show_N (PolicyJSON.dst E))
         (PolicyJSON.label E) (show_Z (PolicyJSON.matchDummy E))
         (show_Z (PolicyJSON.matchUnique E)) post.
Proof.
  unfold PolicyJSON.show_edge, edge_text.
  repeat (progress (rewrite ?append_assoc; simpl)). done.
Qed.

Lemma epsilon_buffer lab n :
  2 < n → quote_free lab = true →
  (String.eqb (take_str n lab) (Q ++ epsilon_label ++ Q)
   || String.eqb (take_str n lab) epsilon_label)
  = String.eqb lab epsilon_label.
Proof.
  intros Hn Hq.
  assert (String.eqb (take_str n lab) (Q ++ epsilon_label ++ Q) = false) as ->.
  { destruct n as [|n]; [lia|]. destruct lab as [|c lab]; [done|].
    cbn [take_str]. simpl in Hq.
    apply andb_true_iff in Hq as [Hc _]. apply negb_true_iff in Hc.
    change (Q ++ epsilon_label ++ Q) with (String dquote (epsilon_label ++ Q)).
    cbn [String.eqb]. by rewrite Hc. }
  cbn [orb]. destruct (String.eqb_spec lab epsilon_label) as [->|Hne].
  - rewrite take_str_all by (simpl; lia). apply String.eqb_refl.
  - apply String.eqb_neq. intros E. apply Hne. rewrite <- E.
    symmetry. apply take_str_short. rewrite E. simpl. lia.
Qed.

(** *** Properties *)

(** The edge array that a successful extraction hands back has
    [num_edges] records. *)
Lemma extract_parsed_length ok json fi mode es ne nn :
  extract_graph_edges ok json fi mode = Some (Parsed es ne nn) →
  length es = N.to_nat ne.
Proof.
  unfold extract_graph_edges. intros H.
  destruct (seek_edges _ json 0) as [p|]; [|done].
  destruct (strchr json p "[") as [start|]; cbn [mbind option_bind] in H;
    [|done].
  destruct (strchr json start "]") as [end_|]; [|done].
  destruct (end_ <=? start); [done|].
  destruct (strstr json p _) as [nl|]; [|done].
  destruct (strchr json nl "[") as [nlb|]; cbn [mbind option_bind] in H;
    [|done].
  destruct (strchr json nlb "]") as [nle|]; [|done].
  destruct ok; cbn [negb] in H; [|done].
  destruct (parse_loop _ json start end_ mode) as [parsed|];
    cbn [mbind option_bind] in H; [|done].
  destruct (Nat.leb_spec (length parsed)
              (N.to_nat (u32_count (count_char "{" json start end_))))
    as [Hle|_]; [|done].
  simplify_eq. unfold fill. rewrite length_app, length_replicate. lia.
Qed.

(** X19.  The parse loop ends, and it stays inside the array when the
    count of the braces does not wrap: every round of the loop consumes
    an opening brace between the brackets, so the loop writes no more
    records than there are such braces, and when there are fewer than
    2^32 of them the 32-bit count that sizes the array is their number. *)
Theorem parse_loop_within_array (text : string) (start end_ : nat) (mode : Z) :
  ∃ parsed,
    parse_loop (S (N.to_nat (count_char "{" text start end_)))
               text start end_ mode = Some parsed
    ∧ length parsed ≤ N.to_nat (count_char "{" text start end_)
    ∧ ((count_char "{" text start end_ < 2 ^ 32)%N →
       length parsed ≤ N.to_nat (u32_count (count_char "{" text start end_))).
Proof.
  destruct (parse_loop_within_array_aux text start end_ mode)
    as (parsed & Hp & Hle).
  exists parsed. split_and!; [done..|].
  intros Hsmall. unfold u32_count. by rewrite N.mod_small.
Qed.

Lemma parse_loop_within_array_witness :
  ∃ parsed,
    parse_loop 3 "[{},{}]" 0 6 0 = Some parsed
    ∧ length parsed ≤ 2 ∧ length parsed ≤ N.to_nat (u32_count 2).
Proof.
  destruct (parse_loop_within_array "[{},{}]" 0 6 0) as (parsed & Hp & Hle & Hw).
  exists parsed. split_and!; [exact Hp|exact Hle|].
  apply Hw. by vm_compute.
Defined.

(** X20.  The header of the blob counts its records: whenever the
    extraction succeeds, the edge array handed back has exactly
    [num_edges] records. *)
Theorem extracted_edges_counted (ok : bool) (json : string) (fi mode : Z)
    (es : list edge) (ne nn : N) :
  extract_graph_edges ok json fi mode = Some (Parsed es ne nn) →
  length es = N.to_nat ne.
Proof. apply extract_parsed_length. Qed.

Lemma extracted_edges_counted_witness :
  length [mkEdge 0 1 1 0; mkEdge 1 2 2 0] = N.to_nat 2.
Proof.
  apply (extracted_edges_counted true sample_artifact 0 1 _ 2 0).
  by vm_compute.
Defined.


(** X22.  The value fits the buffer: the text that [find_value] copies is
    shorter than the buffer it is given, so the terminating NUL is written
    inside the buffer. *)
Theorem find_value_fits (json key : string) (outsz : nat) (v : string) :
  0 < outsz → find_value json key outsz = Some v → String.length v < outsz.
Proof.
  unfold find_value. intros Hpos H.
  destruct (find_sub key json) as [p|]; simpl in H; [|done].
  destruct (find_char ":" (skip p json)) as [c|]; simpl in H; [|done].
  injection H as <-.
  match goal with |- String.length (take_str _ ?x) < _ =>
    pose proof (take_str_length (outsz - 1) x) end.
  lia.
Qed.

Lemma find_value_fits_witness : String.length "12" < 64.
Proof.
  apply (find_value_fits (Q ++ "src" ++ Q ++ ":12,") "src" 64).
  - lia.
  - reflexivity.
Defined.

(** X23.  White space after the colon does not count: when the key
    occurs in the text before a colon and no colon stands between its
    first occurrence and that colon, [find_value] reads the same value
    whether or not white space follows the colon. *)
Theorem find_value_skips_blanks (head key ws rest : string) (p outsz : nat) :
  find_sub key head = Some p → colon_free (skip p head) = true →
  blank ws = true →
  find_value (head ++ ":" ++ ws ++ rest) key outsz
  = find_value (head ++ ":" ++ rest) key outsz.
Proof.
  intros Hp Hc Hws. unfold find_value.
  rewrite !(find_sub_app_l _ _ _ _ Hp). cbn [mbind option_bind].
  pose proof (find_sub_inside _ _ _ Hp) as Hle.
  rewrite !skip_app_l by lia.
  change (":" ++ ws ++ rest) with (String ":" (ws ++ rest)).
  change (":" ++ rest) with (String ":" rest).
  rewrite !find_char_colon by done. cbn [mbind option_bind].
  assert (∀ x, skip (S (String.length (skip p head)))
                 (skip p head ++ String ":" x) = x) as Hskip.
  { intros x. replace (S (String.length (skip p head)))
      with (String.length (skip p head) + 1) by lia.
    rewrite skip_add, skip_app. by destruct x. }
  rewrite !Hskip. by rewrite skip_spaces_blank.
Qed.

Lemma find_value_skips_blanks_witness :
  find_value ((Q ++ "dst" ++ Q) ++ ":" ++ "  " ++ "12,") "dst" 64
  = find_value ((Q ++ "dst" ++ Q) ++ ":" ++ "12,") "dst" 64.
Proof.
  apply (find_value_skips_blanks (Q ++ "dst" ++ Q) "dst" "  " "12," 1 64);
    reflexivity.
Defined.

(** X24.  A function that is not in the artifact is refused: when the
    key of the edges array does not occur [k + 1] times, the extraction
    returns -1 for the function index [k] and for every larger one. *)
Theorem missing_function_refused (ok : bool) (json : string) (k : nat)
    (fi mode : Z) :
  seek_edges (S k) json 0 = None → (Z.of_nat k ≤ fi)%Z →
  extract_graph_edges ok json fi mode = Some Failed.
Proof.
  intros Hseek Hfi. unfold extract_graph_edges.
  replace (Z.to_nat (fi + 1)) with (S k + (Z.to_nat fi - k)) by lia.
  by rewrite (seek_edges_None _ _ _ _ Hseek).
Qed.

Lemma missing_function_refused_witness :
  extract_graph_edges true sample_artifact 5 0 = Some Failed.
Proof.
  apply (missing_function_refused true sample_artifact 2 5 0).
  - by vm_compute.
  - lia.
Defined.

(** X25.  The exit status: [main] exits with 0 or 1, and with 0 only when
    a positive pid and a file were named, the file was read, the
    extraction from its text up to the first zero byte succeeded and the
    device accepted the blob made of the pid, the counts, an id mode that
    is 0 or 1 and exactly [num_edges] edge records. *)
Theorem main_exit_status (argv : list string) (w : world) (r : Z) :
  main argv w = Some r →
  r = 1%Z
  ∨ r = 0%Z
    ∧ ∃ o path bytes es ne nn ioctl,
        parse_args argv (mkOptions (-1) None 0 0) = Some o
        ∧ json_path o = Some path ∧ (0 < opt_pid o)%Z
        ∧ (opt_id_mode o = 0 ∨ opt_id_mode o = 1)%Z
        ∧ files w path = Some bytes
        ∧ extract_graph_edges (calloc_ok w) (c_str bytes) (func_index o)
            (opt_id_mode o)
          = Some (Parsed es ne nn)
        ∧ length es = N.to_nat ne
        ∧ device w = Some ioctl
        ∧ ioctl {| hdr := {| pid := to_u32 (opt_pid o); num_nodes := nn;
                             num_edges := ne;
                             id_mode := to_u32 (opt_id_mode o) |};
                   payload := es |} = 0%Z.
Proof.
  unfold main. intros H.
  destruct (parse_args argv _) as [o|] eqn:Hargs; [|left; by simplify_eq].
  destruct (json_path o) as [path|] eqn:Hpath; [|left; by simplify_eq].
  destruct (Z.leb_spec (opt_pid o) 0) as [|Hpid]; [left; by simplify_eq|].
  destruct (files w path) as [bytes|] eqn:Hfile; [|left; by simplify_eq].
  cbv zeta in H.
  destruct (extract_graph_edges _ (c_str bytes) _ _) as [[|es ne nn]|] eqn:Hx;
    cbn [mbind option_bind] in H; [left; by simplify_eq| |done].
  destruct (device w) as [ioctl|] eqn:Hdev; [|left; by simplify_eq].
  destruct (malloc_ok w); cbn [negb] in H; [|left; by simplify_eq].
  destruct (Z.eqb_spec (ioctl {| hdr := {| pid := to_u32 (opt_pid o);
                                           num_nodes := nn; num_edges := ne;
                                           id_mode := to_u32 (opt_id_mode o) |};
                                 payload := es |}) 0) as [Hio|_];
    [|left; by simplify_eq].
  right. split; [by simplify_eq|].
  exists o, path, bytes, es, ne, nn, ioctl. split_and!; try done.
  - destruct (parse_args_id_mode _ _ _ _ (le_n _) Hargs) as [Hm|Hm];
      rewrite Hm; auto.
  - by eapply extract_parsed_length.
Qed.

Lemma main_exit_status_witness :
  0%Z = 1%Z
  ∨ 0%Z = 0%Z
    ∧ ∃ o path bytes es ne nn ioctl,
        parse_args sample_argv (mkOptions (-1) None 0 0) = Some o
        ∧ json_path o = Some path ∧ (0 < opt_pid o)%Z
        ∧ (opt_id_mode o = 0 ∨ opt_id_mode o = 1)%Z
        ∧ files (willing_world "policy.json" sample_artifact) path = Some bytes
        ∧ extract_graph_edges
            (calloc_ok (willing_world "policy.json" sample_artifact))
            (c_str bytes) (func_index o) (opt_id_mode o)
          = Some (Parsed es ne nn)
        ∧ length es = N.to_nat ne
        ∧ device (willing_world "policy.json" sample_artifact) = Some ioctl
        ∧ ioctl {| hdr := {| pid := to_u32 (opt_pid o); num_nodes := nn;
                             num_edges := ne;
                             id_mode := to_u32 (opt_id_mode o) |};
                   payload := es |} = 0%Z.
Proof.
  apply (main_exit_status sample_argv
           (willing_world "policy.json" sample_artifact) 0).
  by vm_compute.
Defined.

(** X30.  An edge object is read back as it was written: in a C string
    (a text without a zero byte) that holds the object that the serializer
    writes for the edge [E], the parse loop finds the opening brace and
    the closing brace of the object and reads from it the source, the
    target, the match identifier of the id mode and the epsilon flag of
    [E], each number as [atoi] and the conversion to the field make it:
    kept within the range of a [long], then cut to 32 bits.  Endpoints
    below 2^32 and match identifiers in the range of an [int] come back
    unchanged.  This holds provided that the label holds no double quote
    and no closing brace and is not the name of one of the two match keys,
    and that each number is written with fewer than 64 characters. *)
Theorem edge_object_read_back (pre post : string) (E : PolicyJSON.Edge)
    (id_mode : Z) :
  lacks Ascii.zero (pre ++ PolicyJSON.show_edge E ++ post) = true →
  quote_free (PolicyJSON.label E) = true →
  lacks "}" (PolicyJSON.label E) = true →
  PolicyJSON.label E ≠ "matchDummy" → PolicyJSON.label E ≠ "matchUnique" →
  short_fields E →
  ∃ ee,
    strchr (pre ++ PolicyJSON.show_edge E ++ post) (String.length pre) "{"
    = Some (String.length pre + 8)
    ∧ strchr (pre ++ PolicyJSON.show_edge E ++ post) (String.length pre + 8) "}"
      = Some ee
    ∧ parse_edge (pre ++ PolicyJSON.show_edge E ++ post)
                 (String.length pre + 8) ee id_mode
      = decoded E id_mode
    ∧ (fits_record E → decoded E id_mode = written E id_mode).
Proof.
  intros _ Hq Hb Hk1 Hk2 (Hs1 & Hs2 & Hs3 & Hs4).
  rewrite show_edge_text.
  set (n1 := show_N (PolicyJSON.src E)) in *.
  set (n2 := show_N (PolicyJSON.dst E)) in *.
  set (z1 := show_Z (PolicyJSON.matchDummy E)) in *.
  set (z2 := show_Z (PolicyJSON.matchUnique E)) in *.
  set (lab := PolicyJSON.label E) in *.
  pose proof (number_text_show_N (PolicyJSON.src E)) as Hn1.
  pose proof (number_text_show_N (PolicyJSON.dst E)) as Hn2.
  pose proof (number_text_show_Z (PolicyJSON.matchDummy E)) as Hz1.
  pose proof (number_text_show_Z (PolicyJSON.matchUnique E)) as Hz2.
  fold n1 in Hn1. fold n2 in Hn2. fold z1 in Hz1. fold z2 in Hz2.
  pose proof (object_src n1 n2 lab z1 z2 post) as Xs. feed Xs.
  pose proof (object_dst n1 n2 lab z1 z2 post) as Xd. feed Xd.
  pose proof (object_label n1 n2 lab z1 z2 post) as Xl. feed Xl.
  pose proof (object_dummy n1 n2 lab z1 z2 post) as Xm. feed Xm.
  pose proof (object_unique n1 n2 lab z1 z2 post) as Xu. feed Xu.
  pose proof (object_brace n1 n2 lab z1 z2 post) as Fb. feed Fb.
  destruct Xs as (ks & Fs & Vs & Es). destruct Xd as (kd & Fd & Vd & Ed).
  destruct Xl as (kl & Fl & Vl & El). destruct Xm as (km & Fm & Vm & Em).
  destruct Xu as (ku & Fu & Vu & Eu).
  set (T := edge_text n1 n2 lab z1 z2 post) in *.
  assert (String.length (pre ++ "        ") = String.length pre + 8) as Hlen
    by (by rewrite append_length).
  eexists. split; [|split; [|split]]; cycle 3.
  { intros (Hf1 & Hf2 & Hf3 & Hf4). unfold decoded, written.
    rewrite !to_u32_c_int by done. f_equal.
    destruct (id_mode =? 0)%Z; by apply c_int_small. }
  - unfold strchr. rewrite append_assoc, skip_app. unfold T, edge_text. done.
  - rewrite <- Hlen. unfold strchr. rewrite skip_app, Fb. simpl. done.
  - rewrite <- Hlen. unfold parse_edge.
    rewrite !(edge_field_shift (pre ++ "        ") T), Fs, Fd, Fl.
    cbn [mbind option_bind].
    assert (∀ k, k < String.length n1 + String.length n2 + String.length lab
                     + String.length z1 + String.length z2 + 54 →
              (String.length (pre ++ "        ") + k
               <? String.length (pre ++ "        ")
                  + (String.length n1 + String.length n2 + String.length lab
                     + String.length z1 + String.length z2 + 54)) = true)
      as Hin by (intros; apply Nat.ltb_lt; lia).
    rewrite !Hin by lia. rewrite Vs, Vd, Vl.
    unfold decoded. fold lab.
    rewrite epsilon_buffer by (done || lia).
    unfold n1, n2. rewrite !atoi_show_N. f_equal.
    destruct (id_mode =? 0)%Z.
    + rewrite Fm. cbn [mbind option_bind]. rewrite Hin by lia.
      rewrite Vm. apply atoi_show_Z.
    + rewrite Fu. cbn [mbind option_bind]. rewrite Hin by lia.
      rewrite Vu. apply atoi_show_Z.
Qed.

Lemma edge_object_read_back_witness :
  ∃ ee,
    strchr ("[" ++ PolicyJSON.show_edge (PolicyJSON.mkEdge 0 1 "open" 0 1) ++ "]")
           (String.length "[") "{"
    = Some (String.length "[" + 8)
    ∧ strchr ("[" ++ PolicyJSON.show_edge (PolicyJSON.mkEdge 0 1 "open" 0 1)
                  ++ "]")
             (String.length "[" + 8) "}"
      = Some ee
    ∧ parse_edge ("[" ++ PolicyJSON.show_edge (PolicyJSON.mkEdge 0 1 "open" 0 1)
                      ++ "]")
                 (String.length "[" + 8) ee 1
      = written (PolicyJSON.mkEdge 0 1 "open" 0 1) 1.
Proof.
  destruct (edge_object_read_back "[" "]" (PolicyJSON.mkEdge 0 1 "open" 0 1) 1)
    as (ee & Ho & Hc & Hr & Hw).
  - reflexivity.
  - reflexivity.
  - reflexivity.
  - done.
  - done.
  - unfold short_fields. vm_compute. lia.
  - exists ee. split_and!; [exact Ho|exact Hc|].
    rewrite Hr. apply Hw. unfold fits_record. simpl. lia.
Defined.

End LoaderMoreFacts.
